(** * Code walkthrough extension: staleness detection, repair and line remapping

    A shallow embedding of the walkthrough core of the extension:
    - [src/git/git.ts]: the revision oracle and the hunk based remapper
      ([remapLineRange]);
    - [src/walkthrough/staleness]: [checkStaleness] with its content hash,
      git and symbol tiers;
    - the repair engine: [repairWalkthrough];
    - [src/walkthrough/loader.ts]: [isValidStep] and [isValidWalkthrough].

    JavaScript numbers that hold line numbers and counts are modelled as
    integers ([Z]); strings as [string]; optional fields as [option];
    the [Map] used as a per-invocation hunk cache as a [gmap]; a promise
    that rejects (or a call that throws) as the [Throw] case of [Result].
    The editor, node and the git subprocess are a record of functions
    ([Editor.Host]), a snapshot of the world for one invocation; the
    asynchronous calls are sequential, so [await] is function application. *)

From Stdlib Require Import ZArith Lia String Ascii List DecimalString Sorted.
From Stdlib Require DecimalPos.
From stdpp Require Import gmap strings list.

Set Warnings "-register-all".

Local Open Scope string_scope.
Local Open Scope Z_scope.

(** ** Exceptions *)

Inductive Result (A : Type) : Type :=
| Ok (a : A)
| Throw.
Arguments Ok {A} a.
Arguments Throw {A}.

(** JavaScript truthiness of an optional string: [undefined], [null] and the
    empty string are falsy. *)
Definition truthy (s : option string) : bool :=
  match s with
  | Some s => negb (String.eqb s EmptyString)
  | None => false
  end.

(** ** git.ts: hunks and the remapper *)

Module Git.

Record LineMapping : Type := mkLineMapping {
  oldStart : Z;
  oldCount : Z;
  newStart : Z;
  newCount : Z;
}.

(** The body of [for (const hunk of mappings)] in [remapLineRange], with the
    running [offset] as an accumulator; the second branch is the [break]. *)
Fixpoint remapLoop (start_ end_ : Z) (offset : Z) (mappings : list LineMapping) : Z :=
  match mappings with
  | [] => offset
  | hunk :: rest =>
      let hunkOldEnd := oldStart hunk + oldCount hunk in
      if hunkOldEnd <=? start_ then
        remapLoop start_ end_ (offset + (newCount hunk - oldCount hunk)) rest
      else if oldStart hunk >? end_ then
        offset
      else
        remapLoop start_ end_ (offset + (newCount hunk - oldCount hunk)) rest
  end.

Definition remapLineRange (start_ end_ : Z) (mappings : list LineMapping) : Z * Z :=
  let offset := remapLoop start_ end_ 0 mappings in
  (start_ + offset, end_ + offset).

(** Hunks ordered by ascending [oldStart], as a zero-context diff lists them. *)
Definition ascending (hunks : list LineMapping) : Prop :=
  Sorted (fun a b => oldStart a <= oldStart b) hunks.

(** The specification's accumulation rules, one constructor per rule:
    a hunk whose old extent ends at or before the range's start adds its
    net growth; the first hunk that starts after the range's end stops the
    accumulation, whatever follows it; any other hunk (one that overlaps the
    range) adds its net growth too. The rules are read in the order the
    specification lists them, so the second one speaks of hunks the first
    one does not cover; for a range with [start_ <= end_] and a hunk with
    a non-negative old count the two conditions exclude each other
    ([startsAfter_not_endsBefore] below). *)
Inductive Accumulates (start_ end_ : Z) : list LineMapping -> Z -> Prop :=
| acc_nil : Accumulates start_ end_ [] 0
| acc_before hunk rest o :
    oldStart hunk + oldCount hunk <= start_ ->
    Accumulates start_ end_ rest o ->
    Accumulates start_ end_ (hunk :: rest) ((newCount hunk - oldCount hunk) + o)
| acc_stop hunk rest :
    start_ < oldStart hunk + oldCount hunk ->
    end_ < oldStart hunk ->
    Accumulates start_ end_ (hunk :: rest) 0
| acc_overlap hunk rest o :
    start_ < oldStart hunk + oldCount hunk ->
    oldStart hunk <= end_ ->
    Accumulates start_ end_ rest o ->
    Accumulates start_ end_ (hunk :: rest) ((newCount hunk - oldCount hunk) + o).

(** The net growth [newCount - oldCount] of a hunk, and its sum over the
    hunks that start at or before a given old line. *)
Definition netGrowth (hunk : LineMapping) : Z := newCount hunk - oldCount hunk.

Definition growthUpTo (end_ : Z) (hunks : list LineMapping) : Z :=
  fold_right (fun hunk total => netGrowth hunk + total) 0
             (List.filter (fun hunk => oldStart hunk <=? end_) hunks).

(** The hunk of the specification's two remapping examples. *)
Definition exampleHunk : LineMapping := mkLineMapping 10 2 10 5.

(** The caller's clamping of a remapped range, written the same way in
    [checkStaleness] and in [repairWalkthrough]:
    [clampedStart = Math.max(1, newStart)] and
    [clampedEnd = Math.min(doc.lineCount, Math.max(clampedStart, newEnd))]. *)
Definition clampRange (lineCount : Z) (remapped : Z * Z) : Z * Z :=
  let '(newStart_, newEnd_) := remapped in
  let clampedStart := Z.max 1 newStart_ in
  let clampedEnd := Z.min lineCount (Z.max clampedStart newEnd_) in
  (clampedStart, clampedEnd).

End Git.

(** ** types.ts: the persisted data model *)

Module Types.

Record WalkthroughStep : Type := mkStep {
  file : string;
  lines : Z * Z;
  symbol : option string;
  contentHash : option string;
  subtitle : string;
  duration : option Z;
}.

Record Walkthrough : Type := mkWalkthrough {
  title : string;
  description : string;
  commitSha : option string;
  steps : list WalkthroughStep;
}.

Record WalkthroughFile : Type := mkWalkthroughFile {
  uri : string;
  walkthrough : Walkthrough;
}.

End Types.

(** ** The editor host and the git subprocess, as the code consumes them *)

Module Editor.

(** A text document: its uri and its lines. [lineAt] throws on a line that
    is not in the document, as the editor's [TextDocument.lineAt] does. *)
Record TextDocument : Type := mkDocument {
  docUri : string;
  docLines : list string;
}.

Definition lineCount (doc : TextDocument) : Z :=
  Z.of_nat (length (docLines doc)).

Definition lineAt (doc : TextDocument) (line : Z) : Result string :=
  if (line <? 0) || (lineCount doc <=? line) then Throw
  else match docLines doc !! Z.to_nat line with
       | Some text => Ok text
       | None => Throw
       end.

(** [new vscode.Range(startLine, startCharacter, endLine, endCharacter)].
    At every construction site of the modelled code the start line is at
    least 0 and the end line has just been accepted by [lineAt], so the
    constructor's own argument check never fires there. *)
Record Range : Type := mkRange {
  rangeStartLine : Z;
  rangeStartCharacter : Z;
  rangeEndLine : Z;
  rangeEndCharacter : Z;
}.

(** [vscode.DocumentSymbol]: the name, [range.start.line] (0-indexed) and
    the children of a declaration. *)
Inductive DocumentSymbol : Type :=
| mkSymbol (name : string) (startLine : Z) (children : list DocumentSymbol).

Definition symStartLine (s : DocumentSymbol) : Z :=
  match s with mkSymbol _ l _ => l end.
Definition symChildren (s : DocumentSymbol) : list DocumentSymbol :=
  match s with mkSymbol _ _ c => c end.

(** Everything outside the repository that the core calls: the editor API,
    node's [path] and [crypto], and the git subprocess. A [Host] is a
    snapshot of that world for one invocation. *)
Record Host : Type := mkHost {
  (** [vscode.workspace.workspaceFolders]: [undefined], or the [uri.fsPath]
      of each open folder (possibly none). *)
  workspaceFolders : option (list string);
  (** [path.resolve(rootPath, file)]. *)
  pathResolve : string -> string -> string;
  (** [vscode.workspace.openTextDocument(Uri.file(p))]; rejects when the
      file cannot be opened. *)
  openTextDocument : string -> Result TextDocument;
  (** [doc.getText(range)]. *)
  getText : TextDocument -> Range -> string;
  (** [crypto.createHash("sha256").update(s).digest("hex")]. *)
  sha256hex : string -> string;
  (** [executeCommand("vscode.executeDocumentSymbolProvider", doc.uri)]:
      throws, answers [undefined], or answers a declaration forest. *)
  executeDocumentSymbolProvider : string -> Result (option (list DocumentSymbol));
  (** [git rev-parse HEAD] run in a directory: the trimmed output, or a
      failure of the command. *)
  gitRevParseHead : string -> Result string;
  (** [git cat-file -e sha:path] run in a directory: whether it succeeded. *)
  gitCatFile : string -> string -> string -> bool;
  (** [git diff --name-status -M from to -- path]: the (source, target)
      pairs of the output's rename lines, in order, or a failure. *)
  gitRenameLines : string -> string -> string -> string -> Result (list (string * string));
  (** [git diff -U0 from to -- path]: the hunk headers of the output, as
      [parseHunkHeaders] reads them, or a failure. *)
  gitDiffHunks : string -> string -> string -> string -> Result (list Git.LineMapping);
}.

End Editor.

(** ** git.ts: the revision oracle *)

Module GitOracle.
Import Git Editor.

Definition getWorkspaceRoot (h : Host) : option string :=
  match workspaceFolders h with
  | None => None
  | Some [] => None
  | Some (folder :: _) => Some folder
  end.

Definition getHeadSha (h : Host) : option string :=
  match getWorkspaceRoot h with
  | None => None
  | Some root =>
      match gitRevParseHead h root with
      | Ok stdout => Some stdout
      | Throw => None
      end
  end.

Definition computeLineMappings (h : Host) (fromSha toSha filePath : string)
  : list LineMapping :=
  match getWorkspaceRoot h with
  | None => []
  | Some root =>
      match gitDiffHunks h root fromSha toSha filePath with
      | Ok hunks => hunks
      | Throw => []
      end
  end.

Definition fileExistsAtCommit (h : Host) (sha filePath : string) : bool :=
  match getWorkspaceRoot h with
  | None => false
  | Some root => gitCatFile h root sha filePath
  end.

(** The scan of the rename lines in [getFileRenames]: the first line that
    names [filePath] on either side answers with the other side. *)
Fixpoint scanRenames (filePath : string) (entries : list (string * string))
  : option string :=
  match entries with
  | [] => None
  | (source, target) :: rest =>
      if String.eqb source filePath then Some target
      else if String.eqb target filePath then Some source
      else scanRenames filePath rest
  end.

Definition getFileRenames (h : Host) (fromSha toSha filePath : string)
  : option string :=
  match getWorkspaceRoot h with
  | None => None
  | Some root =>
      match gitRenameLines h root fromSha toSha filePath with
      | Ok entries => scanRenames filePath entries
      | Throw => None
      end
  end.

End GitOracle.

(** ** staleness: [checkStaleness] and its helpers *)

Module Staleness.
Import Git Types Editor GitOracle.

Inductive StaleStatus : Type :=
| st_fresh
| st_drifted
| st_missing
| st_git_resolved.

Record StaleCheckResult : Type := mkResult {
  stepIndex : nat;
  status : StaleStatus;
  resolvedLines : option (Z * Z);
  detail : option string;
}.

(** Decimal rendering of a line number inside a template literal. *)
Definition showZ (z : Z) : string := NilZero.string_of_int (Z.to_int z).

Definition dquote : string := String (ascii_of_nat 34) EmptyString.

(** [.digest("hex").slice(0, 12)]. *)
Definition hash12 (h : Host) (content : string) : string :=
  substring 0 12 (sha256hex h content).

(** [hash === step.contentHash], a string against an optional string. *)
Definition sameHash (hash : string) (stored : option string) : bool :=
  match stored with
  | Some s => String.eqb hash s
  | None => false
  end.

Definition checkContentHash (h : Host) (doc : TextDocument) (step : WalkthroughStep)
  : Result bool :=
  let startLine := Z.max 0 (fst (lines step) - 1) in
  let endLine := Z.min (lineCount doc - 1) (snd (lines step) - 1) in
  match lineAt doc endLine with
  | Throw => Throw
  | Ok text =>
      let range := mkRange startLine 0 endLine (Z.of_nat (String.length text)) in
      let content := getText h doc range in
      let hash := hash12 h content in
      Ok (sameHash hash (contentHash step))
  end.

(** The first answer of [f] along a list: the shape of the [for] loop with
    an early [return] in [findSymbolByName]. *)
Definition firstSome {A B : Type} (f : A -> option B) : list A -> option B :=
  fix scan (l : list A) : option B :=
    match l with
    | [] => None
    | a :: rest =>
        match f a with
        | Some b => Some b
        | None => scan rest
        end
    end.

(** One iteration of [findSymbolByName]'s loop: the symbol itself when its
    name matches, otherwise the search in its children. *)
Fixpoint findInSymbol (name : string) (sym : DocumentSymbol) : option DocumentSymbol :=
  match sym with
  | mkSymbol n _ children =>
      if String.eqb n name then Some sym
      else firstSome (findInSymbol name) children
  end.

Definition findSymbolByName (symbols : list DocumentSymbol) (name : string)
  : option DocumentSymbol :=
  firstSome (findInSymbol name) symbols.

Definition findBySymbol (h : Host) (doc : TextDocument) (step : WalkthroughStep)
  : option (Z * Z) :=
  if negb (truthy (symbol step)) then None
  else
    match symbol step with
    | None => None
    | Some name =>
        match executeDocumentSymbolProvider h (docUri doc) with
        | Throw => None
        | Ok None => None
        | Ok (Some symbols) =>
            match findSymbolByName symbols name with
            | Some m =>
                let lineSpan := snd (lines step) - fst (lines step) in
                Some (symStartLine m + 1, symStartLine m + 1 + lineSpan)
            | None => None
            end
        end
    end.

(** The state of the loop in [checkStaleness]: the verdicts pushed so far and
    the hunk cache; [diffCalls] records, in order, the path of every
    [computeLineMappings] call made. *)
Record LoopState : Type := mkLoopState {
  results : list StaleCheckResult;
  mappingsCache : gmap string (list LineMapping);
  diffCalls : list string;
}.

Definition push (r : StaleCheckResult) (st : LoopState) : LoopState :=
  mkLoopState (results st ++ [r]) (mappingsCache st) (diffCalls st).

(** [mappingsCache.get(key)], and on a miss the [computeLineMappings] call
    for [path] whose answer is stored under [key]. *)
Definition cachedMappings (h : Host) (fromSha toSha key path : string) (st : LoopState)
  : list LineMapping * LoopState :=
  match mappingsCache st !! key with
  | Some mappings => (mappings, st)
  | None =>
      let mappings := computeLineMappings h fromSha toSha path in
      (mappings,
       mkLoopState (results st) (<[key := mappings]> (mappingsCache st))
                   (diffCalls st ++ [path]))
  end.

(** [canUseGit]: both revisions are truthy and differ; the pair it then works
    with. *)
Definition gitRevisions (commitSha headSha : option string) : option (string * string) :=
  match commitSha, headSha with
  | Some c, Some hd =>
      if truthy (Some c) && truthy (Some hd) && negb (String.eqb c hd)
      then Some (c, hd) else None
  | _, _ => None
  end.

Definition missingResult (i : nat) (step : WalkthroughStep) : StaleCheckResult :=
  mkResult i st_missing None (Some ("File not found: " ++ file step)).

Definition freshResult (i : nat) : StaleCheckResult :=
  mkResult i st_fresh None None.

Definition gitResolvedResult (i : nat) (clamped : Z * Z) : StaleCheckResult :=
  mkResult i st_git_resolved (Some clamped)
    (Some ("Git resolved: lines shifted to " ++ showZ (fst clamped) ++ "-"
             ++ showZ (snd clamped))).

Definition gitDriftedResult (i : nat) (clamped : Z * Z) : StaleCheckResult :=
  mkResult i st_drifted (Some clamped)
    (Some ("Git remapped to " ++ showZ (fst clamped) ++ "-" ++ showZ (snd clamped)
             ++ ", but content also changed")).

Definition symbolResult (i : nat) (step : WalkthroughStep) (symbolMatch : Z * Z)
  : StaleCheckResult :=
  mkResult i st_drifted (Some symbolMatch)
    (Some ("Lines shifted. Symbol " ++ dquote
             ++ match symbol step with Some s => s | None => "undefined" end
             ++ dquote ++ " found at " ++ showZ (fst symbolMatch) ++ "-"
             ++ showZ (snd symbolMatch))).

Definition driftedResult (i : nat) : StaleCheckResult :=
  mkResult i st_drifted None
    (Some "Content hash mismatch. Code may have changed since walkthrough was created.").

(** The symbol tier and the final verdict (the tail of the [try] block). *)
Definition symbolTier (h : Host) (doc : TextDocument) (i : nat) (step : WalkthroughStep)
  (st : LoopState) : LoopState :=
  match findBySymbol h doc step with
  | Some symbolMatch => push (symbolResult i step symbolMatch) st
  | None => push (driftedResult i) st
  end.

(** The git tier, entered when [canUseGit] holds. With no hunks it falls
    through to the symbol tier. A throw of [doc.lineAt] lands in the
    [catch] of the loop body, after the cache has been written. *)
Definition gitTier (h : Host) (revs : string * string) (doc : TextDocument) (i : nat)
  (step : WalkthroughStep) (st : LoopState) : LoopState :=
  let '(mappings, st1) :=
    cachedMappings h (fst revs) (snd revs) (file step) (file step) st in
  match mappings with
  | [] => symbolTier h doc i step st1
  | _ :: _ =>
      let remapped := remapLineRange (fst (lines step)) (snd (lines step)) mappings in
      let clamped := clampRange (lineCount doc) remapped in
      match lineAt doc (snd clamped - 1) with
      | Throw => push (missingResult i step) st1
      | Ok text =>
          let remappedContent :=
            getText h doc
              (mkRange (fst clamped - 1) 0 (snd clamped - 1)
                       (Z.of_nat (String.length text))) in
          let remappedHash := hash12 h remappedContent in
          if sameHash remappedHash (contentHash step)
          then push (gitResolvedResult i clamped) st1
          else push (gitDriftedResult i clamped) st1
      end
  end.

(** One iteration of the loop of [checkStaleness]: the [try] block and its
    [catch]. *)
Definition staleStep (h : Host) (rootPath : string) (revs : option (string * string))
  (i : nat) (step : WalkthroughStep) (st : LoopState) : LoopState :=
  let filePath := pathResolve h rootPath (file step) in
  match openTextDocument h filePath with
  | Throw => push (missingResult i step) st
  | Ok doc =>
      if negb (truthy (contentHash step)) then push (freshResult i) st
      else
        match checkContentHash h doc step with
        | Throw => push (missingResult i step) st
        | Ok true => push (freshResult i) st
        | Ok false =>
            match revs with
            | Some r => gitTier h r doc i step st
            | None => symbolTier h doc i step st
            end
        end
  end.

(** [for (let i = 0; i < steps.length; i++)], from index [i] on. *)
Fixpoint staleLoop (h : Host) (rootPath : string) (revs : option (string * string))
  (i : nat) (steps : list WalkthroughStep) (st : LoopState) : LoopState :=
  match steps with
  | [] => st
  | step :: rest =>
      staleLoop h rootPath revs (S i) rest (staleStep h rootPath revs i step st)
  end.

Definition noWorkspaceResult (i : nat) (_ : WalkthroughStep) : StaleCheckResult :=
  mkResult i st_missing None (Some "No workspace open").

(** [checkStaleness], with the final loop state kept. With a defined but
    empty folder list, [workspaceFolders[0].uri] is a property read of
    [undefined]: the call throws. *)
Definition checkStalenessRun (h : Host) (steps : list WalkthroughStep)
  (commitSha : option string) : Result LoopState :=
  match workspaceFolders h with
  | None => Ok (mkLoopState (imap noWorkspaceResult steps) ∅ [])
  | Some [] => Throw
  | Some (rootPath :: _) =>
      let headSha := getHeadSha h in
      let revs := gitRevisions commitSha headSha in
      Ok (staleLoop h rootPath revs 0 steps (mkLoopState [] ∅ []))
  end.

Definition checkStaleness (h : Host) (steps : list WalkthroughStep)
  (commitSha : option string) : Result (list StaleCheckResult) :=
  match checkStalenessRun h steps commitSha with
  | Ok st => Ok (results st)
  | Throw => Throw
  end.

(** *** The tiered policy for one step, without the cache

    What the specification's tier list gives for a step on its own: the
    hunks are asked from [computeLineMappings] directly. *)

Definition symbolVerdict (h : Host) (doc : TextDocument) (i : nat)
  (step : WalkthroughStep) : StaleCheckResult :=
  match findBySymbol h doc step with
  | Some symbolMatch => symbolResult i step symbolMatch
  | None => driftedResult i
  end.

Definition gitVerdict (h : Host) (doc : TextDocument) (i : nat)
  (step : WalkthroughStep) (mappings : list LineMapping) : StaleCheckResult :=
  match mappings with
  | [] => symbolVerdict h doc i step
  | _ :: _ =>
      let clamped :=
        clampRange (lineCount doc)
          (remapLineRange (fst (lines step)) (snd (lines step)) mappings) in
      match lineAt doc (snd clamped - 1) with
      | Throw => missingResult i step
      | Ok text =>
          if sameHash
               (hash12 h (getText h doc
                            (mkRange (fst clamped - 1) 0 (snd clamped - 1)
                                     (Z.of_nat (String.length text)))))
               (contentHash step)
          then gitResolvedResult i clamped
          else gitDriftedResult i clamped
      end
  end.

Definition stepVerdict (h : Host) (rootPath : string) (revs : option (string * string))
  (i : nat) (step : WalkthroughStep) : StaleCheckResult :=
  match openTextDocument h (pathResolve h rootPath (file step)) with
  | Throw => missingResult i step
  | Ok doc =>
      if negb (truthy (contentHash step)) then freshResult i
      else
        match checkContentHash h doc step with
        | Throw => missingResult i step
        | Ok true => freshResult i
        | Ok false =>
            match revs with
            | Some r =>
                gitVerdict h doc i step
                  (computeLineMappings h (fst r) (snd r) (file step))
            | None => symbolVerdict h doc i step
            end
        end
  end.

(** The verdict of the [i]-th step under a host and a baseline: the
    no-workspace answer, or the tiered policy under the first folder. *)
Definition policyVerdict (h : Host) (commitSha : option string)
  (i : nat) (step : WalkthroughStep) : StaleCheckResult :=
  match workspaceFolders h with
  | Some (rootPath :: _) =>
      stepVerdict h rootPath (gitRevisions commitSha (getHeadSha h)) i step
  | _ => noWorkspaceResult i step
  end.

(** The cache only ever holds what [computeLineMappings] answers. *)
Definition coherent (h : Host) (revs : option (string * string))
  (cache : gmap string (list LineMapping)) : Prop :=
  forall r path mappings,
    revs = Some r ->
    cache !! path = Some mappings ->
    mappings = computeLineMappings h (fst r) (snd r) path.





End Staleness.

(** ** repair: [repairWalkthrough] *)

Module Repair.
Import Git Types Editor GitOracle.

Record RepairResult : Type := mkRepairResult {
  repaired : bool;
  stepsFixed : nat;
  stepsUnresolvable : nat;
  walkthrough : Walkthrough;
}.

(** The mutable locals of the loop in [repairWalkthrough]; [diffCalls]
    records, in order, the cache key and the path of every
    [computeLineMappings] call made. *)
Record RepairState : Type := mkRepairState {
  repairedSteps : list WalkthroughStep;
  fixedCount : nat;
  unresolvableCount : nat;
  mappingsCache : gmap string (list LineMapping);
  diffCalls : list (string * string);
}.

Definition initialState : RepairState := mkRepairState [] 0 0 ∅ [].

(** [repairedSteps.push(step)] with no counter touched. *)
Definition keepStep (step : WalkthroughStep) (st : RepairState) : RepairState :=
  mkRepairState (repairedSteps st ++ [step]) (fixedCount st) (unresolvableCount st)
                (mappingsCache st) (diffCalls st).

(** [repairedSteps.push(step); stepsFixed++]. *)
Definition pushFixed (step : WalkthroughStep) (st : RepairState) : RepairState :=
  mkRepairState (repairedSteps st ++ [step]) (S (fixedCount st)) (unresolvableCount st)
                (mappingsCache st) (diffCalls st).

(** [repairedSteps.push(step); stepsUnresolvable++]. *)
Definition pushUnresolvable (step : WalkthroughStep) (st : RepairState) : RepairState :=
  mkRepairState (repairedSteps st ++ [step]) (fixedCount st) (S (unresolvableCount st))
                (mappingsCache st) (diffCalls st).

(** [mappingsCache.get(cacheKey)], and on a miss
    [computeLineMappings(oldSha, newSha, path)] stored under [cacheKey]. *)
Definition cachedMappings (h : Host) (oldSha newSha cacheKey path : string)
  (st : RepairState) : list LineMapping * RepairState :=
  match mappingsCache st !! cacheKey with
  | Some mappings => (mappings, st)
  | None =>
      let mappings := computeLineMappings h oldSha newSha path in
      (mappings,
       mkRepairState (repairedSteps st) (fixedCount st) (unresolvableCount st)
                     (<[cacheKey := mappings]> (mappingsCache st))
                     (diffCalls st ++ [(cacheKey, path)]))
  end.

(** The path the step is worked on under: the renamed path when the file
    existed at the old revision and a rename is reported. *)
Definition resolveFile (h : Host) (oldSha newSha : string) (step : WalkthroughStep)
  : string :=
  if fileExistsAtCommit h oldSha (file step) then
    match getFileRenames h oldSha newSha (file step) with
    | Some renamed => if truthy (Some renamed) then renamed else file step
    | None => file step
    end
  else file step.

(** [{ ...step, file: currentFile, lines: [clampedStart, clampedEnd],
      contentHash: remappedHash }]. *)
Definition remappedStep (step : WalkthroughStep) (currentFile : string)
  (clamped : Z * Z) (remappedHash : string) : WalkthroughStep :=
  mkStep currentFile clamped (symbol step) (Some remappedHash) (subtitle step)
         (duration step).

(** [{ ...step, file: currentFile, contentHash: currentHash }]. *)
Definition rehashedStep (step : WalkthroughStep) (currentFile : string)
  (currentHash : string) : WalkthroughStep :=
  mkStep currentFile (lines step) (symbol step) (Some currentHash) (subtitle step)
         (duration step).

(** One iteration of [for (const step of walkthrough.steps)]. Only the
    opening of the document is guarded by a [try]; a throw of [doc.lineAt]
    leaves the function. *)
Definition repairStep (h : Host) (rootPath oldSha newSha : string)
  (step : WalkthroughStep) (st : RepairState) : Result RepairState :=
  let currentFile := resolveFile h oldSha newSha step in
  let currentFilePath := pathResolve h rootPath currentFile in
  match openTextDocument h currentFilePath with
  | Throw => Ok (pushUnresolvable step st)
  | Ok doc =>
      let endLine := Z.min (lineCount doc - 1) (snd (lines step) - 1) in
      match lineAt doc endLine with
      | Throw => Throw
      | Ok text =>
          let currentContent :=
            getText h doc
              (mkRange (Z.max 0 (fst (lines step) - 1)) 0 endLine
                       (Z.of_nat (String.length text))) in
          let currentHash := Staleness.hash12 h currentContent in
          if Staleness.sameHash currentHash (contentHash step)
             && String.eqb currentFile (file step)
          then Ok (keepStep step st)
          else
            let cacheKey := currentFile in
            let '(mappings, st1) :=
              cachedMappings h oldSha newSha cacheKey (file step) st in
            match mappings with
            | _ :: _ =>
                let remapped :=
                  remapLineRange (fst (lines step)) (snd (lines step)) mappings in
                let clamped := clampRange (lineCount doc) remapped in
                match lineAt doc (snd clamped - 1) with
                | Throw => Throw
                | Ok text' =>
                    let remappedContent :=
                      getText h doc
                        (mkRange (fst clamped - 1) 0 (snd clamped - 1)
                                 (Z.of_nat (String.length text'))) in
                    let remappedHash := Staleness.hash12 h remappedContent in
                    Ok (pushFixed (remappedStep step currentFile clamped remappedHash) st1)
                end
            | [] =>
                Ok (pushUnresolvable (rehashedStep step currentFile currentHash) st1)
            end
      end
  end.

Fixpoint repairLoop (h : Host) (rootPath oldSha newSha : string)
  (steps : list WalkthroughStep) (st : RepairState) : Result RepairState :=
  match steps with
  | [] => Ok st
  | step :: rest =>
      match repairStep h rootPath oldSha newSha step st with
      | Ok st' => repairLoop h rootPath oldSha newSha rest st'
      | Throw => Throw
      end
  end.

(** The early answers of [repairWalkthrough] that hand the input back. *)
Definition failed (w : Walkthrough) : RepairResult :=
  mkRepairResult false 0 (length (steps w)) w.

Definition nothingToDo (w : Walkthrough) : RepairResult :=
  mkRepairResult true 0 0 w.

(** The answer after the loop: [{ ...walkthrough, commitSha: newSha,
    steps: repairedSteps }] and the counters. *)
Definition finish (w : Walkthrough) (newSha : string) (st : RepairState) : RepairResult :=
  mkRepairResult
    ((0 <? fixedCount st)%nat || (unresolvableCount st =? 0)%nat)
    (fixedCount st) (unresolvableCount st)
    (mkWalkthrough (title w) (description w) (Some newSha) (repairedSteps st)).

(** [repairWalkthrough], with the final loop state kept beside the answer
    when the loop was run. *)
Definition repairWalkthroughRun (h : Host) (walkthroughFile : WalkthroughFile)
  : Result (RepairResult * option RepairState) :=
  let w := Types.walkthrough walkthroughFile in
  let oldSha := commitSha w in
  let newSha := getHeadSha h in
  if negb (truthy oldSha) || negb (truthy newSha) then Ok (failed w, None)
  else
    match oldSha, newSha with
    | Some o, Some n =>
        if String.eqb o n then Ok (nothingToDo w, None)
        else
          match workspaceFolders h with
          | None => Ok (failed w, None)
          | Some [] => Throw
          | Some (rootPath :: _) =>
              match repairLoop h rootPath o n (steps w) initialState with
              | Ok st => Ok (finish w n st, Some st)
              | Throw => Throw
              end
          end
    | _, _ => Ok (failed w, None)
    end.

Definition repairWalkthrough (h : Host) (walkthroughFile : WalkthroughFile)
  : Result RepairResult :=
  match repairWalkthroughRun h walkthroughFile with
  | Ok (r, _) => Ok r
  | Throw => Throw
  end.

(** What the loop has done to the cache so far: every key of a recorded
    diff call is in the cache, and no key was asked for twice. *)
Definition cacheInvariant (st : RepairState) : Prop :=
  NoDup (map fst (diffCalls st))
  /\ forall key, key ∈ map fst (diffCalls st) -> is_Some (mappingsCache st !! key).

End Repair.

(** ** loader.ts: validation of parsed walkthrough files *)

Module Loader.

(** A value as [JSON.parse] returns it. The validator only looks at the
    type of a number, never at its value; integers stand for numbers. *)
Inductive JSON : Type :=
| JNull
| JBool (b : bool)
| JNumber (n : Z)
| JString (s : string)
| JArray (items : list JSON)
| JObject (props : list (string * JSON)).

(** The own property [key] of a parsed object: the last binding of a
    repeated key wins, as in [JSON.parse]. *)
Fixpoint getProp (key : string) (props : list (string * JSON)) : option JSON :=
  match props with
  | [] => None
  | (k, v) :: rest =>
      match getProp key rest with
      | Some v' => Some v'
      | None => if String.eqb k key then Some v else None
      end
  end.

(** [s.key] after [const s = step as Record<string, unknown>]; a parsed
    array has no property named [file], [lines], [subtitle], [title],
    [description] or [steps]. *)
Definition prop (v : JSON) (key : string) : option JSON :=
  match v with
  | JObject props => getProp key props
  | _ => None
  end.

(** [typeof v === "object" && v !== null]. *)
Definition isObject (v : JSON) : bool :=
  match v with
  | JObject _ | JArray _ => true
  | _ => false
  end.

(** [typeof v === "string"], for a property that may be absent. *)
Definition isString (v : option JSON) : bool :=
  match v with
  | Some (JString _) => true
  | _ => false
  end.

(** [typeof v === "number"]. *)
Definition isNumber (v : option JSON) : bool :=
  match v with
  | Some (JNumber _) => true
  | _ => false
  end.

(** The elements of [v] when [Array.isArray(v)]. *)
Definition asArray (v : option JSON) : option (list JSON) :=
  match v with
  | Some (JArray items) => Some items
  | _ => None
  end.

Definition isValidStep (step : JSON) : bool :=
  if negb (isObject step) then false
  else
    isString (prop step "file")
    && match asArray (prop step "lines") with
       | Some items =>
           (length items =? 2)%nat
           && isNumber (items !! 0%nat)
           && isNumber (items !! 1%nat)
       | None => false
       end
    && isString (prop step "subtitle").

Definition isValidWalkthrough (data : JSON) : bool :=
  if negb (isObject data) then false
  else
    isString (prop data "title")
    && isString (prop data "description")
    && match asArray (prop data "steps") with
       | Some items => (0 <? length items)%nat && forallb isValidStep items
       | None => false
       end.

(** The line range a valid step object carries, read as the typed
    [WalkthroughStep] reads it. *)
Definition stepLines (step : JSON) : option (Z * Z) :=
  match asArray (prop step "lines") with
  | Some [JNumber a; JNumber b] => Some (a, b)
  | _ => None
  end.

(** The data model's invariant on a line range: 1-indexed and ordered. *)
Definition lineRangeInvariant (range : Z * Z) : Prop :=
  1 <= fst range /\ fst range <= snd range.

(** A step object with the three fields the validator asks for, and a
    walkthrough object around a list of steps. *)
Definition stepObject (file : string) (first last : Z) (subtitle : string) : JSON :=
  JObject [("file", JString file);
           ("lines", JArray [JNumber first; JNumber last]);
           ("subtitle", JString subtitle)].

Definition walkthroughObject (title description : string) (steps : list JSON) : JSON :=
  JObject [("title", JString title);
           ("description", JString description);
           ("steps", JArray steps)].

End Loader.

(** ** Concrete hosts, used to run the definitions *)

Module Examples.
Import Git Types Editor GitOracle.

Definition lineFeed : string := String (ascii_of_nat 10) EmptyString.

Definition tenLines : list string :=
  ["l1"; "l2"; "l3"; "l4"; "l5"; "l6"; "l7"; "l8"; "l9"; "l10"].

(** A stand-in for [doc.getText]: the whole lines between the two line
    numbers of the range, joined by line feeds. *)
Definition wholeLines (doc : TextDocument) (r : Range) : string :=
  let lo := Z.to_nat (Z.min (rangeStartLine r) (rangeEndLine r)) in
  let hi := Z.to_nat (Z.max (rangeStartLine r) (rangeEndLine r)) in
  String.concat lineFeed (take (S hi - lo) (drop lo (docLines doc))).

(** A host with one workspace folder [/w], head revision [rev2], a
    stand-in hash (the text itself) and the given files, symbols and git
    answers. *)
Definition hostWith
  (folders : option (list string))
  (docs : string -> Result TextDocument)
  (symbols : string -> Result (option (list DocumentSymbol)))
  (existed : string -> string -> bool)
  (renames : string -> Result (list (string * string)))
  (hunks : string -> Result (list LineMapping)) : Host :=
  mkHost folders
         (fun root f => root ++ "/" ++ f)
         docs
         wholeLines
         (fun s => s)
         symbols
         (fun _ => Ok "rev2")
         (fun _ sha p => existed sha p)
         (fun _ _ _ p => renames p)
         (fun _ _ _ p => hunks p).

Definition docA : TextDocument := mkDocument "file:///w/a.ts" tenLines.

Definition onlyA (p : string) : Result TextDocument :=
  if String.eqb p "/w/a.ts" then Ok docA else Throw.

Definition noSymbols (_ : string) : Result (option (list DocumentSymbol)) :=
  Ok None.

(** Three lines were added at the top of [a.ts] between [rev1] and [rev2];
    the working copy of [a.ts] has ten lines. *)
Definition shiftedHost : Host :=
  hostWith (Some ["/w"]) onlyA noSymbols (fun _ _ => false) (fun _ => Ok [])
           (fun p => if String.eqb p "a.ts" then Ok [mkLineMapping 0 0 1 3] else Ok []).

Definition stepLate : WalkthroughStep :=
  mkStep "a.ts" (15, 18) None (Some "abc123") "late lines" None.

Definition tourLate : WalkthroughFile :=
  mkWalkthroughFile "/w/.walkthrough/late.json"
    (mkWalkthrough "Late" "A step near the old end of the file" (Some "rev1") [stepLate]).

(** A workspace that is open with no folder in it. *)
Definition emptyWorkspaceHost : Host :=
  hostWith (Some []) onlyA noSymbols (fun _ _ => false) (fun _ => Ok []) (fun _ => Ok []).

(** A walkthrough recorded at the current head revision. *)
Definition tourAtHead : WalkthroughFile :=
  mkWalkthroughFile "/w/.walkthrough/head.json"
    (mkWalkthrough "Head" "Recorded at the head revision" (Some "rev2") [stepLate]).

(** [old.ts] was renamed to [new.ts] between [rev1] and [rev2]. Limited to
    the old path the diff is one deletion hunk; limited to the new path it
    is one insertion hunk. *)
Definition docNew : TextDocument := mkDocument "file:///w/new.ts" tenLines.

Definition renamedHost : Host :=
  hostWith (Some ["/w"])
           (fun p => if String.eqb p "/w/new.ts" then Ok docNew else Throw)
           noSymbols
           (fun sha p => String.eqb sha "rev1" && String.eqb p "old.ts")
           (fun p => if String.eqb p "old.ts" then Ok [("old.ts", "new.ts")] else Ok [])
           (fun p => if String.eqb p "old.ts" then Ok [mkLineMapping 1 10 0 0]
                     else if String.eqb p "new.ts" then Ok [mkLineMapping 0 0 1 10]
                     else Ok []).

Definition stepOld : WalkthroughStep :=
  mkStep "old.ts" (5, 7) None (Some "abc123") "before the rename" None.

Definition stepNew : WalkthroughStep :=
  mkStep "new.ts" (2, 3) None (Some "abc123") "after the rename" None.

Definition tourRenamed : WalkthroughFile :=
  mkWalkthroughFile "/w/.walkthrough/renamed.json"
    (mkWalkthrough "Renamed" "Steps on a renamed file" (Some "rev1") [stepOld; stepNew]).

(** A file whose declarations are [outer] (line 2, with the nested [target]
    at line 4) and a second top-level [target] at line 8. *)
Definition forest : list DocumentSymbol :=
  [mkSymbol "outer" 2 [mkSymbol "inner" 3 []; mkSymbol "target" 4 []];
   mkSymbol "target" 8 []].

Definition symbolHost : Host :=
  hostWith (Some ["/w"]) onlyA (fun _ => Ok (Some forest)) (fun _ _ => false)
           (fun _ => Ok []) (fun _ => Ok []).

Definition stepTarget : WalkthroughStep :=
  mkStep "a.ts" (1, 3) (Some "target") (Some "abc123") "the target" None.

Definition stepAbsent : WalkthroughStep :=
  mkStep "a.ts" (1, 3) (Some "nowhere") (Some "abc123") "no such symbol" None.

(** A step recorded without a content hash. *)
Definition stepNoHash : WalkthroughStep :=
  mkStep "a.ts" (2, 3) None None "no fingerprint" None.

(** A step whose stored hash is the text of its lines under the stand-in
    hash (cut to twelve characters). *)
Definition stepMatching : WalkthroughStep :=
  mkStep "a.ts" (2, 3) None (Some ("l2" ++ lineFeed ++ "l3")) "unchanged lines" None.

End Examples.

(** ** git.ts: [parseHunkHeaders] *)

Module HunkHeaders.
Import Git.

(** [\d]: an ASCII digit; its value. *)
Definition isDigit (c : ascii) : bool :=
  (48 <=? nat_of_ascii c)%nat && (nat_of_ascii c <=? 57)%nat.

Definition digitValue (c : ascii) : Z := Z.of_nat (nat_of_ascii c - 48).

(** The rest of a greedy [\d+] and the [parseInt(_, 10)] of what it took,
    given the value of the digits read so far. *)
Fixpoint digitsFrom (value : Z) (s : string) : Z * string :=
  match s with
  | String c rest =>
      if isDigit c then digitsFrom (10 * value + digitValue c) rest else (value, s)
  | EmptyString => (value, s)
  end.

(** [(\d+)]: at least one digit. *)
Definition number (s : string) : option (Z * string) :=
  match s with
  | String c rest => if isDigit c then Some (digitsFrom (digitValue c) rest) else None
  | EmptyString => None
  end.

(** [(?:,(\d+))?]: a comma and a number, or nothing. *)
Definition optionalCount (s : string) : option Z * string :=
  match s with
  | String c rest =>
      if Ascii.eqb c ","
      then match number rest with
           | Some (count, rest') => (Some count, rest')
           | None => (None, s)
           end
      else (None, s)
  | EmptyString => (None, s)
  end.

(** A literal piece of the pattern: what follows it, when it is there. *)
Fixpoint literal (expected s : string) : option string :=
  match expected with
  | EmptyString => Some s
  | String e expected' =>
      match s with
      | String c s' => if Ascii.eqb c e then literal expected' s' else None
      | EmptyString => None
      end
  end.

(** One match of [@@ -(\d+)(?:,(\d+))? \+(\d+)(?:,(\d+))? @@] at the start
    of [s], read as the loop body reads it: an absent count is 1. No piece
    of the pattern can be matched in two ways, so the matcher never has to
    go back. *)
Definition matchHunkHeader (s : string) : option LineMapping :=
  match literal "@@ -" s with
  | None => None
  | Some s1 =>
      match number s1 with
      | None => None
      | Some (oldStart_, s2) =>
          let '(oldCount_, s3) := optionalCount s2 in
          match literal " +" s3 with
          | None => None
          | Some s4 =>
              match number s4 with
              | None => None
              | Some (newStart_, s5) =>
                  let '(newCount_, s6) := optionalCount s5 in
                  match literal " @@" s6 with
                  | None => None
                  | Some _ =>
                      Some (mkLineMapping oldStart_
                              (match oldCount_ with Some n => n | None => 1 end)
                              newStart_
                              (match newCount_ with Some n => n | None => 1 end))
                  end
              end
          end
      end
  end.

(** Where [^] matches under the [m] flag: at the start of the text and
    after a line terminator. The text is read as UTF-8 bytes: line feed,
    carriage return, and the three-byte forms of U+2028 and U+2029. *)
Inductive ScanState : Type :=
| AtLineStart
| InLine
| AfterE2
| AfterE280.

Definition nextState (st : ScanState) (c : ascii) : ScanState :=
  let n := nat_of_ascii c in
  if (n =? 10)%nat || (n =? 13)%nat then AtLineStart
  else if (n =? 226)%nat then AfterE2
  else match st with
       | AfterE2 => if (n =? 128)%nat then AfterE280 else InLine
       | AfterE280 => if (n =? 168)%nat || (n =? 169)%nat then AtLineStart else InLine
       | _ => InLine
       end.

(** The [while ((match = hunkRegex.exec(diffOutput)) !== null)] loop: the
    matches in text order. A match holds no line terminator, so the next
    match starts on a later line, and scanning on from the next character
    finds the same matches as scanning on from the end of the match. *)
Fixpoint scanHeaders (st : ScanState) (s : string) : list LineMapping :=
  match s with
  | EmptyString => []
  | String c rest =>
      match st, matchHunkHeader s with
      | AtLineStart, Some mapping => mapping :: scanHeaders (nextState st c) rest
      | _, _ => scanHeaders (nextState st c) rest
      end
  end.

Definition parseHunkHeaders (diffOutput : string) : list LineMapping :=
  scanHeaders AtLineStart diffOutput.

(** The text of a hunk header as a unified diff prints it: each side is the
    start line, and the count after a comma unless it is left out. *)
Definition sideText (start count : Z) (withCount : bool) : string :=
  (Staleness.showZ start
     ++ (if withCount then "," ++ Staleness.showZ count else ""))%string.

Definition headerText (hunk : LineMapping) (withOldCount withNewCount : bool) : string :=
  ("@@ -" ++ sideText (oldStart hunk) (oldCount hunk) withOldCount
     ++ " +" ++ sideText (newStart hunk) (newCount hunk) withNewCount
     ++ " @@")%string.

(** A line of text holds none of the bytes that can end a line. *)
Definition plainChar (c : ascii) : bool :=
  negb ((nat_of_ascii c =? 10)%nat || (nat_of_ascii c =? 13)%nat
        || (nat_of_ascii c =? 226)%nat).

Fixpoint plainLine (s : string) : bool :=
  match s with
  | EmptyString => true
  | String c rest => plainChar c && plainLine rest
  end.

(** Whether a text begins with one of the line terminators of the regular
    expression: line feed, carriage return, or the UTF-8 form of U+2028 or
    U+2029 (bytes 226 128 168 and 226 128 169). *)
Definition atTerminator (s : string) : bool :=
  match s with
  | String c rest =>
      (nat_of_ascii c =? 10)%nat || (nat_of_ascii c =? 13)%nat
      || ((nat_of_ascii c =? 226)%nat
          && match rest with
             | String c2 (String c3 _) =>
                 (nat_of_ascii c2 =? 128)%nat
                 && ((nat_of_ascii c3 =? 168)%nat || (nat_of_ascii c3 =? 169)%nat)
             | _ => false
             end)
  | EmptyString => false
  end.

(** A text with no line terminator anywhere in it; any other character,
    inside or outside ASCII, may occur. *)
Fixpoint oneLine (s : string) : bool :=
  match s with
  | EmptyString => true
  | String c rest => negb (atTerminator s) && oneLine rest
  end.

(** After the first byte, or the first two bytes, of a three-byte
    character: the text does not go on to complete U+2028 or U+2029. *)
Definition pending (st : ScanState) (s : string) : bool :=
  match st with
  | AfterE2 =>
      match s with
      | String c2 (String c3 _) =>
          negb ((nat_of_ascii c2 =? 128)%nat
                && ((nat_of_ascii c3 =? 168)%nat || (nat_of_ascii c3 =? 169)%nat))
      | _ => true
      end
  | AfterE280 =>
      match s with
      | String c3 _ => negb ((nat_of_ascii c3 =? 168)%nat || (nat_of_ascii c3 =? 169)%nat)
      | EmptyString => true
      end
  | _ => true
  end.

Definition unlines (textLines : list string) : string :=
  fold_right (fun line text => (line ++ Examples.lineFeed ++ text)%string) EmptyString
             textLines.

Definition naturalHunk (hunk : LineMapping) : Prop :=
  0 <= oldStart hunk /\ 0 <= oldCount hunk /\ 0 <= newStart hunk /\ 0 <= newCount hunk.

(** A text that does not go on with a digit. *)
Definition noDigitAhead (s : string) : Prop :=
  match s with
  | String c _ => isDigit c = false
  | EmptyString => True
  end.

End HunkHeaders.

(** ** Diff text, line by line *)

Module DiffText.
Import Git HunkHeaders.

(** A line of a zero-context diff: a hunk header, followed on the same line
    by the section heading git copies there, or any other line. *)
Inductive DiffLine : Type :=
| HeaderLine (hunk : LineMapping) (withOldCount withNewCount : bool) (section : string)
| OtherLine (text : string).

Definition lineText (line : DiffLine) : string :=
  match line with
  | HeaderLine hunk withOldCount withNewCount section =>
      (headerText hunk withOldCount withNewCount ++ section)%string
  | OtherLine text => text
  end.

Definition lineHunk (line : DiffLine) : option LineMapping :=
  match line with
  | HeaderLine hunk _ _ _ => Some hunk
  | OtherLine _ => None
  end.

(** A header line prints natural numbers and leaves a count out only when
    it is 1; any other line does not start with an at sign. A line is one
    line: the section text and the other lines hold no line terminator. *)
Definition wellFormedLine (line : DiffLine) : Prop :=
  match line with
  | HeaderLine hunk withOldCount withNewCount section =>
      naturalHunk hunk
      /\ (withOldCount = false -> oldCount hunk = 1)
      /\ (withNewCount = false -> newCount hunk = 1)
      /\ oneLine section = true
  | OtherLine text =>
      oneLine text = true
      /\ match text with
         | String c _ => c <> "@"%char
         | EmptyString => True
         end
  end.

(** An em dash (U+2014, bytes 226 128 148) and a line separator's first
    two bytes followed by another byte: text outside ASCII that ends no
    line. *)
Definition emDash : string :=
  String (ascii_of_nat 226) (String (ascii_of_nat 128) (String (ascii_of_nat 148) "")).

Definition dashDiff : list DiffLine :=
  [OtherLine "diff --git a/a.md b/a.md";
   HeaderLine (mkLineMapping 3 0 4 2) true true (" Notes " ++ emDash ++ " part one");
   OtherLine ("+added " ++ emDash ++ emDash ++ " one");
   OtherLine ("+" ++ emDash);
   HeaderLine (mkLineMapping 10 1 12 1) false false "";
   OtherLine ("-old" ++ String (ascii_of_nat 226) (String (ascii_of_nat 128) ""));
   OtherLine "+new"].

Definition exampleDiff : list DiffLine :=
  [OtherLine "diff --git a/a.ts b/a.ts";
   OtherLine "--- a/a.ts";
   OtherLine "+++ b/a.ts";
   HeaderLine (mkLineMapping 3 0 4 2) true true " export function f() {";
   OtherLine "+added one";
   OtherLine "+added two";
   HeaderLine (mkLineMapping 10 1 12 1) false false "";
   OtherLine "-old";
   OtherLine "+new"].

End DiffText.

(** ** Totals over a hunk list *)

Module Hunks.
Import Git.

(** The net growth of a whole diff. *)
Definition totalGrowth (hunks : list LineMapping) : Z :=
  fold_right (fun hunk total => netGrowth hunk + total) 0 hunks.

End Hunks.

(** ** Relations between a step and what the repair makes of it *)

Module Rewritten.
Import Git Types Editor GitOracle.

(** The repair leaves the explanation, the symbol and the duration of a
    step alone. *)
Definition sameAnnotations (before after : WalkthroughStep) : Prop :=
  subtitle after = subtitle before
  /\ symbol after = symbol before
  /\ duration after = duration before.

(** After the repair a step is either fresh for [checkStaleness], at any
    index and under any pair of revisions, or it is the input step and its
    resolved file could not be opened. *)
Definition settled (h : Host) (rootPath oldSha newSha : string)
  (before after : WalkthroughStep) : Prop :=
  (forall revs i, Staleness.stepVerdict h rootPath revs i after = Staleness.freshResult i)
  \/ (after = before
      /\ openTextDocument h
           (pathResolve h rootPath (Repair.resolveFile h oldSha newSha before))
         = Throw).

(** What the staleness loop has done to its cache so far: every path of a
    recorded diff call is in the cache, and no path was asked for twice. *)
Definition staleCacheInvariant (st : Staleness.LoopState) : Prop :=
  NoDup (Staleness.diffCalls st)
  /\ forall path, path ∈ Staleness.diffCalls st ->
       is_Some (Staleness.mappingsCache st !! path).

End Rewritten.

(** ** player/engine.ts: the playback engine *)

Module Player.
Import Types.

Inductive PlaybackState : Type :=
| idle
| playing
| paused.

(** [SPEED_OPTIONS = [0.5, 1, 2, 3]]. *)
Inductive SpeedMultiplier : Type :=
| speedHalf
| speed1
| speed2
| speed3.

Definition SPEED_OPTIONS : list SpeedMultiplier := [speedHalf; speed1; speed2; speed3].

Definition sameSpeed (a b : SpeedMultiplier) : bool :=
  match a, b with
  | speedHalf, speedHalf | speed1, speed1 | speed2, speed2 | speed3, speed3 => true
  | _, _ => false
  end.

Record PlaybackStatus : Type := mkStatus {
  statusState : PlaybackState;
  statusIndex : Z;
  totalSteps : nat;
  currentStep : option WalkthroughStep;
  statusWalkthrough : option Walkthrough;
  statusSpeed : SpeedMultiplier;
}.

(** A timeout set with [setTimeout] and neither fired nor cleared yet: its
    handle, and the two numbers its delay
    [((step.duration ?? defaultDuration) / speed) * 1000] is computed from. *)
Record Timer : Type := mkTimer {
  timerId : nat;
  timerSeconds : Z;
  timerSpeed : SpeedMultiplier;
}.

(** The fields of [PlaybackEngine], the host's queue of pending timeouts
    with the next fresh handle, and the statuses fired on [onChange]. *)
Record PlaybackEngine : Type := mkEngine {
  walkthrough : option Walkthrough;
  currentIndex : Z;
  state : PlaybackState;
  autoAdvanceTimer : option nat;
  speed : SpeedMultiplier;
  pendingTimers : list Timer;
  nextTimer : nat;
  emitted : list PlaybackStatus;
}.

Definition defaultDuration : Z := 8.

Definition newEngine : PlaybackEngine :=
  mkEngine None 0 idle None speed1 [] 0 [].

(** [steps[index]]: [undefined] outside the array. *)
Definition stepAt (w : Walkthrough) (index : Z) : option WalkthroughStep :=
  if index <? 0 then None else steps w !! Z.to_nat index.

Definition stepCount (w : Walkthrough) : Z := Z.of_nat (length (steps w)).

Definition isPlaying (s : PlaybackState) : bool :=
  match s with playing => true | _ => false end.

Definition getStatus (e : PlaybackEngine) : PlaybackStatus :=
  mkStatus (state e) (currentIndex e)
    (match walkthrough e with Some w => length (steps w) | None => 0%nat end)
    (match walkthrough e with Some w => stepAt w (currentIndex e) | None => None end)
    (walkthrough e) (speed e).

Definition emit (e : PlaybackEngine) : PlaybackEngine :=
  mkEngine (walkthrough e) (currentIndex e) (state e) (autoAdvanceTimer e) (speed e)
           (pendingTimers e) (nextTimer e) (emitted e ++ [getStatus e]).

Definition setState (s : PlaybackState) (e : PlaybackEngine) : PlaybackEngine :=
  mkEngine (walkthrough e) (currentIndex e) s (autoAdvanceTimer e) (speed e)
           (pendingTimers e) (nextTimer e) (emitted e).

Definition setIndex (index : Z) (e : PlaybackEngine) : PlaybackEngine :=
  mkEngine (walkthrough e) index (state e) (autoAdvanceTimer e) (speed e)
           (pendingTimers e) (nextTimer e) (emitted e).

Definition setSpeedField (s : SpeedMultiplier) (e : PlaybackEngine) : PlaybackEngine :=
  mkEngine (walkthrough e) (currentIndex e) (state e) (autoAdvanceTimer e) s
           (pendingTimers e) (nextTimer e) (emitted e).

(** [clearTimeout(handle)] on the host's queue, and the handle reset. *)
Definition clearAutoAdvance (e : PlaybackEngine) : PlaybackEngine :=
  match autoAdvanceTimer e with
  | Some handle =>
      mkEngine (walkthrough e) (currentIndex e) (state e) None (speed e)
               (List.filter (fun t => negb (timerId t =? handle)%nat) (pendingTimers e))
               (nextTimer e) (emitted e)
  | None => e
  end.

(** [scheduleAutoAdvance]: reading [step.duration] of a step that is not
    there throws. *)
Definition scheduleAutoAdvance (e : PlaybackEngine) : Result PlaybackEngine :=
  let e1 := clearAutoAdvance e in
  match walkthrough e1 with
  | Some w =>
      if negb (isPlaying (state e1)) then Ok e1
      else
        match stepAt w (currentIndex e1) with
        | None => Throw
        | Some step =>
            let seconds := match duration step with Some d => d | None => defaultDuration end in
            Ok (mkEngine (walkthrough e1) (currentIndex e1) (state e1)
                         (Some (nextTimer e1)) (speed e1)
                         (pendingTimers e1 ++ [mkTimer (nextTimer e1) seconds (speed e1)])
                         (S (nextTimer e1)) (emitted e1))
        end
  | None => Ok e1
  end.

Definition stop (e : PlaybackEngine) : PlaybackEngine :=
  let e1 := clearAutoAdvance e in
  emit (mkEngine None 0 idle (autoAdvanceTimer e1) speed1
                 (pendingTimers e1) (nextTimer e1) (emitted e1)).

Definition load (w : Walkthrough) (e : PlaybackEngine) : PlaybackEngine :=
  let e1 := stop e in
  emit (mkEngine (Some w) 0 paused (autoAdvanceTimer e1) (speed e1)
                 (pendingTimers e1) (nextTimer e1) (emitted e1)).

Definition play (e : PlaybackEngine) : Result PlaybackEngine :=
  match walkthrough e with
  | None => Ok e
  | Some w =>
      if (length (steps w) =? 0)%nat then Ok e
      else scheduleAutoAdvance (emit (setState playing e))
  end.

Definition pause (e : PlaybackEngine) : PlaybackEngine :=
  emit (clearAutoAdvance (setState paused e)).

Definition togglePlayback (e : PlaybackEngine) : Result PlaybackEngine :=
  match state e with
  | playing => Ok (pause e)
  | paused => play e
  | idle => Ok e
  end.

(** After a change of position: [this.emit()] and, when playing, a new
    timeout. *)
Definition moved (e : PlaybackEngine) : Result PlaybackEngine :=
  let e1 := emit e in
  if isPlaying (state e1) then scheduleAutoAdvance e1 else Ok e1.

Definition next (e : PlaybackEngine) : Result (bool * PlaybackEngine) :=
  match walkthrough e with
  | None => Ok (false, e)
  | Some w =>
      if currentIndex e >=? stepCount w - 1 then Ok (false, pause e)
      else
        match moved (setIndex (currentIndex e + 1) e) with
        | Ok e' => Ok (true, e')
        | Throw => Throw
        end
  end.

Definition prev (e : PlaybackEngine) : Result (bool * PlaybackEngine) :=
  match walkthrough e with
  | None => Ok (false, e)
  | Some w =>
      if currentIndex e <=? 0 then Ok (false, e)
      else
        match moved (setIndex (currentIndex e - 1) e) with
        | Ok e' => Ok (true, e')
        | Throw => Throw
        end
  end.

Definition goTo (index : Z) (e : PlaybackEngine) : Result PlaybackEngine :=
  match walkthrough e with
  | None => Ok e
  | Some w =>
      if (index <? 0) || (index >=? stepCount w) then Ok e
      else moved (setIndex index e)
  end.

Definition setSpeed (s : SpeedMultiplier) (e : PlaybackEngine) : Result PlaybackEngine :=
  moved (setSpeedField s e).

(** [SPEED_OPTIONS.indexOf(speed)], -1 when it is not there. *)
Fixpoint indexOf (s : SpeedMultiplier) (options : list SpeedMultiplier) (from : Z) : Z :=
  match options with
  | [] => -1
  | o :: rest => if sameSpeed o s then from else indexOf s rest (from + 1)
  end.

Definition cycleSpeed (e : PlaybackEngine) : Result PlaybackEngine :=
  let idx := indexOf (speed e) SPEED_OPTIONS 0 in
  let position := Z.to_nat ((idx + 1) mod Z.of_nat (length SPEED_OPTIONS)) in
  match SPEED_OPTIONS !! position with
  | Some s => setSpeed s e
  | None => Throw
  end.

(** A pending timeout fires: it leaves the queue and its callback runs
    [this.next()]. *)
Definition timerFires (e : PlaybackEngine) : Result PlaybackEngine :=
  match pendingTimers e with
  | [] => Ok e
  | _ :: others =>
      match next (mkEngine (walkthrough e) (currentIndex e) (state e)
                           (autoAdvanceTimer e) (speed e) others
                           (nextTimer e) (emitted e)) with
      | Ok (_, e') => Ok e'
      | Throw => Throw
      end
  end.

(** What a user, or the clock, can do to the engine. *)
Inductive Command : Type :=
| Load (w : Walkthrough)
| Play
| Pause
| TogglePlayback
| Next
| Prev
| GoTo (index : Z)
| SetSpeed (s : SpeedMultiplier)
| CycleSpeed
| Stop
| TimerFires.

Definition engineOf (r : Result (bool * PlaybackEngine)) : Result PlaybackEngine :=
  match r with
  | Ok (_, e) => Ok e
  | Throw => Throw
  end.

Definition perform (c : Command) (e : PlaybackEngine) : Result PlaybackEngine :=
  match c with
  | Load w => Ok (load w e)
  | Play => play e
  | Pause => Ok (pause e)
  | TogglePlayback => togglePlayback e
  | Next => engineOf (next e)
  | Prev => engineOf (prev e)
  | GoTo index => goTo index e
  | SetSpeed s => setSpeed s e
  | CycleSpeed => cycleSpeed e
  | Stop => Ok (stop e)
  | TimerFires => timerFires e
  end.

Fixpoint performAll (commands : list Command) (e : PlaybackEngine)
  : Result PlaybackEngine :=
  match commands with
  | [] => Ok e
  | c :: rest =>
      match perform c e with
      | Ok e' => performAll rest e'
      | Throw => Throw
      end
  end.

(** The seconds the timer of the current step waits for at speed 1. *)
Definition stepSeconds (step : WalkthroughStep) : Z :=
  match duration step with Some d => d | None => defaultDuration end.

(** The position is 0 without a walkthrough and a step index with one (0
    for an empty one, which is never played); an idle engine has no
    walkthrough, and an engine without one is not playing. *)
Definition positioned (e : PlaybackEngine) : Prop :=
  match walkthrough e with
  | None => currentIndex e = 0 /\ state e <> playing
  | Some w =>
      0 <= currentIndex e
      /\ (currentIndex e < stepCount w
          \/ (currentIndex e = 0 /\ steps w = [] /\ state e <> playing))
      /\ state e <> idle
  end.

(** The queue holds nothing, or one timeout whose handle the engine has. *)
Definition pendingHeld (e : PlaybackEngine) : Prop :=
  pendingTimers e = []
  \/ exists t, pendingTimers e = [t] /\ autoAdvanceTimer e = Some (timerId t).

(** A playing engine has exactly one timeout pending, set for the current
    step at the current speed; any other engine has none. *)
Definition scheduled (e : PlaybackEngine) : Prop :=
  match state e with
  | playing =>
      exists w step handle,
        walkthrough e = Some w
        /\ stepAt w (currentIndex e) = Some step
        /\ autoAdvanceTimer e = Some handle
        /\ pendingTimers e = [mkTimer handle (stepSeconds step) (speed e)]
  | _ => pendingTimers e = []
  end.

(** What holds of the engine between any two commands. *)
Definition wellFormed (e : PlaybackEngine) : Prop :=
  positioned e /\ scheduled e.

Fixpoint repeatCommand (n : nat) (c : Command) : list Command :=
  match n with
  | O => []
  | S n' => c :: repeatCommand n' c
  end.

(** The speed after the current one in [SPEED_OPTIONS], wrapping around. *)
Definition speedAfter (s : SpeedMultiplier) : SpeedMultiplier :=
  match s with
  | speedHalf => speed1
  | speed1 => speed2
  | speed2 => speed3
  | speed3 => speedHalf
  end.

End Player.

(** * Reading a step's lines for an export (export/html.ts, export/markdown.ts) *)

Module Exporter.
Import Types Editor.

Definition newline : string := String (ascii_of_nat 10) EmptyString.

(** [lines.join("\n")]. *)
Fixpoint join (lines : list string) : string :=
  match lines with
  | [] => EmptyString
  | line :: rest =>
      match rest with
      | [] => line
      | _ :: _ => (line ++ newline ++ join rest)%string
      end
  end.

(** The [for] loop of [readLines]: [count] more rounds from line [i], each
    pushing [doc.lineAt(i).text]. *)
Fixpoint pushLines (doc : TextDocument) (i : Z) (count : nat) (lines : list string)
  : Result (list string) :=
  match count with
  | O => Ok lines
  | S count' =>
      match lineAt doc i with
      | Throw => Throw
      | Ok text => pushLines doc (i + 1) count' (lines ++ [text])
      end
  end.

(** [readLines(rootPath, step)]: the text, or [null] when anything in the
    [try] block throws. *)
Definition readLines (h : Host) (rootPath : string) (step : WalkthroughStep)
  : option string :=
  let filePath := pathResolve h rootPath (file step) in
  match openTextDocument h filePath with
  | Throw => None
  | Ok doc =>
      let startLine := Z.max 0 (fst (lines step) - 1) in
      let endLine := Z.min (lineCount doc - 1) (snd (lines step) - 1) in
      match pushLines doc startLine (Z.to_nat (endLine - startLine + 1)) [] with
      | Throw => None
      | Ok textLines => Some (join textLines)
      end
  end.

End Exporter.

(** * Showing a step in the editor (player/highlight.ts) *)

Module Highlight.
Import Types Editor.

(** What [navigateToStep] does to the window, in order. *)
Inductive WindowCall : Type :=
| ShowTextDocument (uri : string)
| RevealRange (range : Range)
| SetDecorations (range : Range)
| ShowWarningMessage (message : string).

(** [navigateToStep(step)]: the document of the editor it returns ([None]
    for [null]) and the calls it made. [canShow] tells whether
    [window.showTextDocument] succeeds on a document. *)
Definition navigateToStep (h : Host) (canShow : TextDocument -> bool)
    (step : WalkthroughStep) : option TextDocument * list WindowCall :=
  match workspaceFolders h with
  | None => (None, [])
  | Some [] => (None, [])
  | Some (rootPath :: _) =>
      let filePath := pathResolve h rootPath (file step) in
      let warning := ShowWarningMessage ("Could not open file: " ++ file step)%string in
      match openTextDocument h filePath with
      | Throw => (None, [warning])
      | Ok doc =>
          let startLine := Z.max 0 (fst (lines step) - 1) in
          let endLine := Z.max startLine (snd (lines step) - 1) in
          if negb (canShow doc) then (None, [warning])
          else
            match lineAt doc endLine with
            | Throw => (None, [ShowTextDocument (docUri doc); warning])
            | Ok text =>
                let range := mkRange startLine 0 endLine (Z.of_nat (String.length text)) in
                (Some doc,
                 [ShowTextDocument (docUri doc); RevealRange range; SetDecorations range])
            end
      end
  end.

End Highlight.

(** * Recording a walkthrough (recorder/recorder.ts) *)

Module Recorder.
Import Editor.

Record RecordedStep : Type := mkRecordedStep {
  file : string;
  lines : Z * Z;
  symbol : string;
  contentHash : string;
  subtitle : string;
}.

Record Recorder : Type := mkRecorder {
  recording : bool;
  steps : list RecordedStep;
  title : string;
  description : string;
}.

(** [editor.selection]: the lines of its [start] and [end]. *)
Record Selection : Type := mkSelection {
  startLine : Z;
  endLine : Z;
}.

(** What [captureStep] asks of the window and of node beyond the [Host]:
    the active editor's document and selection, [path.relative], the name
    [findNearestSymbol] comes back with, and the answer to the subtitle
    input box ([None] when it is dismissed). *)
Record Desk : Type := mkDesk {
  activeTextEditor : option (TextDocument * Selection);
  pathRelative : string -> string -> string;
  findNearestSymbol : TextDocument -> Z -> string;
  showInputBox : option string;
}.

(** [captureStep()]: rejects ([Throw]) on an empty folder list or a
    selection that ends outside the document; otherwise its answer and
    the recorder afterwards. *)
Definition captureStep (h : Host) (d : Desk) (r : Recorder) : Result (bool * Recorder) :=
  if negb (recording r) then Ok (false, r)
  else
    match activeTextEditor d with
    | None => Ok (false, r)
    | Some (doc, selection) =>
        let startLine' := startLine selection + 1 in
        let endLine' := Z.max startLine' (endLine selection + 1) in
        match workspaceFolders h with
        | None => Ok (false, r)
        | Some [] => Throw
        | Some (rootPath :: _) =>
            let relativePath := pathRelative d rootPath (docUri doc) in
            match lineAt doc (endLine selection) with
            | Throw => Throw
            | Ok text =>
                let range := mkRange (startLine selection) 0 (endLine selection)
                                     (Z.of_nat (String.length text)) in
                let lineContent := getText h doc range in
                let contentHash' := substring 0 12 (sha256hex h lineContent) in
                let symbol' := findNearestSymbol d doc (startLine selection) in
                match showInputBox d with
                | None => Ok (false, r)
                | Some subtitle' =>
                    Ok (true,
                        mkRecorder (recording r)
                          (steps r ++ [mkRecordedStep relativePath (startLine', endLine')
                                         symbol' contentHash' subtitle'])
                          (title r) (description r))
                end
            end
        end
    end.

(** The step [save] writes for a recorded one. *)
Definition savedStep (s : RecordedStep) : Types.WalkthroughStep :=
  Types.mkStep (file s) (lines s)
               (if truthy (Some (symbol s)) then Some (symbol s) else None)
               (Some (contentHash s)) (subtitle s) (Some 8).

(** [[^a-z0-9]], on the bytes of the title's UTF-8 form: every byte of a
    character outside ASCII is outside the class, so a run of such
    characters is a run of such bytes. *)
Definition outsideSlug (c : ascii) : bool :=
  let n := nat_of_ascii c in
  negb (((97 <=? n) && (n <=? 122)) || ((48 <=? n) && (n <=? 57)))%nat.

Definition dash : ascii := ascii_of_nat 45.

(** [.replace(/[^a-z0-9]+/g, "-")]: every maximal run of other characters
    becomes one dash; [inRun] tells that the run has begun. *)
Fixpoint dashRuns (inRun : bool) (text : string) : string :=
  match text with
  | EmptyString => EmptyString
  | String c rest =>
      if outsideSlug c
      then if inRun then dashRuns true rest else String dash (dashRuns true rest)
      else String c (dashRuns false rest)
  end.

(** [.replace(/^-|-$/g, "")]: a dash at the very start and a dash at the
    very end go. *)
Definition dropLeadingDash (text : string) : string :=
  match text with
  | String c rest => if Ascii.eqb c dash then rest else text
  | EmptyString => EmptyString
  end.

Fixpoint dropTrailingDash (text : string) : string :=
  match text with
  | EmptyString => EmptyString
  | String c rest =>
      match rest with
      | EmptyString => if Ascii.eqb c dash then EmptyString else text
      | String _ _ => String c (dropTrailingDash rest)
      end
  end.

(** The file name stem [save] makes of the title; [toLowerCase] is the
    string method, whatever it does to letters outside ASCII. *)
Definition slug (toLowerCase : string -> string) (title' : string) : string :=
  dropTrailingDash (dropLeadingDash (dashRuns false (toLowerCase title'))).

(** Only lower-case letters, digits and dashes. *)
Fixpoint slugText (text : string) : bool :=
  match text with
  | EmptyString => true
  | String c rest => (negb (outsideSlug c) || Ascii.eqb c dash) && slugText rest
  end.

Definition startsWithDash (text : string) : bool :=
  match text with
  | String c _ => Ascii.eqb c dash
  | EmptyString => false
  end.

Fixpoint endsWithDash (text : string) : bool :=
  match text with
  | EmptyString => false
  | String c rest =>
      match rest with
      | EmptyString => Ascii.eqb c dash
      | String _ _ => endsWithDash rest
      end
  end.

(** Two dashes in a row somewhere. *)
Fixpoint doubleDash (text : string) : bool :=
  match text with
  | EmptyString => false
  | String c rest => (Ascii.eqb c dash && startsWithDash rest) || doubleDash rest
  end.

(** No letter or digit at all. *)
Fixpoint onlyOutside (text : string) : bool :=
  match text with
  | EmptyString => true
  | String c rest => outsideSlug c && onlyOutside rest
  end.

End Recorder.

(** * Escaping text for the exported page (export/html.ts, ui/panel.ts) *)

Module Html.

(** [text.replace(/c/g, replacement)] for a one-character pattern. *)
Fixpoint replaceAll (c : ascii) (replacement : string) (text : string) : string :=
  match text with
  | EmptyString => EmptyString
  | String x rest =>
      if Ascii.eqb x c then (replacement ++ replaceAll c replacement rest)%string
      else String x (replaceAll c replacement rest)
  end.

Definition ampersand : ascii := ascii_of_nat 38.
Definition lessThan : ascii := ascii_of_nat 60.
Definition greaterThan : ascii := ascii_of_nat 62.
Definition doubleQuote : ascii := ascii_of_nat 34.

Definition escapeHtml (text : string) : string :=
  replaceAll doubleQuote "&quot;"
    (replaceAll greaterThan "&gt;"
       (replaceAll lessThan "&lt;"
          (replaceAll ampersand "&amp;" text))).

(** What one character of the text becomes. *)
Definition entity (c : ascii) : string :=
  if Ascii.eqb c ampersand then "&amp;"
  else if Ascii.eqb c lessThan then "&lt;"
  else if Ascii.eqb c greaterThan then "&gt;"
  else if Ascii.eqb c doubleQuote then "&quot;"
  else String c EmptyString.

Fixpoint entities (text : string) : string :=
  match text with
  | EmptyString => EmptyString
  | String c rest => (entity c ++ entities rest)%string
  end.

Fixpoint occurs (c : ascii) (text : string) : bool :=
  match text with
  | EmptyString => false
  | String x rest => Ascii.eqb x c || occurs c rest
  end.

End Html.

(** * The repair loop, step by step *)

Module Account.
Import Git Types Editor GitOracle.









End Account.

(** * Two more repositories *)

Module Scenarios.
Import Git Types Editor GitOracle Examples.










End Scenarios.

(** * Properties *)

Import Git Types Editor GitOracle.

Local Open Scope list_scope.

(** ** The remapper *)

Section Remap.
Variables start_ end_ : Z.

Lemma remapLoop_offset (hunks : list LineMapping) (offset : Z) :
  remapLoop start_ end_ offset hunks = offset + remapLoop start_ end_ 0 hunks.
Proof.
  revert offset. induction hunks as [|hunk rest IH]; intros offset; simpl.
  - lia.
  - destruct (oldStart hunk + oldCount hunk <=? start_).
    + rewrite (IH (offset + _)), (IH (0 + _)). lia.
    + destruct (oldStart hunk >? end_).
      * lia.
      * rewrite (IH (offset + _)), (IH (0 + _)). lia.
Qed.

Lemma remapLoop_accumulates (hunks : list LineMapping) :
  Accumulates start_ end_ hunks (remapLoop start_ end_ 0 hunks).
Proof.
  induction hunks as [|hunk rest IH]; simpl.
  - constructor.
  - destruct (Z.leb_spec (oldStart hunk + oldCount hunk) start_) as [Hb|Hb].
    + rewrite remapLoop_offset.
      replace (0 + (newCount hunk - oldCount hunk) + remapLoop start_ end_ 0 rest)
        with ((newCount hunk - oldCount hunk) + remapLoop start_ end_ 0 rest) by lia.
      now apply acc_before.
    + destruct (Z.gtb_spec (oldStart hunk) end_) as [Ha|Ha].
      * apply acc_stop; lia.
      * rewrite remapLoop_offset.
        replace (0 + (newCount hunk - oldCount hunk) + remapLoop start_ end_ 0 rest)
          with ((newCount hunk - oldCount hunk) + remapLoop start_ end_ 0 rest) by lia.
        apply acc_overlap; [lia | lia | assumption].
Qed.

Lemma Accumulates_functional (hunks : list LineMapping) (o1 o2 : Z) :
  Accumulates start_ end_ hunks o1 -> Accumulates start_ end_ hunks o2 -> o1 = o2.
Proof.
  intros H1. revert o2.
  induction H1 as [|hunk rest o Hb _ IH|hunk rest Hb Ha|hunk rest o Hb Ha _ IH];
    intros o2 H2; inversion H2; subst; try lia; try reflexivity.
  - f_equal. now apply IH.
  - f_equal. now apply IH.
Qed.

(** For hunks in ascending order with non-negative old counts and a range
    with [start_ <= end_], the loop adds up the net growth of exactly the
    hunks that start at or before the range's end. *)
Lemma remapLoop_growthUpTo (hunks : list LineMapping) :
  start_ <= end_ ->
  ascending hunks ->
  Forall (fun hunk => 0 <= oldCount hunk) hunks ->
  remapLoop start_ end_ 0 hunks = growthUpTo end_ hunks.
Proof.
  intros Hrange Hsorted Hcount.
  apply Sorted_StronglySorted in Hsorted; [|intros a b c; lia].
  unfold growthUpTo.
  induction hunks as [|hunk rest IH]; simpl; [reflexivity|].
  apply StronglySorted_inv in Hsorted as [Hrest Hle].
  apply Forall_cons_1 in Hcount as [Hc Hcount].
  destruct (Z.leb_spec (oldStart hunk + oldCount hunk) start_) as [Hb|Hb].
  - destruct (Z.leb_spec (oldStart hunk) end_); [|lia].
    simpl. rewrite remapLoop_offset, IH by assumption. unfold netGrowth. lia.
  - destruct (Z.gtb_spec (oldStart hunk) end_) as [Ha|Ha].
    + destruct (Z.leb_spec (oldStart hunk) end_); [lia|].
      assert (Hnone : List.filter (fun hunk0 => oldStart hunk0 <=? end_) rest = []).
      { clear IH Hrest Hcount. induction rest as [|r rest IH]; simpl; [reflexivity|].
        apply Forall_cons_1 in Hle as [Hr Hle].
        destruct (Z.leb_spec (oldStart r) end_); [lia|]. now apply IH. }
      now rewrite Hnone.
    + destruct (Z.leb_spec (oldStart hunk) end_); [|lia].
      simpl. rewrite remapLoop_offset, IH by assumption. unfold netGrowth. lia.
Qed.

End Remap.

(** A hunk that starts after the end of a range with [start_ <= end_], and
    whose old count is not negative, does not end at or before the range's
    start: the first two accumulation rules never both apply to it. *)
Lemma startsAfter_not_endsBefore (start_ end_ : Z) (hunk : LineMapping) :
  start_ <= end_ ->
  0 <= oldCount hunk ->
  end_ < oldStart hunk ->
  start_ < oldStart hunk + oldCount hunk.
Proof. lia. Qed.

(** C1. For a range with [start_ <= end_] and hunks in ascending order of
    [oldStart], [remapLineRange] answers [(start_ + offset, end_ + offset)]
    for the one offset that the accumulation rules determine: hunks ending
    at or before the start add their net growth, the first hunk starting
    after the end stops the accumulation, every other hunk adds its net
    growth. When the old counts are non-negative this offset is the total
    net growth of the hunks that start at or before the range's end. For
    the hunk [{10, 2, 10, 5}], (20,22) maps to (23,25) and (1,3) to (1,3). *)
Theorem remapLineRange_accumulated_offset :
  (forall (start_ end_ : Z) (hunks : list LineMapping),
      start_ <= end_ ->
      ascending hunks ->
      exists offset : Z,
        Accumulates start_ end_ hunks offset
        /\ (forall o, Accumulates start_ end_ hunks o -> o = offset)
        /\ remapLineRange start_ end_ hunks = (start_ + offset, end_ + offset)
        /\ (Forall (fun hunk => 0 <= oldCount hunk) hunks ->
            offset = growthUpTo end_ hunks))
  /\ remapLineRange 20 22 [exampleHunk] = (23, 25)
  /\ remapLineRange 1 3 [exampleHunk] = (1, 3).
Proof.
  split; [|split; reflexivity].
  intros start_ end_ hunks Hrange Hsorted.
  exists (remapLoop start_ end_ 0 hunks).
  split; [apply remapLoop_accumulates|].
  split.
  - intros o Ho. eapply Accumulates_functional; [exact Ho|apply remapLoop_accumulates].
  - split; [reflexivity|].
    intros Hcount. now apply remapLoop_growthUpTo.
Qed.

Lemma remapLineRange_accumulated_offset_witness :
  1 <= 3 /\ ascending [exampleHunk]
  /\ exists offset : Z,
       Accumulates 1 3 [exampleHunk] offset
       /\ (forall o, Accumulates 1 3 [exampleHunk] o -> o = offset)
       /\ remapLineRange 1 3 [exampleHunk] = (1 + offset, 3 + offset)
       /\ (Forall (fun hunk => 0 <= oldCount hunk) [exampleHunk] ->
           offset = growthUpTo 3 [exampleHunk]).
Proof.
  assert (Hrange : 1 <= 3) by lia.
  assert (Hsorted : ascending [exampleHunk]) by (repeat constructor).
  split; [exact Hrange|]. split; [exact Hsorted|].
  exact (proj1 remapLineRange_accumulated_offset 1 3 [exampleHunk] Hrange Hsorted).
Defined.


(** ** The clamping of a remapped range *)

Import Examples.

(** What the two clamping lines do guarantee, for a document with at least
    one line: the start is at least 1, the end lies in the document, and
    the pair is ordered exactly when the remapped start lies in the
    document. *)
Lemma clampRange_bounds (lineCount_ newStart_ newEnd_ : Z) :
  1 <= lineCount_ ->
  let clamped := clampRange lineCount_ (newStart_, newEnd_) in
  1 <= fst clamped
  /\ 1 <= snd clamped <= lineCount_
  /\ (fst clamped <= snd clamped <-> newStart_ <= lineCount_).
Proof.
  intros Hcount. simpl. lia.
Qed.

(** C2 (evaluation at the failing input). Step [a.ts] lines 15-18, three
    lines added at the top since the baseline, working copy of ten lines:
    the remapped range is (18,21) and the clamped one is (18,10), whose
    start is beyond the document and beyond its end. [checkStaleness]
    reports that range and [repairWalkthrough] stores it. *)
Theorem clampRange_start_beyond_document :
  remapLineRange 15 18 [mkLineMapping 0 0 1 3] = (18, 21)
  /\ clampRange 10 (18, 21) = (18, 10)
  /\ Staleness.checkStaleness shiftedHost [stepLate] (Some "rev1")
     = Ok [Staleness.gitDriftedResult 0 (18, 10)]
  /\ exists r, Repair.repairWalkthrough shiftedHost tourLate = Ok r
               /\ map lines (steps (Repair.walkthrough r)) = [(18, 10)].
Proof.
  split; [reflexivity|]. split; [reflexivity|]. split; [vm_compute; reflexivity|].
  eexists. split; [vm_compute; reflexivity|]. reflexivity.
Qed.

(** ** The staleness loop *)

Section StaleLoop.
Variable h : Host.
Variable rootPath : string.
Variable revs : option (string * string).

Lemma symbolTier_push doc i step st :
  Staleness.symbolTier h doc i step st
  = Staleness.push (Staleness.symbolVerdict h doc i step) st.
Proof.
  unfold Staleness.symbolTier, Staleness.symbolVerdict.
  destruct (Staleness.findBySymbol h doc step); reflexivity.
Qed.

Lemma stale_cachedMappings_coherent c hd path st :
  revs = Some (c, hd) ->
  Staleness.coherent h revs (Staleness.mappingsCache st) ->
  fst (Staleness.cachedMappings h c hd path path st) = computeLineMappings h c hd path
  /\ Staleness.results (snd (Staleness.cachedMappings h c hd path path st))
     = Staleness.results st
  /\ Staleness.coherent h revs
       (Staleness.mappingsCache (snd (Staleness.cachedMappings h c hd path path st))).
Proof.
  intros Hrevs Hcoh. unfold Staleness.cachedMappings.
  destruct (Staleness.mappingsCache st !! path) as [m|] eqn:Hget; simpl.
  - split; [|split; [reflexivity|assumption]].
    exact (Hcoh (c, hd) path m Hrevs Hget).
  - split; [reflexivity|]. split; [reflexivity|].
    intros r path' m Hr Hlook.
    destruct (decide (path = path')) as [->|Hne].
    + rewrite lookup_insert_eq in Hlook. injection Hlook as <-.
      rewrite Hrevs in Hr. injection Hr as <-. reflexivity.
    + rewrite lookup_insert_ne in Hlook by assumption.
      exact (Hcoh r path' m Hr Hlook).
Qed.

Lemma gitTier_verdict r doc i step st :
  revs = Some r ->
  Staleness.coherent h revs (Staleness.mappingsCache st) ->
  Staleness.results (Staleness.gitTier h r doc i step st)
  = Staleness.results st
    ++ [Staleness.gitVerdict h doc i step
          (computeLineMappings h (fst r) (snd r) (file step))]
  /\ Staleness.coherent h revs
       (Staleness.mappingsCache (Staleness.gitTier h r doc i step st)).
Proof.
  intros Hrevs Hcoh. destruct r as [c hd]. unfold Staleness.gitTier. simpl fst. simpl snd.
  destruct (stale_cachedMappings_coherent c hd (file step) st Hrevs Hcoh)
    as (Hm & Hres & Hcoh').
  destruct (Staleness.cachedMappings h c hd (file step) (file step) st) as [m st1].
  simpl in Hm, Hres, Hcoh'. subst m. unfold Staleness.gitVerdict.
  destruct (computeLineMappings h c hd (file step)) as [|hunk hunks].
  - rewrite symbolTier_push. simpl. rewrite Hres. split; [reflexivity|assumption].
  - cbv zeta.
    destruct (lineAt doc _) as [text|].
    + destruct (Staleness.sameHash _ _); simpl; rewrite Hres;
        (split; [reflexivity|assumption]).
    + simpl. rewrite Hres. split; [reflexivity|assumption].
Qed.

(** One iteration pushes exactly the verdict of the cache-free policy and
    keeps the cache coherent. *)
Lemma staleStep_verdict i step st :
  Staleness.coherent h revs (Staleness.mappingsCache st) ->
  Staleness.results (Staleness.staleStep h rootPath revs i step st)
  = Staleness.results st ++ [Staleness.stepVerdict h rootPath revs i step]
  /\ Staleness.coherent h revs
       (Staleness.mappingsCache (Staleness.staleStep h rootPath revs i step st)).
Proof.
  intros Hcoh. unfold Staleness.staleStep, Staleness.stepVerdict. cbv zeta.
  destruct (openTextDocument h _) as [doc|]; [|split; [reflexivity|assumption]].
  destruct (negb (truthy (contentHash step))); [split; [reflexivity|assumption]|].
  destruct (Staleness.checkContentHash h doc step) as [[|]|];
    try (split; [reflexivity|assumption]).
  destruct revs as [r|] eqn:Hrevs.
  - rewrite <- Hrevs in Hcoh |- *. apply gitTier_verdict; assumption.
  - rewrite symbolTier_push. split; [reflexivity|assumption].
Qed.

Lemma staleLoop_verdicts steps : forall i st,
  Staleness.coherent h revs (Staleness.mappingsCache st) ->
  Staleness.results (Staleness.staleLoop h rootPath revs i steps st)
  = Staleness.results st
    ++ imap (fun k => Staleness.stepVerdict h rootPath revs (i + k)%nat) steps.
Proof.
  induction steps as [|step rest IH]; intros i st Hcoh; simpl.
  - now rewrite app_nil_r.
  - destruct (staleStep_verdict i step st Hcoh) as [Hres Hcoh'].
    rewrite (IH (S i) _ Hcoh'), Hres, <- app_assoc. simpl.
    rewrite Nat.add_0_r. do 2 f_equal.
    apply imap_ext. intros k x _. simpl. now rewrite Nat.add_succ_r.
Qed.

Lemma stepVerdict_index i step :
  Staleness.stepIndex (Staleness.stepVerdict h rootPath revs i step) = i.
Proof.
  unfold Staleness.stepVerdict, Staleness.gitVerdict, Staleness.symbolVerdict.
  repeat match goal with
         | |- context [match ?x with _ => _ end] => destruct x
         end; reflexivity.
Qed.

End StaleLoop.

Lemma coherent_empty h revs : Staleness.coherent h revs ∅.
Proof. intros r path m _ Hlook. rewrite lookup_empty in Hlook. discriminate. Qed.

Lemma imap_lookup_index {A B : Type} (f : nat -> A -> B) (l : list A) (i : nat) :
  imap f l !! i = (f i) <$> (l !! i).
Proof.
  revert f i. induction l as [|a l IH]; intros f i; [reflexivity|].
  destruct i; simpl; [reflexivity|]. apply (IH (f ∘ S)).
Qed.

(** With an open workspace folder, [checkStaleness] answers the verdicts of
    the cache-free policy, one per step, in order. *)
Lemma checkStaleness_with_folder h steps commitSha rootPath folders :
  workspaceFolders h = Some (rootPath :: folders) ->
  Staleness.checkStaleness h steps commitSha
  = Ok (imap (Staleness.stepVerdict h rootPath
                (Staleness.gitRevisions commitSha (getHeadSha h))) steps).
Proof.
  intros Hws. unfold Staleness.checkStaleness, Staleness.checkStalenessRun.
  rewrite Hws. cbv zeta.
  rewrite staleLoop_verdicts by apply coherent_empty. reflexivity.
Qed.

(** One verdict per step, in input order, each a function of its own step
    and index ([policyVerdict] does not see the other steps): an unopenable
    file gives [missing] for that step and leaves the other verdicts as they
    are. Stated for any host whose folder list is not the empty array. *)
Theorem checkStaleness_one_verdict_per_step h steps commitSha :
  workspaceFolders h <> Some [] ->
  Staleness.checkStaleness h steps commitSha
  = Ok (imap (Staleness.policyVerdict h commitSha) steps)
  /\ length (imap (Staleness.policyVerdict h commitSha) steps) = length steps
  /\ (forall i step, Staleness.stepIndex (Staleness.policyVerdict h commitSha i step) = i)
  /\ (forall rootPath folders i step,
        workspaceFolders h = Some (rootPath :: folders) ->
        steps !! i = Some step ->
        openTextDocument h (pathResolve h rootPath (file step)) = Throw ->
        imap (Staleness.policyVerdict h commitSha) steps !! i
        = Some (Staleness.missingResult i step)).
Proof.
  intros Hne. unfold Staleness.policyVerdict.
  destruct (workspaceFolders h) as [[|rootPath folders]|] eqn:Hws.
  - now destruct Hne.
  - split; [now apply (checkStaleness_with_folder h steps commitSha rootPath folders)|].
    split; [apply length_imap|]. split; [intros; apply stepVerdict_index|].
    intros root' folders' i step Heq Hstep Hopen. injection Heq as <- <-.
    rewrite imap_lookup_index, Hstep. simpl. unfold Staleness.stepVerdict.
    now rewrite Hopen.
  - split; [unfold Staleness.checkStaleness, Staleness.checkStalenessRun;
            now rewrite Hws|].
    split; [apply length_imap|]. split; [reflexivity|].
    intros; discriminate.
Qed.

Lemma checkStaleness_one_verdict_per_step_witness :
  Staleness.checkStaleness shiftedHost [stepLate; stepNoHash] (Some "rev1")
  = Ok (imap (Staleness.policyVerdict shiftedHost (Some "rev1")) [stepLate; stepNoHash])
  /\ length (imap (Staleness.policyVerdict shiftedHost (Some "rev1")) [stepLate; stepNoHash])
     = length [stepLate; stepNoHash]
  /\ (forall i step,
        Staleness.stepIndex (Staleness.policyVerdict shiftedHost (Some "rev1") i step) = i)
  /\ (forall rootPath folders i step,
        workspaceFolders shiftedHost = Some (rootPath :: folders) ->
        [stepLate; stepNoHash] !! i = Some step ->
        openTextDocument shiftedHost (pathResolve shiftedHost rootPath (file step)) = Throw ->
        imap (Staleness.policyVerdict shiftedHost (Some "rev1")) [stepLate; stepNoHash] !! i
        = Some (Staleness.missingResult i step)).
Proof.
  apply (checkStaleness_one_verdict_per_step shiftedHost [stepLate; stepNoHash] (Some "rev1")).
  discriminate.
Defined.

(** C3 (evaluation at the failing input). With a workspace open that has no
    folder, [workspaceFolders] is an empty array, the guard
    [!workspaceFolders] lets it through and [workspaceFolders[0].uri]
    throws: [checkStaleness] rejects, whatever the steps. The git helpers
    guard against this case: [getWorkspaceRoot] answers [null] there. *)
Theorem checkStaleness_throws_on_empty_folder_list :
  (forall steps commitSha,
      Staleness.checkStaleness emptyWorkspaceHost steps commitSha = Throw)
  /\ getWorkspaceRoot emptyWorkspaceHost = None.
Proof.
  split; [intros steps commitSha|]; reflexivity.
Qed.

(** C4. A step whose stored content hash equals the hash of the current
    content at its stored range gets the [fresh] verdict, wherever it stands
    in the step list and whatever the baseline and head revisions are (so
    also when the baseline is set and differs from the head): the loop body
    pushes that verdict and leaves the hunk cache and the list of diff
    calls as they were, so no diff lookup is made for the step. *)
Theorem checkStaleness_fresh_on_hash_match
  h pre step post commitSha rootPath folders doc :
  workspaceFolders h = Some (rootPath :: folders) ->
  openTextDocument h (pathResolve h rootPath (file step)) = Ok doc ->
  Staleness.checkContentHash h doc step = Ok true ->
  (exists rs,
      Staleness.checkStaleness h (pre ++ step :: post) commitSha = Ok rs
      /\ rs !! length pre = Some (Staleness.freshResult (length pre)))
  /\ (forall revs i st,
        Staleness.staleStep h rootPath revs i step st
        = Staleness.push (Staleness.freshResult i) st
        /\ Staleness.mappingsCache (Staleness.staleStep h rootPath revs i step st)
           = Staleness.mappingsCache st
        /\ Staleness.diffCalls (Staleness.staleStep h rootPath revs i step st)
           = Staleness.diffCalls st).
Proof.
  intros Hws Hopen Hhash. split.
  - rewrite (checkStaleness_with_folder h _ commitSha rootPath folders Hws).
    eexists. split; [reflexivity|].
    rewrite imap_lookup_index, list_lookup_middle by reflexivity. simpl.
    unfold Staleness.stepVerdict. rewrite Hopen, Hhash.
    now destruct (negb (truthy (contentHash step))).
  - intros revs i st.
    assert (Hstep : Staleness.staleStep h rootPath revs i step st
                    = Staleness.push (Staleness.freshResult i) st).
    { unfold Staleness.staleStep. cbv zeta. rewrite Hopen, Hhash.
      now destruct (negb (truthy (contentHash step))). }
    rewrite Hstep. repeat split.
Qed.

Lemma checkStaleness_fresh_on_hash_match_witness :
  (exists rs,
      Staleness.checkStaleness shiftedHost ([stepLate] ++ stepMatching :: [stepNoHash])
                               (Some "rev1") = Ok rs
      /\ rs !! length [stepLate] = Some (Staleness.freshResult (length [stepLate])))
  /\ (forall revs i st,
        Staleness.staleStep shiftedHost "/w" revs i stepMatching st
        = Staleness.push (Staleness.freshResult i) st
        /\ Staleness.mappingsCache (Staleness.staleStep shiftedHost "/w" revs i stepMatching st)
           = Staleness.mappingsCache st
        /\ Staleness.diffCalls (Staleness.staleStep shiftedHost "/w" revs i stepMatching st)
           = Staleness.diffCalls st).
Proof.
  apply (checkStaleness_fresh_on_hash_match shiftedHost [stepLate] stepMatching
           [stepNoHash] (Some "rev1") "/w" [] docA); reflexivity.
Defined.

(** ** The repair engine *)

Lemma truthy_nonempty (s : string) : s <> "" -> truthy (Some s) = true.
Proof.
  intros Hne. simpl. apply negb_true_iff. now apply String.eqb_neq.
Qed.

Lemma getHeadSha_folder h sha :
  getHeadSha h = Some sha ->
  exists rootPath folders, workspaceFolders h = Some (rootPath :: folders).
Proof.
  unfold getHeadSha, getWorkspaceRoot.
  destruct (workspaceFolders h) as [[|rootPath folders]|]; try discriminate.
  intros _. now exists rootPath, folders.
Qed.

(** C5. When the walkthrough's [commitSha] is the current head revision,
    [repairWalkthrough] answers [repaired = true], [stepsFixed = 0],
    [stepsUnresolvable = 0] and hands the walkthrough back as it is. A
    revision identifier is a non-empty string. *)
Theorem repairWalkthrough_noop_at_head h wf sha :
  commitSha (walkthrough wf) = Some sha ->
  getHeadSha h = Some sha ->
  sha <> "" ->
  Repair.repairWalkthrough h wf
  = Ok (Repair.mkRepairResult true 0 0 (walkthrough wf)).
Proof.
  intros Hold Hnew Hne.
  unfold Repair.repairWalkthrough, Repair.repairWalkthroughRun. cbv zeta.
  rewrite Hold, Hnew, (truthy_nonempty sha Hne). simpl.
  now rewrite String.eqb_refl.
Qed.

Lemma repairWalkthrough_noop_at_head_witness :
  Repair.repairWalkthrough shiftedHost tourAtHead
  = Ok (Repair.mkRepairResult true 0 0 (walkthrough tourAtHead)).
Proof.
  apply (repairWalkthrough_noop_at_head shiftedHost tourAtHead "rev2");
    [reflexivity | reflexivity | discriminate].
Defined.

Lemma lineAt_in_document doc line :
  0 <= line < lineCount doc -> exists text, lineAt doc line = Ok text.
Proof.
  intros [Hlo Hhi]. unfold lineAt.
  destruct (Z.ltb_spec line 0); [lia|].
  destruct (Z.leb_spec (lineCount doc) line); [lia|]. simpl.
  destruct (docLines doc !! Z.to_nat line) as [text|] eqn:Hget; [now exists text|].
  apply lookup_ge_None in Hget. unfold lineCount in Hhi. lia.
Qed.

(** With a non-empty document and a step that ends at line 1 or later, the
    loop body of the repair does not throw. *)
Lemma repairStep_returns h rootPath oldSha newSha step st :
  (forall p doc, openTextDocument h p = Ok doc -> 1 <= lineCount doc) ->
  1 <= snd (lines step) ->
  exists st', Repair.repairStep h rootPath oldSha newSha step st = Ok st'.
Proof.
  intros Hdocs Hstep. unfold Repair.repairStep. cbv zeta.
  destruct (openTextDocument h _) as [doc|] eqn:Hopen; [|eauto].
  pose proof (Hdocs _ _ Hopen) as Hcount.
  destruct (lineAt_in_document doc (Z.min (lineCount doc - 1) (snd (lines step) - 1)))
    as [text ->]; [lia|].
  destruct (_ && _); [eauto|].
  destruct (Repair.cachedMappings h oldSha newSha _ (file step) st) as [m st1].
  destruct m as [|hunk hunks]; [eauto|].
  set (remapped := remapLineRange _ _ _).
  destruct remapped as [newStart_ newEnd_].
  pose proof (clampRange_bounds (lineCount doc) newStart_ newEnd_ Hcount) as (_ & Hend & _).
  destruct (lineAt_in_document doc (snd (clampRange (lineCount doc) (newStart_, newEnd_)) - 1))
    as [text' ->]; [lia|].
  eauto.
Qed.

Lemma repairLoop_returns h rootPath oldSha newSha steps : forall st,
  (forall p doc, openTextDocument h p = Ok doc -> 1 <= lineCount doc) ->
  Forall (fun step => 1 <= snd (lines step)) steps ->
  exists st', Repair.repairLoop h rootPath oldSha newSha steps st = Ok st'.
Proof.
  induction steps as [|step rest IH]; intros st Hdocs Hsteps; simpl; [eauto|].
  apply Forall_cons_1 in Hsteps as [Hstep Hrest].
  destruct (repairStep_returns h rootPath oldSha newSha step st Hdocs Hstep) as [st' ->].
  now apply IH.
Qed.

(** C6. Past the preconditions (a baseline revision, a head revision that
    differs from it, and with it an open workspace folder), whatever
    [repairWalkthrough] returns carries the head revision as its
    [commitSha], however many steps were fixed or left unresolved; and it
    does return when every document has at least one line and every step
    ends at line 1 or later. *)
Theorem repairWalkthrough_advances_baseline h wf oldSha newSha :
  commitSha (walkthrough wf) = Some oldSha ->
  getHeadSha h = Some newSha ->
  oldSha <> "" ->
  newSha <> "" ->
  oldSha <> newSha ->
  (forall r, Repair.repairWalkthrough h wf = Ok r ->
             commitSha (Repair.walkthrough r) = Some newSha)
  /\ ((forall p doc, openTextDocument h p = Ok doc -> 1 <= lineCount doc) ->
      Forall (fun step => 1 <= snd (lines step)) (steps (walkthrough wf)) ->
      exists r, Repair.repairWalkthrough h wf = Ok r
                /\ commitSha (Repair.walkthrough r) = Some newSha).
Proof.
  intros Hold Hnew Ho Hn Hdiff.
  destruct (getHeadSha_folder h newSha Hnew) as (rootPath & folders & Hws).
  assert (Hrun : Repair.repairWalkthrough h wf
                 = match Repair.repairLoop h rootPath oldSha newSha
                           (steps (walkthrough wf)) Repair.initialState with
                   | Ok st => Ok (Repair.finish (walkthrough wf) newSha st)
                   | Throw => Throw
                   end).
  { unfold Repair.repairWalkthrough, Repair.repairWalkthroughRun. cbv zeta.
    rewrite Hold, Hnew, (truthy_nonempty _ Ho), (truthy_nonempty _ Hn). simpl.
    apply String.eqb_neq in Hdiff. rewrite Hdiff, Hws.
    now destruct (Repair.repairLoop _ _ _ _ _ _). }
  split.
  - intros r. rewrite Hrun.
    destruct (Repair.repairLoop _ _ _ _ _ _); [|discriminate].
    intros [= <-]. reflexivity.
  - intros Hdocs Hsteps. rewrite Hrun.
    destruct (repairLoop_returns h rootPath oldSha newSha (steps (walkthrough wf))
                Repair.initialState Hdocs Hsteps) as [st ->].
    eexists. split; reflexivity.
Qed.

Lemma repairWalkthrough_advances_baseline_witness :
  exists r, Repair.repairWalkthrough shiftedHost tourLate = Ok r
            /\ commitSha (Repair.walkthrough r) = Some "rev2".
Proof.
  apply (repairWalkthrough_advances_baseline shiftedHost tourLate "rev1" "rev2");
    try reflexivity; try discriminate.
  - intros p doc. simpl. unfold onlyA.
    destruct (String.eqb p "/w/a.ts"); [|discriminate].
    intros [= <-]. vm_compute. discriminate.
  - repeat constructor; simpl; lia.
Defined.

(** *** The hunk cache of the repair loop *)

Section RepairCache.
Variable h : Host.
Variables rootPath oldSha newSha : string.

Lemma repair_cachedMappings_calls key path st :
  Repair.cacheInvariant st ->
  Repair.cacheInvariant (snd (Repair.cachedMappings h oldSha newSha key path st))
  /\ (Repair.diffCalls (snd (Repair.cachedMappings h oldSha newSha key path st))
      = Repair.diffCalls st
      \/ Repair.diffCalls (snd (Repair.cachedMappings h oldSha newSha key path st))
         = Repair.diffCalls st ++ [(key, path)]).
Proof.
  intros [Hnodup Hdom]. unfold Repair.cachedMappings.
  destruct (Repair.mappingsCache st !! key) as [m|] eqn:Hget; simpl.
  - split; [split; assumption|now left].
  - split; [|now right]. split; simpl.
    + rewrite map_app. simpl. apply NoDup_app. split; [assumption|].
      split; [|apply NoDup_singleton].
      intros k Hk Hin. apply list_elem_of_singleton in Hin. subst k.
      destruct (Hdom key Hk) as [m Hm]. congruence.
    + intros k Hk. rewrite map_app in Hk. simpl in Hk.
      apply elem_of_app in Hk as [Hk|Hk].
      * destruct (decide (key = k)) as [->|Hne].
        -- rewrite lookup_insert_eq. eauto.
        -- rewrite lookup_insert_ne by assumption. now apply Hdom.
      * apply list_elem_of_singleton in Hk. subst k. rewrite lookup_insert_eq. eauto.
Qed.

(** One iteration makes at most one diff call: for the step's stored path,
    recorded under the step's resolved path. *)
Lemma repairStep_calls step st st' :
  Repair.cacheInvariant st ->
  Repair.repairStep h rootPath oldSha newSha step st = Ok st' ->
  Repair.cacheInvariant st'
  /\ (Repair.diffCalls st' = Repair.diffCalls st
      \/ Repair.diffCalls st'
         = Repair.diffCalls st
           ++ [(Repair.resolveFile h oldSha newSha step, file step)]).
Proof.
  intros Hinv. unfold Repair.repairStep. cbv zeta.
  destruct (openTextDocument h _) as [doc|].
  2:{ intros [= <-]. split; [exact Hinv|now left]. }
  destruct (lineAt doc _) as [text|]; [|discriminate].
  destruct (_ && _).
  { intros [= <-]. split; [exact Hinv|now left]. }
  pose proof (repair_cachedMappings_calls (Repair.resolveFile h oldSha newSha step)
                (file step) st Hinv) as [Hinv1 Hcalls].
  destruct (Repair.cachedMappings h oldSha newSha _ (file step) st) as [m st1].
  simpl in Hinv1, Hcalls.
  destruct m as [|hunk hunks].
  - intros [= <-]. split; [exact Hinv1|exact Hcalls].
  - destruct (lineAt doc _) as [text'|]; [|discriminate].
    intros [= <-]. split; [exact Hinv1|exact Hcalls].
Qed.

Lemma repairLoop_calls steps : forall st st',
  Repair.cacheInvariant st ->
  Repair.repairLoop h rootPath oldSha newSha steps st = Ok st' ->
  Repair.cacheInvariant st'
  /\ forall call, call ∈ Repair.diffCalls st' ->
       call ∈ Repair.diffCalls st
       \/ exists step, step ∈ steps
                       /\ call = (Repair.resolveFile h oldSha newSha step, file step).
Proof.
  induction steps as [|step rest IH]; intros st st' Hinv; simpl.
  - intros [= <-]. split; [assumption|now left].
  - destruct (Repair.repairStep h rootPath oldSha newSha step st) as [st1|] eqn:Hstep;
      [|discriminate].
    intros Hloop.
    destruct (repairStep_calls step st st1 Hinv Hstep) as [Hinv1 Hcalls].
    destruct (IH st1 st' Hinv1 Hloop) as [Hinv' Hfrom].
    split; [assumption|].
    intros call Hcall. destruct (Hfrom call Hcall) as [Hin|(s & Hs & ->)].
    + destruct Hcalls as [Heq|Heq]; rewrite Heq in Hin.
      * now left.
      * apply elem_of_app in Hin as [Hin|Hin]; [now left|].
        apply list_elem_of_singleton in Hin. subst call.
        right. exists step. split; [left|reflexivity].
    + right. exists s. split; [now right|reflexivity].
Qed.

End RepairCache.

Lemma cacheInvariant_initial : Repair.cacheInvariant Repair.initialState.
Proof.
  split; simpl; [constructor|]. intros key Hkey. inversion Hkey.
Qed.

(** In one repair run no cache key is asked for twice, and every diff call
    is made for the stored path of a step and recorded under the resolved
    path of that step. *)
Theorem repairWalkthrough_diff_calls h wf r st oldSha newSha :
  commitSha (walkthrough wf) = Some oldSha ->
  getHeadSha h = Some newSha ->
  Repair.repairWalkthroughRun h wf = Ok (r, Some st) ->
  NoDup (map fst (Repair.diffCalls st))
  /\ forall key path, (key, path) ∈ Repair.diffCalls st ->
       exists step, step ∈ steps (walkthrough wf)
                    /\ key = Repair.resolveFile h oldSha newSha step
                    /\ path = file step.
Proof.
  intros Hold Hnew. unfold Repair.repairWalkthroughRun. cbv zeta.
  rewrite Hold, Hnew.
  destruct (_ || _); [discriminate|].
  destruct (String.eqb oldSha newSha); [discriminate|].
  destruct (workspaceFolders h) as [[|rootPath folders]|]; try discriminate.
  destruct (Repair.repairLoop h rootPath oldSha newSha _ _) as [st0|] eqn:Hloop;
    [|discriminate].
  intros [= _ <-].
  destruct (repairLoop_calls h rootPath oldSha newSha _ _ _ cacheInvariant_initial Hloop)
    as [[Hnodup _] Hfrom].
  split; [assumption|].
  intros key path Hcall. destruct (Hfrom _ Hcall) as [Hin|(step & Hs & [= -> ->])].
  - inversion Hin.
  - now exists step.
Qed.

Lemma repairWalkthrough_diff_calls_witness :
  exists r st,
    Repair.repairWalkthroughRun renamedHost tourRenamed = Ok (r, Some st)
    /\ NoDup (map fst (Repair.diffCalls st))
    /\ forall key path, (key, path) ∈ Repair.diffCalls st ->
         exists step, step ∈ steps (walkthrough tourRenamed)
                      /\ key = Repair.resolveFile renamedHost "rev1" "rev2" step
                      /\ path = file step.
Proof.
  eexists. eexists. split; [vm_compute; reflexivity|].
  eapply (repairWalkthrough_diff_calls renamedHost tourRenamed);
    [reflexivity | reflexivity | vm_compute; reflexivity].
Defined.

(** ** The symbol tier *)








(** The verdicts of the two steps of the example: the nested [target] at
    line 4 (0-indexed) is met before the later top-level one, and the
    missing symbol leaves no resolved range. *)
Example symbol_fallback_run :
  Staleness.checkStaleness symbolHost [stepAbsent; stepTarget] None
  = Ok [Staleness.driftedResult 0;
        Staleness.symbolResult 1 stepTarget (5, 7)].
Proof. vm_compute. reflexivity. Qed.

(** ** The loader's validity check *)

(** C9. [isValidStep] accepts every step object whose [file] and [subtitle]
    are strings and whose [lines] is a pair of numbers, whatever the two
    numbers are: the pairs (5,2) and (0,7) break the line range invariant
    and are accepted, and so is a walkthrough made of such steps only. *)
Theorem isValidStep_ignores_line_range_invariant :
  (forall file first last subtitle,
      Loader.isValidStep (Loader.stepObject file first last subtitle) = true)
  /\ (forall title description first last,
        Loader.isValidWalkthrough
          (Loader.walkthroughObject title description
             [Loader.stepObject "a.ts" first last "x"]) = true)
  /\ Loader.isValidStep (Loader.stepObject "a.ts" 5 2 "x") = true
  /\ Loader.stepLines (Loader.stepObject "a.ts" 5 2 "x") = Some (5, 2)
  /\ ~ Loader.lineRangeInvariant (5, 2)
  /\ Loader.isValidStep (Loader.stepObject "a.ts" 0 7 "x") = true
  /\ Loader.stepLines (Loader.stepObject "a.ts" 0 7 "x") = Some (0, 7)
  /\ ~ Loader.lineRangeInvariant (0, 7)
  /\ Loader.isValidWalkthrough
       (Loader.walkthroughObject "t" "d"
          [Loader.stepObject "a.ts" 5 2 "x"; Loader.stepObject "a.ts" 0 7 "y"]) = true.
Proof.
  split; [intros; reflexivity|]. split; [intros; reflexivity|].
  repeat split; try reflexivity; unfold Loader.lineRangeInvariant; simpl; lia.
Qed.

(** What the check does ask of a step object: string [file] and [subtitle]
    and a [lines] array of exactly two numbers. *)
Lemma isValidStep_requires step :
  Loader.isValidStep step = true ->
  Loader.isString (Loader.prop step "file") = true
  /\ Loader.isString (Loader.prop step "subtitle") = true
  /\ exists first last, Loader.stepLines step = Some (first, last).
Proof.
  unfold Loader.isValidStep, Loader.stepLines.
  destruct (negb (Loader.isObject step)); [discriminate|].
  destruct (Loader.isString (Loader.prop step "file")); [|discriminate].
  destruct (Loader.asArray (Loader.prop step "lines")) as [items|]; [|discriminate].
  destruct (Loader.isString (Loader.prop step "subtitle"));
    [|rewrite andb_false_r; discriminate].
  destruct items as [|[] [|[] [|]]]; try discriminate.
  intros _. eauto.
Qed.

(** ** What the clamping does guarantee *)

(** For a document with at least one line, the clamped start is at least 1
    and the clamped end lies in the document; the clamped pair is ordered,
    with its start in the document, exactly when the remapped start is at
    most the line count. *)
Theorem clampRange_guarantees (lineCount_ : Z) (remapped : Z * Z) :
  1 <= lineCount_ ->
  1 <= fst (clampRange lineCount_ remapped)
  /\ 1 <= snd (clampRange lineCount_ remapped) <= lineCount_
  /\ (fst (clampRange lineCount_ remapped) <= snd (clampRange lineCount_ remapped)
      <-> fst remapped <= lineCount_)
  /\ (fst (clampRange lineCount_ remapped) <= lineCount_
      <-> fst remapped <= lineCount_).
Proof.
  intros Hcount. destruct remapped as [newStart_ newEnd_].
  pose proof (clampRange_bounds lineCount_ newStart_ newEnd_ Hcount) as (Hs & He & Hord).
  repeat split; try apply He; try apply Hs; try apply Hord; simpl in *; lia.
Qed.

Lemma clampRange_guarantees_witness :
  1 <= fst (clampRange 10 (remapLineRange 5 7 [mkLineMapping 1 1 1 4]))
  /\ 1 <= snd (clampRange 10 (remapLineRange 5 7 [mkLineMapping 1 1 1 4])) <= 10
  /\ (fst (clampRange 10 (remapLineRange 5 7 [mkLineMapping 1 1 1 4]))
      <= snd (clampRange 10 (remapLineRange 5 7 [mkLineMapping 1 1 1 4]))
      <-> fst (remapLineRange 5 7 [mkLineMapping 1 1 1 4]) <= 10)
  /\ (fst (clampRange 10 (remapLineRange 5 7 [mkLineMapping 1 1 1 4])) <= 10
      <-> fst (remapLineRange 5 7 [mkLineMapping 1 1 1 4]) <= 10).
Proof.
  apply (clampRange_guarantees 10 (remapLineRange 5 7 [mkLineMapping 1 1 1 4])). lia.
Defined.

(** ** Hunk headers *)

Import HunkHeaders.

Lemma digitsFrom_nonneg s : forall value,
  0 <= value -> 0 <= fst (digitsFrom value s).
Proof.
  induction s as [|c rest IH]; intros value Hv; simpl; [assumption|].
  destruct (isDigit c); simpl; [|assumption].
  apply IH. unfold digitValue. lia.
Qed.

Lemma number_nonneg s n rest : number s = Some (n, rest) -> 0 <= n.
Proof.
  destruct s as [|c s']; simpl; [discriminate|].
  destruct (isDigit c); [|discriminate].
  intros [= Heq]. pose proof (digitsFrom_nonneg s' (digitValue c)) as Hn.
  rewrite Heq in Hn. simpl in Hn. apply Hn. unfold digitValue. lia.
Qed.

Lemma optionalCount_nonneg s n rest : optionalCount s = (Some n, rest) -> 0 <= n.
Proof.
  destruct s as [|c s']; simpl; [discriminate|].
  destruct (Ascii.eqb c ","); [|discriminate].
  destruct (number s') as [[count rest']|] eqn:Hnum; [|discriminate].
  intros [= <- _]. exact (number_nonneg _ _ _ Hnum).
Qed.

Lemma matchHunkHeader_natural s hunk :
  matchHunkHeader s = Some hunk -> naturalHunk hunk.
Proof.
  unfold matchHunkHeader.
  destruct (literal "@@ -" s) as [s1|]; [|discriminate].
  destruct (number s1) as [[a s2]|] eqn:Ha; [|discriminate].
  destruct (optionalCount s2) as [b s3] eqn:Hb.
  destruct (literal " +" s3) as [s4|]; [|discriminate].
  destruct (number s4) as [[c s5]|] eqn:Hc; [|discriminate].
  destruct (optionalCount s5) as [d s6] eqn:Hd.
  destruct (literal " @@" s6); [|discriminate].
  intros [= <-]. unfold naturalHunk. simpl.
  pose proof (number_nonneg _ _ _ Ha). pose proof (number_nonneg _ _ _ Hc).
  repeat split; try assumption.
  - destruct b as [n|]; [exact (optionalCount_nonneg _ _ _ Hb)|lia].
  - destruct d as [n|]; [exact (optionalCount_nonneg _ _ _ Hd)|lia].
Qed.

Lemma scanHeaders_natural s : forall st, Forall naturalHunk (scanHeaders st s).
Proof.
  induction s as [|c rest IH]; intros st; simpl; [constructor|].
  destruct st; try apply IH.
  destruct (matchHunkHeader (String c rest)) as [hunk|] eqn:Hm; [|apply IH].
  constructor; [exact (matchHunkHeader_natural _ _ Hm)|apply IH].
Qed.

Lemma string_append_assoc (a b c : string) :
  ((a ++ b) ++ c)%string = (a ++ (b ++ c))%string.
Proof.
  induction a as [|x a' IH]; [reflexivity|].
  change (String x ((a' ++ b) ++ c)%string = String x (a' ++ (b ++ c))%string).
  f_equal. exact IH.
Qed.

Lemma digitsFrom_uint_pos d tail : forall acc,
  noDigitAhead tail ->
  digitsFrom (Zpos acc) (NilEmpty.string_of_uint d ++ tail)
  = (Zpos (Pos.of_uint_acc d acc), tail).
Proof.
  induction d; intros acc Htail; simpl;
    try (rewrite <- IHd by assumption; f_equal; unfold digitValue; simpl; lia).
  destruct tail as [|c rest]; simpl; [reflexivity|].
  simpl in Htail. now rewrite Htail.
Qed.

Ltac evalDigit :=
  match goal with
  | |- context [digitsFrom ?v _] =>
      let v' := eval compute in v in change v with v'
  end.

Lemma digitsFrom_uint_zero d tail :
  noDigitAhead tail ->
  digitsFrom 0 (NilEmpty.string_of_uint d ++ tail)
  = (Z.of_N (Pos.of_uint d), tail).
Proof.
  intros Htail. induction d; simpl;
    try (evalDigit; now rewrite digitsFrom_uint_pos).
  - destruct tail as [|c rest]; simpl; [reflexivity|].
    simpl in Htail. now rewrite Htail.
  - exact IHd.
Qed.

(** Reading back the decimal text of a natural number. *)
Lemma number_showZ z tail :
  0 <= z ->
  noDigitAhead tail ->
  number (Staleness.showZ z ++ tail) = Some (z, tail).
Proof.
  intros Hz Htail. unfold Staleness.showZ.
  destruct z as [|p|p]; [| |lia].
  - simpl. destruct tail as [|c rest]; simpl; [reflexivity|].
    simpl in Htail. now rewrite Htail.
  - simpl. pose proof (DecimalPos.Unsigned.of_to p) as Hback.
    destruct (Pos.to_uint p) as [|d|d|d|d|d|d|d|d|d|d] eqn:Hd; try discriminate;
      simpl; simpl in Hback;
      try (evalDigit; rewrite digitsFrom_uint_pos by assumption;
           injection Hback as ->; reflexivity).
    evalDigit. rewrite digitsFrom_uint_zero by assumption.
    now rewrite Hback.
Qed.

Lemma optionalCount_present count tail :
  0 <= count ->
  noDigitAhead tail ->
  optionalCount ("," ++ Staleness.showZ count ++ tail) = (Some count, tail).
Proof.
  intros Hc Htail.
  change (optionalCount ("," ++ Staleness.showZ count ++ tail))
    with (match number (Staleness.showZ count ++ tail) with
          | Some (n, rest') => (Some n, rest')
          | None => (None, String "," (Staleness.showZ count ++ tail))
          end).
  now rewrite number_showZ.
Qed.

Lemma optionalCount_absent tail :
  optionalCount (" " ++ tail) = (None, (" " ++ tail)%string).
Proof. reflexivity. Qed.

(** One side of a header, followed by a space: the start, and the count
    when it is printed. *)
Lemma side_read start count withCount tail :
  0 <= start ->
  0 <= count ->
  exists rest,
    number (sideText start count withCount ++ " " ++ tail) = Some (start, rest)
    /\ optionalCount rest
       = (if withCount then Some count else None, (" " ++ tail)%string).
Proof.
  intros Hs Hc. unfold sideText. rewrite string_append_assoc.
  destruct withCount.
  - exists ("," ++ Staleness.showZ count ++ " " ++ tail)%string. split.
    + rewrite string_append_assoc. now apply number_showZ.
    + now apply optionalCount_present.
  - exists (" " ++ tail)%string. split; [|reflexivity].
    now apply number_showZ.
Qed.

(** A printed header, whatever follows it on the line, is read back as the
    hunk it prints. *)
Lemma matchHunkHeader_headerText hunk withOldCount withNewCount tail :
  naturalHunk hunk ->
  (withOldCount = false -> oldCount hunk = 1) ->
  (withNewCount = false -> newCount hunk = 1) ->
  matchHunkHeader (headerText hunk withOldCount withNewCount ++ tail) = Some hunk.
Proof.
  intros (Ha & Hb & Hc & Hd) Hold Hnew. destruct hunk as [a b c d]. simpl in *.
  unfold headerText. simpl oldStart. simpl oldCount. simpl newStart. simpl newCount.
  repeat rewrite string_append_assoc.
  destruct (side_read a b withOldCount
              ("+" ++ sideText c d withNewCount ++ " @@" ++ tail) Ha Hb)
    as (rest1 & Hnum1 & Hopt1).
  destruct (side_read c d withNewCount ("@@" ++ tail) Hc Hd)
    as (rest2 & Hnum2 & Hopt2).
  unfold matchHunkHeader.
  change (literal "@@ -" ("@@ -" ++ ?x)) with (Some x).
  change (" +" ++ ?x)%string with (" " ++ "+" ++ x)%string.
  cbv beta iota. rewrite Hnum1, Hopt1.
  change (literal " +" (" " ++ "+" ++ ?x)) with (Some x).
  change (" @@" ++ ?x)%string with (" " ++ "@@" ++ x)%string.
  cbv beta iota. rewrite Hnum2, Hopt2.
  change (literal " @@" (" " ++ "@@" ++ ?x)) with (Some x). cbv beta iota.
  f_equal. f_equal.
  - destruct withOldCount; [reflexivity|]. symmetry. now apply Hold.
  - destruct withNewCount; [reflexivity|]. symmetry. now apply Hnew.
Qed.

(** *** A match never looks past the end of its line *)

Section LineEnd.
Variable rest : string.
Let lf : ascii := ascii_of_nat 10.

Lemma literal_line expected : forall line,
  plainLine expected = true ->
  literal expected (line ++ String lf rest)
  = option_map (fun after => (after ++ String lf rest)%string) (literal expected line).
Proof.
  induction expected as [|e expected' IH]; intros line Hplain; [reflexivity|].
  simpl in Hplain. apply andb_true_iff in Hplain as [He Hplain].
  destruct line as [|c line'].
  - change ((if Ascii.eqb lf e then literal expected' rest else None) = None).
    destruct (Ascii.eqb_spec lf e) as [Heq|_]; [|reflexivity].
    subst e. discriminate He.
  - change ((if Ascii.eqb c e then literal expected' (line' ++ String lf rest) else None)
            = option_map (fun after => (after ++ String lf rest)%string)
                (if Ascii.eqb c e then literal expected' line' else None)).
    destruct (Ascii.eqb c e); [now apply IH|reflexivity].
Qed.

Lemma digitsFrom_line line : forall value,
  digitsFrom value (line ++ String lf rest)
  = (fst (digitsFrom value line), (snd (digitsFrom value line) ++ String lf rest)%string).
Proof.
  induction line as [|c line' IH]; intros value; [reflexivity|].
  simpl. destruct (isDigit c); [apply IH|reflexivity].
Qed.

Lemma number_line line :
  number (line ++ String lf rest)
  = option_map (fun found => (fst found, (snd found ++ String lf rest)%string))
               (number line).
Proof.
  destruct line as [|c line']; [reflexivity|].
  simpl. destruct (isDigit c); [|reflexivity].
  simpl. f_equal. apply digitsFrom_line.
Qed.

Lemma optionalCount_line line :
  optionalCount (line ++ String lf rest)
  = (fst (optionalCount line), (snd (optionalCount line) ++ String lf rest)%string).
Proof.
  destruct line as [|c line']; [reflexivity|].
  simpl. destruct (Ascii.eqb c ","); [|reflexivity].
  rewrite number_line. destruct (number line') as [[count after]|]; reflexivity.
Qed.

Lemma matchHunkHeader_line line :
  matchHunkHeader (line ++ String lf rest) = matchHunkHeader line.
Proof.
  unfold matchHunkHeader.
  rewrite literal_line by reflexivity.
  destruct (literal "@@ -" line) as [s1|]; [|reflexivity]. simpl option_map. cbv beta iota.
  rewrite number_line.
  destruct (number s1) as [[a s2]|]; [|reflexivity]. simpl option_map. cbv beta iota.
  rewrite optionalCount_line.
  destruct (optionalCount s2) as [b s3]. simpl fst. simpl snd. cbv beta iota.
  rewrite literal_line by reflexivity.
  destruct (literal " +" s3) as [s4|]; [|reflexivity]. simpl option_map. cbv beta iota.
  rewrite number_line.
  destruct (number s4) as [[c s5]|]; [|reflexivity]. simpl option_map. cbv beta iota.
  rewrite optionalCount_line.
  destruct (optionalCount s5) as [d s6]. simpl fst. simpl snd. cbv beta iota.
  rewrite literal_line by reflexivity.
  destruct (literal " @@" s6); reflexivity.
Qed.

(** Inside a line the scan never comes to a line start. *)
Lemma nextState_inside st c line :
  oneLine (String c line) = true ->
  pending st (String c line) = true ->
  nextState st c <> AtLineStart /\ pending (nextState st c) line = true.
Proof.
  intros Hline Hpending. cbn [oneLine] in Hline.
  apply andb_true_iff in Hline as [Hterm _]. apply negb_true_iff in Hterm.
  cbn [atTerminator] in Hterm.
  apply orb_false_iff in Hterm as [Hterm H226].
  apply orb_false_iff in Hterm as [H10 H13].
  unfold nextState. cbv zeta. rewrite H10, H13. cbn [orb].
  destruct (nat_of_ascii c =? 226)%nat eqn:Hc.
  - split; [discriminate|]. cbn [andb] in H226. cbn [pending].
    destruct line as [|c2 [|c3 line']]; try reflexivity. now rewrite H226.
  - destruct st; cbn [pending] in *; try (split; [discriminate|reflexivity]).
    + destruct (nat_of_ascii c =? 128)%nat eqn:H128;
        [|split; [discriminate|reflexivity]].
      split; [discriminate|]. cbn [pending].
      destruct line as [|c3 line']; [reflexivity|]. cbn [andb] in Hpending.
      exact Hpending.
    + apply negb_true_iff in Hpending. rewrite Hpending.
      split; [discriminate|reflexivity].
Qed.

Lemma scanHeaders_inside line : forall st,
  st <> AtLineStart ->
  oneLine line = true ->
  pending st line = true ->
  scanHeaders st (line ++ String lf rest) = scanHeaders AtLineStart rest.
Proof.
  induction line as [|c line' IH]; intros st Hst Hline Hpending.
  - change (scanHeaders st (String lf rest) = scanHeaders AtLineStart rest).
    destruct st; [now destruct Hst| | |]; reflexivity.
  - destruct (nextState_inside st c line' Hline Hpending) as [Hnext Hpending'].
    cbn [oneLine] in Hline. apply andb_true_iff in Hline as [_ Hline'].
    change (scanHeaders st (String c line' ++ String lf rest))
      with (scanHeaders st (String c (line' ++ String lf rest))).
    destruct st; [now destruct Hst| | |];
      (change (scanHeaders ?s (String c (line' ++ String lf rest)))
         with (scanHeaders (nextState s c) (line' ++ String lf rest));
       now apply IH).
Qed.

Lemma scanHeaders_line line :
  oneLine line = true ->
  scanHeaders AtLineStart (line ++ String lf rest)
  = match matchHunkHeader line with
    | Some hunk => hunk :: scanHeaders AtLineStart rest
    | None => scanHeaders AtLineStart rest
    end.
Proof.
  intros Hline. destruct line as [|c line'].
  - reflexivity.
  - destruct (nextState_inside AtLineStart c line' Hline eq_refl) as [Hnext Hpending].
    cbn [oneLine] in Hline. apply andb_true_iff in Hline as [_ Hline'].
    change (scanHeaders AtLineStart (String c line' ++ String lf rest))
      with (match matchHunkHeader (String c line' ++ String lf rest) with
            | Some mapping =>
                mapping :: scanHeaders (nextState AtLineStart c) (line' ++ String lf rest)
            | None => scanHeaders (nextState AtLineStart c) (line' ++ String lf rest)
            end).
    rewrite matchHunkHeader_line, scanHeaders_inside by assumption.
    reflexivity.
Qed.

End LineEnd.

(** For a text made of terminated lines, the loop reads the headers line by
    line, in order. *)
Lemma parseHunkHeaders_unlines textLines :
  Forall (fun line => oneLine line = true) textLines ->
  parseHunkHeaders (unlines textLines) = omap matchHunkHeader textLines.
Proof.
  unfold parseHunkHeaders.
  induction 1 as [|line others Hline _ IH]; [reflexivity|].
  simpl unlines. unfold Examples.lineFeed.
  change (String (ascii_of_nat 10) "" ++ unlines others)%string
    with (String (ascii_of_nat 10) (unlines others)).
  rewrite scanHeaders_line by assumption. simpl omap.
  destruct (matchHunkHeader line); now rewrite IH.
Qed.

Lemma plainLine_append a b :
  plainLine a = true -> plainLine b = true -> plainLine (a ++ b) = true.
Proof.
  induction a as [|c a' IH]; intros Ha Hb; [exact Hb|].
  simpl in Ha. apply andb_true_iff in Ha as [Hc Ha].
  change (plainChar c && plainLine (a' ++ b) = true).
  now rewrite Hc, IH.
Qed.

Lemma plainLine_showZ z : 0 <= z -> plainLine (Staleness.showZ z) = true.
Proof.
  intros Hz. unfold Staleness.showZ. destruct z as [|p|p]; [reflexivity| |lia].
  simpl. generalize (Pos.to_uint p). intros d.
  assert (Hd : plainLine (NilEmpty.string_of_uint d) = true)
    by (induction d; simpl; try assumption; reflexivity).
  destruct d; exact Hd || reflexivity.
Qed.

Lemma plainLine_headerText hunk withOldCount withNewCount :
  naturalHunk hunk ->
  plainLine (headerText hunk withOldCount withNewCount) = true.
Proof.
  intros (Ha & Hb & Hc & Hd). unfold headerText, sideText.
  repeat apply plainLine_append; try reflexivity;
    try (now apply plainLine_showZ);
    destruct withOldCount, withNewCount; try reflexivity;
    apply plainLine_append; try reflexivity; now apply plainLine_showZ.
Qed.

(** Text without the bytes 10, 13 and 226 holds no line terminator, and
    stays one line when one line is put after it. *)
Lemma oneLine_after_plain a b :
  plainLine a = true -> oneLine b = true -> oneLine (a ++ b) = true.
Proof.
  induction a as [|c a' IH]; intros Ha Hb; [exact Hb|].
  simpl in Ha. apply andb_true_iff in Ha as [Hc Ha].
  change (oneLine (String c (a' ++ b)) = true). cbn [oneLine atTerminator].
  rewrite (IH Ha Hb), andb_true_r.
  unfold plainChar in Hc. apply negb_true_iff in Hc.
  apply orb_false_iff in Hc as [Hc H226]. now rewrite Hc, H226.
Qed.

Import DiffText.

Lemma omap_step {A B : Type} (f : A -> option B) (a : A) (l : list A) :
  omap f (a :: l)
  = match f a with
    | Some b => b :: omap f l
    | None => omap f l
    end.
Proof. reflexivity. Qed.

(** X4. Parsing the hunk headers of a printed diff gives back its hunks,
    in order: every header line is read as the hunk it prints, with a count
    left out read as 1, whatever section text follows it on the line, and
    every other line is passed over. The lines are ended by line feeds and
    hold no line terminator themselves; characters outside ASCII are
    allowed everywhere. *)
Theorem parseHunkHeaders_reads_diff (diff : list DiffLine) :
  Forall wellFormedLine diff ->
  parseHunkHeaders (unlines (map lineText diff)) = omap lineHunk diff.
Proof.
  intros Hdiff. rewrite parseHunkHeaders_unlines.
  - induction Hdiff as [|line others Hline _ IH]; [reflexivity|].
    cbn [map]. rewrite !omap_step, IH.
    destruct line as [hunk wo wn section|text]; cbn [lineText lineHunk].
    + destruct Hline as (Hnat & Hold & Hnew & _).
      now rewrite matchHunkHeader_headerText.
    + destruct Hline as [_ Hat]. destruct text as [|c text']; [reflexivity|].
      unfold matchHunkHeader.
      change (literal "@@ -" (String c text'))
        with (if Ascii.eqb c "@" then literal "@ -" text' else None).
      destruct (Ascii.eqb_spec c "@"); [contradiction|reflexivity].
  - apply Forall_map. induction Hdiff as [|line others Hline _ IH]; constructor;
      [|assumption].
    destruct line as [hunk wo wn section|text]; simpl.
    + destruct Hline as (Hnat & _ & _ & Hsection).
      apply oneLine_after_plain; [now apply plainLine_headerText|assumption].
    + apply Hline.
Qed.

Lemma parseHunkHeaders_reads_diff_witness :
  parseHunkHeaders (unlines (map lineText dashDiff)) = omap lineHunk dashDiff.
Proof.
  apply (parseHunkHeaders_reads_diff dashDiff).
  unfold dashDiff.
  repeat (apply Forall_cons; split;
          [unfold wellFormedLine, naturalHunk; cbn [oldStart oldCount newStart newCount];
           repeat split; try reflexivity; try discriminate; try lia;
           intros; reflexivity|]).
  constructor.
Defined.

(** Whatever the diff text is, every parsed hunk has non-negative starts
    and counts; so for parsed hunks in ascending order a range with
    [start_ <= end_] is shifted by the net growth of the hunks that start
    at or before its end. *)
Theorem parsed_hunks_shift_by_growth (diffOutput : string) (start_ end_ : Z) :
  start_ <= end_ ->
  ascending (parseHunkHeaders diffOutput) ->
  Forall naturalHunk (parseHunkHeaders diffOutput)
  /\ remapLineRange start_ end_ (parseHunkHeaders diffOutput)
     = (start_ + growthUpTo end_ (parseHunkHeaders diffOutput),
        end_ + growthUpTo end_ (parseHunkHeaders diffOutput)).
Proof.
  intros Hrange Hsorted.
  pose proof (scanHeaders_natural diffOutput AtLineStart) as Hnat.
  split; [exact Hnat|].
  unfold remapLineRange. rewrite remapLoop_growthUpTo; try assumption; [reflexivity|].
  eapply Forall_impl; [exact Hnat|]. intros hunk (_ & Hcount & _). exact Hcount.
Qed.

Lemma parsed_hunks_shift_by_growth_witness :
  Forall naturalHunk (parseHunkHeaders (unlines (map lineText exampleDiff)))
  /\ remapLineRange 11 12 (parseHunkHeaders (unlines (map lineText exampleDiff)))
     = (11 + growthUpTo 12 (parseHunkHeaders (unlines (map lineText exampleDiff))),
        12 + growthUpTo 12 (parseHunkHeaders (unlines (map lineText exampleDiff)))).
Proof.
  apply (parsed_hunks_shift_by_growth (unlines (map lineText exampleDiff)) 11 12).
  - lia.
  - replace (parseHunkHeaders (unlines (map lineText exampleDiff)))
      with [mkLineMapping 3 0 4 2; mkLineMapping 10 1 12 1]
      by (vm_compute; reflexivity).
    unfold ascending. repeat constructor; simpl; lia.
Defined.

(** ** Ranges away from every hunk *)

Import Hunks.

Lemma remapLoop_all_before start_ end_ hunks :
  Forall (fun hunk => oldStart hunk + oldCount hunk <= start_) hunks ->
  remapLoop start_ end_ 0 hunks = totalGrowth hunks.
Proof.
  induction 1 as [|hunk rest Hhunk _ IH]; [reflexivity|].
  simpl. destruct (Z.leb_spec (oldStart hunk + oldCount hunk) start_); [|lia].
  rewrite remapLoop_offset, IH. unfold netGrowth. lia.
Qed.

(** [remapLineRange] keeps the span of the range. For a range with
    [start_ <= end_] and hunks with non-negative old counts, in any order:
    when every hunk starts after the range's end the range is unchanged,
    and when every hunk ends at or before the range's start the range is
    shifted by the net growth of the whole diff. *)
Theorem remapLineRange_away_from_hunks (start_ end_ : Z) (hunks : list LineMapping) :
  start_ <= end_ ->
  Forall (fun hunk => 0 <= oldCount hunk) hunks ->
  snd (remapLineRange start_ end_ hunks) - fst (remapLineRange start_ end_ hunks)
  = end_ - start_
  /\ (Forall (fun hunk => end_ < oldStart hunk) hunks ->
      remapLineRange start_ end_ hunks = (start_, end_))
  /\ (Forall (fun hunk => oldStart hunk + oldCount hunk <= start_) hunks ->
      remapLineRange start_ end_ hunks
      = (start_ + totalGrowth hunks, end_ + totalGrowth hunks)).
Proof.
  intros Hrange Hcount. unfold remapLineRange. cbv zeta. simpl fst. simpl snd.
  split; [lia|]. split.
  - intros Hafter. destruct hunks as [|hunk rest]; simpl.
    + f_equal; lia.
    + apply Forall_cons_1 in Hafter as [Hhunk _].
      apply Forall_cons_1 in Hcount as [Hc _].
      destruct (Z.leb_spec (oldStart hunk + oldCount hunk) start_); [lia|].
      destruct (Z.gtb_spec (oldStart hunk) end_); [|lia].
      f_equal; lia.
  - intros Hbefore. now rewrite remapLoop_all_before.
Qed.

Lemma remapLineRange_away_from_hunks_witness :
  snd (remapLineRange 20 22 [exampleHunk]) - fst (remapLineRange 20 22 [exampleHunk])
  = 22 - 20
  /\ (Forall (fun hunk => 22 < oldStart hunk) [exampleHunk] ->
      remapLineRange 20 22 [exampleHunk] = (20, 22))
  /\ (Forall (fun hunk => oldStart hunk + oldCount hunk <= 20) [exampleHunk] ->
      remapLineRange 20 22 [exampleHunk]
      = (20 + totalGrowth [exampleHunk], 22 + totalGrowth [exampleHunk])).
Proof.
  apply (remapLineRange_away_from_hunks 20 22 [exampleHunk]).
  - lia.
  - repeat constructor. simpl. lia.
Defined.

(** ** Rename detection *)

Lemma scanRenames_answer filePath entries answer :
  scanRenames filePath entries = Some answer <->
  exists before entry after,
    entries = before ++ entry :: after
    /\ Forall (fun e => fst e <> filePath /\ snd e <> filePath) before
    /\ ((fst entry = filePath /\ answer = snd entry)
        \/ (fst entry <> filePath /\ snd entry = filePath /\ answer = fst entry)).
Proof.
  split.
  - induction entries as [|[source target] rest IH]; [discriminate|].
    simpl. destruct (String.eqb_spec source filePath) as [Hs|Hs].
    + intros [= <-]. exists [], (source, target), rest.
      repeat split; [constructor|]. left. now split.
    + destruct (String.eqb_spec target filePath) as [Ht|Ht].
      * intros [= <-]. exists [], (source, target), rest.
        repeat split; [constructor|]. right. now repeat split.
      * intros Hscan.
        destruct (IH Hscan) as (before & entry & after & -> & Hbefore & Hentry).
        exists ((source, target) :: before), entry, after.
        repeat split; [constructor; [now split|assumption]|assumption].
  - intros (before & entry & after & -> & Hbefore & Hentry).
    induction Hbefore as [|[source target] before [Hs Ht] _ IH]; simpl.
    + destruct entry as [source target]. simpl in Hentry.
      destruct Hentry as [[-> ->]|(Hs & -> & ->)].
      * now rewrite String.eqb_refl.
      * apply String.eqb_neq in Hs. now rewrite Hs, String.eqb_refl.
    + simpl in Hs, Ht. apply String.eqb_neq in Hs, Ht. now rewrite Hs, Ht.
Qed.

(** [getFileRenames] answers exactly when git ran in a workspace folder and
    some rename line of its output names the path; the answer is the other
    side of the first such line, whichever side the path is on. *)
Theorem getFileRenames_other_side h fromSha toSha filePath answer :
  getFileRenames h fromSha toSha filePath = Some answer <->
  exists rootPath entries before entry after,
    getWorkspaceRoot h = Some rootPath
    /\ gitRenameLines h rootPath fromSha toSha filePath = Ok entries
    /\ entries = before ++ entry :: after
    /\ Forall (fun e => fst e <> filePath /\ snd e <> filePath) before
    /\ ((fst entry = filePath /\ answer = snd entry)
        \/ (fst entry <> filePath /\ snd entry = filePath /\ answer = fst entry)).
Proof.
  unfold getFileRenames. split.
  - destruct (getWorkspaceRoot h) as [rootPath|]; [|discriminate].
    destruct (gitRenameLines h rootPath fromSha toSha filePath) as [entries|] eqn:Hgit;
      [|discriminate].
    intros Hscan. apply scanRenames_answer in Hscan
      as (before & entry & after & Hsplit & Hbefore & Hentry).
    exists rootPath, entries, before, entry, after. rewrite Hgit. now repeat split.
  - intros (rootPath & entries & before & entry & after & -> & -> & Hsplit & Hbefore & Hentry).
    apply scanRenames_answer. now exists before, entry, after.
Qed.

(** ** More on the repair engine *)

Import Rewritten.

(** Without a usable baseline or head revision the repair hands the
    walkthrough back untouched and counts every step as unresolved; this
    covers a missing workspace and a workspace with no folder, where
    [getHeadSha] answers [null] before any folder is read. *)
Theorem repairWalkthrough_without_revisions h wf :
  truthy (commitSha (walkthrough wf)) = false
  \/ workspaceFolders h = None
  \/ workspaceFolders h = Some []
  \/ truthy (getHeadSha h) = false ->
  Repair.repairWalkthrough h wf
  = Ok (Repair.mkRepairResult false 0 (length (steps (walkthrough wf)))
          (walkthrough wf)).
Proof.
  intros Hcase.
  assert (Hfalsy : truthy (commitSha (walkthrough wf)) = false
                   \/ truthy (getHeadSha h) = false).
  { destruct Hcase as [H|[H|[H|H]]]; [now left| | |now right];
      right; unfold getHeadSha, getWorkspaceRoot; now rewrite H. }
  unfold Repair.repairWalkthrough, Repair.repairWalkthroughRun. cbv zeta.
  destruct Hfalsy as [-> | ->]; simpl; [reflexivity|].
  now rewrite orb_true_r.
Qed.

Lemma repairWalkthrough_without_revisions_witness :
  Repair.repairWalkthrough emptyWorkspaceHost tourLate
  = Ok (Repair.mkRepairResult false 0 (length (steps (walkthrough tourLate)))
          (walkthrough tourLate)).
Proof.
  apply (repairWalkthrough_without_revisions emptyWorkspaceHost tourLate).
  right. right. left. reflexivity.
Defined.

Section RepairRelation.
Variable h : Host.
Variables rootPath oldSha newSha : string.
Variable R : WalkthroughStep -> WalkthroughStep -> Prop.
Hypothesis stepR : forall step st st',
  Repair.repairStep h rootPath oldSha newSha step st = Ok st' ->
  exists after,
    Repair.repairedSteps st' = Repair.repairedSteps st ++ [after] /\ R step after.

(** What every iteration establishes between a step and the step it
    pushes holds, position by position, between the input and the output of
    the loop. *)
Lemma repairLoop_related steps : forall st st',
  Repair.repairLoop h rootPath oldSha newSha steps st = Ok st' ->
  exists out,
    Repair.repairedSteps st' = Repair.repairedSteps st ++ out /\ Forall2 R steps out.
Proof.
  induction steps as [|step rest IH]; intros st st'; simpl.
  - intros [= <-]. exists []. split; [now rewrite app_nil_r|constructor].
  - destruct (Repair.repairStep h rootPath oldSha newSha step st) as [st1|] eqn:Hstep;
      [|discriminate].
    intros Hloop. destruct (stepR _ _ _ Hstep) as (after & Hpush & Hrel).
    destruct (IH _ _ Hloop) as (out & Hout & Hall).
    exists (after :: out). split; [|now constructor].
    rewrite Hout, Hpush, <- app_assoc. reflexivity.
Qed.

End RepairRelation.

Lemma repair_cachedMappings_frame h oldSha newSha key path st :
  Repair.repairedSteps (snd (Repair.cachedMappings h oldSha newSha key path st))
  = Repair.repairedSteps st
  /\ Repair.fixedCount (snd (Repair.cachedMappings h oldSha newSha key path st))
     = Repair.fixedCount st
  /\ Repair.unresolvableCount (snd (Repair.cachedMappings h oldSha newSha key path st))
     = Repair.unresolvableCount st.
Proof.
  unfold Repair.cachedMappings.
  destruct (Repair.mappingsCache st !! key); repeat split.
Qed.

(** One iteration pushes one step with the annotations of the input step
    and adds at most one to the two counters together. *)
Lemma repairStep_annotations h rootPath oldSha newSha step st st' :
  Repair.repairStep h rootPath oldSha newSha step st = Ok st' ->
  exists after,
    Repair.repairedSteps st' = Repair.repairedSteps st ++ [after]
    /\ sameAnnotations step after.
Proof.
  unfold Repair.repairStep. cbv zeta.
  destruct (openTextDocument h _) as [doc|].
  2:{ intros [= <-]. exists step. now repeat split. }
  destruct (lineAt doc _) as [text|]; [|discriminate].
  destruct (_ && _).
  { intros [= <-]. exists step. now repeat split. }
  pose proof (repair_cachedMappings_frame h oldSha newSha
                (Repair.resolveFile h oldSha newSha step) (file step) st)
    as (Hs & _ & _).
  destruct (Repair.cachedMappings h oldSha newSha _ (file step) st) as [m st1].
  simpl in Hs. destruct m as [|hunk hunks].
  - intros [= <-]. eexists. simpl. rewrite Hs. split; [reflexivity|now repeat split].
  - destruct (lineAt doc _) as [text'|]; [|discriminate].
    intros [= <-]. eexists. simpl. rewrite Hs. split; [reflexivity|now repeat split].
Qed.

Lemma repairStep_counters h rootPath oldSha newSha step st st' :
  Repair.repairStep h rootPath oldSha newSha step st = Ok st' ->
  (Repair.fixedCount st' + Repair.unresolvableCount st'
   <= S (Repair.fixedCount st + Repair.unresolvableCount st))%nat.
Proof.
  unfold Repair.repairStep. cbv zeta.
  destruct (openTextDocument h _) as [doc|].
  2:{ intros [= <-]. simpl. lia. }
  destruct (lineAt doc _) as [text|]; [|discriminate].
  destruct (_ && _).
  { intros [= <-]. simpl. lia. }
  pose proof (repair_cachedMappings_frame h oldSha newSha
                (Repair.resolveFile h oldSha newSha step) (file step) st)
    as (_ & Hf & Hu).
  destruct (Repair.cachedMappings h oldSha newSha _ (file step) st) as [m st1].
  simpl in Hf, Hu. destruct m as [|hunk hunks].
  - intros [= <-]. simpl. lia.
  - destruct (lineAt doc _) as [text'|]; [|discriminate].
    intros [= <-]. simpl. lia.
Qed.

Lemma repairLoop_counters h rootPath oldSha newSha steps : forall st st',
  Repair.repairLoop h rootPath oldSha newSha steps st = Ok st' ->
  (Repair.fixedCount st' + Repair.unresolvableCount st'
   <= length steps + (Repair.fixedCount st + Repair.unresolvableCount st))%nat.
Proof.
  induction steps as [|step rest IH]; intros st st'; simpl.
  - intros [= <-]. lia.
  - destruct (Repair.repairStep h rootPath oldSha newSha step st) as [st1|] eqn:Hstep;
      [|discriminate].
    intros Hloop. pose proof (repairStep_counters _ _ _ _ _ _ _ Hstep).
    pose proof (IH _ _ Hloop). lia.
Qed.

(** The cases of [repairWalkthrough]: an early answer that hands the input
    back, or the answer built from the final state of the loop. *)
Lemma repairWalkthrough_cases h wf r :
  Repair.repairWalkthrough h wf = Ok r ->
  r = Repair.failed (walkthrough wf)
  \/ r = Repair.nothingToDo (walkthrough wf)
  \/ exists rootPath folders oldSha newSha st,
       workspaceFolders h = Some (rootPath :: folders)
       /\ commitSha (walkthrough wf) = Some oldSha
       /\ getHeadSha h = Some newSha
       /\ truthy (Some newSha) = true
       /\ Repair.repairLoop h rootPath oldSha newSha (steps (walkthrough wf))
            Repair.initialState = Ok st
       /\ r = Repair.finish (walkthrough wf) newSha st.
Proof.
  unfold Repair.repairWalkthrough, Repair.repairWalkthroughRun. cbv zeta.
  destruct (negb (truthy (commitSha (walkthrough wf)))) eqn:Hold; simpl.
  { intros [= <-]. now left. }
  destruct (negb (truthy (getHeadSha h))) eqn:Hnew; simpl.
  { intros [= <-]. now left. }
  destruct (commitSha (walkthrough wf)) as [oldSha|] eqn:Hc; [|discriminate Hold].
  destruct (getHeadSha h) as [newSha|] eqn:Hh; [|discriminate Hnew].
  destruct (String.eqb oldSha newSha).
  { intros [= <-]. right. now left. }
  destruct (workspaceFolders h) as [[|rootPath folders]|] eqn:Hws.
  - discriminate.
  - destruct (Repair.repairLoop h rootPath oldSha newSha _ _) as [st|] eqn:Hloop;
      [|discriminate].
    intros [= <-]. right. right.
    exists rootPath, folders, oldSha, newSha, st.
    apply negb_false_iff in Hnew. now repeat split.
  - intros [= <-]. now left.
Qed.

Lemma Forall2_same_steps (steps : list WalkthroughStep) :
  Forall2 sameAnnotations steps steps.
Proof.
  induction steps; constructor; [now repeat split|assumption].
Qed.

(** Whatever [repairWalkthrough] returns has the title and the description
    of the input and one step for each input step, in order, with the same
    subtitle, symbol and duration; the two counters together never exceed
    the number of steps, and a result with a fixed step is flagged
    [repaired]. *)
Theorem repairWalkthrough_keeps_annotations h wf r :
  Repair.repairWalkthrough h wf = Ok r ->
  title (Repair.walkthrough r) = title (walkthrough wf)
  /\ description (Repair.walkthrough r) = description (walkthrough wf)
  /\ Forall2 sameAnnotations (steps (walkthrough wf)) (steps (Repair.walkthrough r))
  /\ (Repair.stepsFixed r + Repair.stepsUnresolvable r
      <= length (steps (walkthrough wf)))%nat
  /\ ((0 < Repair.stepsFixed r)%nat -> Repair.repaired r = true).
Proof.
  intros Hrun.
  destruct (repairWalkthrough_cases h wf r Hrun)
    as [->|[->|(rootPath & folders & oldSha & newSha & st & _ & _ & _ & _ & Hloop & ->)]].
  - simpl. repeat split; [apply Forall2_same_steps|lia|lia].
  - simpl. repeat split; [apply Forall2_same_steps|lia].
  - simpl. split; [reflexivity|]. split; [reflexivity|].
    destruct (repairLoop_related h rootPath oldSha newSha sameAnnotations
                (repairStep_annotations h rootPath oldSha newSha) _ _ _ Hloop)
      as (out & Hout & Hall).
    simpl in Hout. subst out.
    pose proof (repairLoop_counters _ _ _ _ _ _ _ Hloop) as Hcount. simpl in Hcount.
    split; [assumption|]. split; [lia|].
    intros Hfixed. apply orb_true_iff. left. now apply Nat.ltb_lt.
Qed.

Lemma repairWalkthrough_keeps_annotations_witness :
  exists r,
    Repair.repairWalkthrough renamedHost tourRenamed = Ok r
    /\ title (Repair.walkthrough r) = title (walkthrough tourRenamed)
    /\ description (Repair.walkthrough r) = description (walkthrough tourRenamed)
    /\ Forall2 sameAnnotations (steps (walkthrough tourRenamed))
         (steps (Repair.walkthrough r))
    /\ (Repair.stepsFixed r + Repair.stepsUnresolvable r
        <= length (steps (walkthrough tourRenamed)))%nat
    /\ ((0 < Repair.stepsFixed r)%nat -> Repair.repaired r = true).
Proof.
  eexists. split; [vm_compute; reflexivity|].
  apply (repairWalkthrough_keeps_annotations renamedHost tourRenamed).
  vm_compute. reflexivity.
Defined.

(** Once the repair has run past its preconditions, running it again on
    its own output finds nothing to do: it reports [repaired] with no step
    fixed and none unresolved, also when the first run left steps
    unresolved, because the first run moved the baseline to the head. *)
Theorem repairWalkthrough_again_finds_nothing h wf r :
  truthy (commitSha (walkthrough wf)) = true ->
  truthy (getHeadSha h) = true ->
  Repair.repairWalkthrough h wf = Ok r ->
  Repair.repairWalkthrough h (mkWalkthroughFile (uri wf) (Repair.walkthrough r))
  = Ok (Repair.mkRepairResult true 0 0 (Repair.walkthrough r)).
Proof.
  intros Hold Hnew.
  destruct (commitSha (walkthrough wf)) as [oldSha|] eqn:Hc; [|discriminate].
  destruct (getHeadSha h) as [newSha|] eqn:Hh; [|discriminate].
  destruct (getHeadSha_folder h newSha Hh) as (rootPath & folders & Hws).
  assert (Hsecond : forall w, commitSha w = Some newSha ->
            Repair.repairWalkthrough h (mkWalkthroughFile (uri wf) w)
            = Ok (Repair.mkRepairResult true 0 0 w)).
  { intros w Hw. unfold Repair.repairWalkthrough, Repair.repairWalkthroughRun.
    cbv zeta. simpl Types.walkthrough. rewrite Hw, Hh, Hnew. simpl.
    now rewrite String.eqb_refl. }
  unfold Repair.repairWalkthrough at 1. unfold Repair.repairWalkthroughRun. cbv zeta.
  rewrite Hc, Hh, Hold, Hnew. simpl.
  destruct (String.eqb_spec oldSha newSha) as [->|Hne].
  - intros [= <-]. now apply Hsecond.
  - rewrite Hws.
    destruct (Repair.repairLoop h rootPath oldSha newSha _ _) as [st|]; [|discriminate].
    intros [= <-]. now apply Hsecond.
Qed.

Lemma repairWalkthrough_again_finds_nothing_witness :
  exists r,
    Repair.repairWalkthrough renamedHost tourRenamed = Ok r
    /\ Repair.repairWalkthrough renamedHost
         (mkWalkthroughFile (uri tourRenamed) (Repair.walkthrough r))
       = Ok (Repair.mkRepairResult true 0 0 (Repair.walkthrough r)).
Proof.
  eexists. split; [vm_compute; reflexivity|].
  apply (repairWalkthrough_again_finds_nothing renamedHost tourRenamed);
    [reflexivity | reflexivity | vm_compute; reflexivity].
Defined.

(** *** The repaired steps under [checkStaleness] *)

Lemma sameHash_self hash : Staleness.sameHash hash (Some hash) = true.
Proof. simpl. apply String.eqb_refl. Qed.

Lemma repairStep_settled h rootPath oldSha newSha step st st' :
  Repair.repairStep h rootPath oldSha newSha step st = Ok st' ->
  exists after,
    Repair.repairedSteps st' = Repair.repairedSteps st ++ [after]
    /\ settled h rootPath oldSha newSha step after.
Proof.
  unfold Repair.repairStep. cbv zeta.
  destruct (openTextDocument h _) as [doc|] eqn:Hopen.
  2:{ intros [= <-]. exists step. split; [reflexivity|]. right. now split. }
  destruct (lineAt doc (Z.min (lineCount doc - 1) (snd (lines step) - 1)))
    as [text|] eqn:Htext; [|discriminate].
  destruct (_ && _) eqn:Hkeep.
  { intros [= <-]. exists step. split; [reflexivity|]. left. intros revs i.
    apply andb_true_iff in Hkeep as [Hhash Hfile].
    apply String.eqb_eq in Hfile. rewrite Hfile in Hopen.
    unfold Staleness.stepVerdict. rewrite Hopen.
    destruct (negb (truthy (contentHash step))); [reflexivity|].
    unfold Staleness.checkContentHash. cbv zeta. rewrite Htext, Hhash. reflexivity. }
  pose proof (repair_cachedMappings_frame h oldSha newSha
                (Repair.resolveFile h oldSha newSha step) (file step) st)
    as (Hs & _ & _).
  destruct (Repair.cachedMappings h oldSha newSha _ (file step) st) as [m st1].
  simpl in Hs. destruct m as [|hunk hunks].
  - intros [= <-]. eexists. simpl. rewrite Hs. split; [reflexivity|].
    left. intros revs i. unfold Staleness.stepVerdict. simpl file. rewrite Hopen.
    destruct (negb (truthy _)); [reflexivity|].
    unfold Staleness.checkContentHash. cbv zeta. simpl lines. rewrite Htext.
    simpl contentHash. now rewrite sameHash_self.
  - set (clamped := clampRange (lineCount doc)
                      (remapLineRange (fst (lines step)) (snd (lines step))
                         (hunk :: hunks))).
    destruct (lineAt doc (snd clamped - 1)) as [text'|] eqn:Htext'; [|discriminate].
    intros [= <-]. eexists. simpl. rewrite Hs. split; [reflexivity|].
    left. intros revs i. unfold Staleness.stepVerdict. simpl file. rewrite Hopen.
    destruct (negb (truthy _)); [reflexivity|].
    unfold Staleness.checkContentHash. cbv zeta. simpl lines. simpl contentHash.
    assert (Hstart : Z.max 0 (fst clamped - 1) = fst clamped - 1).
    { subst clamped. unfold clampRange.
      destruct (remapLineRange _ _ _) as [newStart_ newEnd_]. simpl. lia. }
    assert (Hend : Z.min (lineCount doc - 1) (snd clamped - 1) = snd clamped - 1).
    { subst clamped. unfold clampRange.
      destruct (remapLineRange _ _ _) as [newStart_ newEnd_]. simpl. lia. }
    rewrite Hstart, Hend, Htext'. now rewrite sameHash_self.
Qed.

(** After a repair that ran its loop, [checkStaleness] on the repaired
    walkthrough (what the repair command does next) finds every step fresh
    whose resolved file could be opened during the repair, the steps
    counted as unresolved included; any other verdict belongs to a step
    whose file could not be opened. *)
Theorem repaired_steps_check_fresh h wf r oldSha newSha :
  commitSha (walkthrough wf) = Some oldSha ->
  getHeadSha h = Some newSha ->
  oldSha <> "" ->
  newSha <> "" ->
  oldSha <> newSha ->
  Repair.repairWalkthrough h wf = Ok r ->
  exists rootPath folders verdicts,
    workspaceFolders h = Some (rootPath :: folders)
    /\ Staleness.checkStaleness h (steps (Repair.walkthrough r))
         (commitSha (Repair.walkthrough r)) = Ok verdicts
    /\ Forall2
         (fun before verdict =>
            Staleness.status verdict = Staleness.st_fresh
            \/ openTextDocument h
                 (pathResolve h rootPath (Repair.resolveFile h oldSha newSha before))
               = Throw)
         (steps (walkthrough wf)) verdicts.
Proof.
  intros Hc Hh Ho Hn Hdiff Hrun.
  destruct (getHeadSha_folder h newSha Hh) as (rootPath & folders & Hws).
  exists rootPath, folders.
  revert Hrun. unfold Repair.repairWalkthrough, Repair.repairWalkthroughRun. cbv zeta.
  rewrite Hc, Hh, (truthy_nonempty _ Ho), (truthy_nonempty _ Hn). simpl.
  apply String.eqb_neq in Hdiff. rewrite Hdiff, Hws.
  destruct (Repair.repairLoop h rootPath oldSha newSha _ _) as [st|] eqn:Hloop;
    [|discriminate].
  intros [= <-]. simpl.
  destruct (repairLoop_related h rootPath oldSha newSha
              (settled h rootPath oldSha newSha)
              (repairStep_settled h rootPath oldSha newSha) _ _ _ Hloop)
    as (out & Hout & Hall).
  simpl in Hout. subst out.
  rewrite (checkStaleness_with_folder h _ _ rootPath folders Hws).
  eexists. split; [reflexivity|]. split; [reflexivity|].
  apply Forall2_same_length_lookup. split.
  - rewrite length_imap. now apply Forall2_length in Hall.
  - intros i before verdict Hbefore Hverdict.
    rewrite imap_lookup_index in Hverdict.
    destruct (Repair.repairedSteps st !! i) as [after|] eqn:Hafter; [|discriminate].
    injection Hverdict as <-.
    destruct (Forall2_lookup_lr _ _ _ _ _ _ Hall Hbefore Hafter) as [Hfresh|[_ Hopen]].
    + left. now rewrite Hfresh.
    + now right.
Qed.

Lemma repaired_steps_check_fresh_witness :
  exists rootPath folders verdicts r,
    Repair.repairWalkthrough renamedHost tourRenamed = Ok r
    /\ workspaceFolders renamedHost = Some (rootPath :: folders)
    /\ Staleness.checkStaleness renamedHost (steps (Repair.walkthrough r))
         (commitSha (Repair.walkthrough r)) = Ok verdicts
    /\ Forall2
         (fun before verdict =>
            Staleness.status verdict = Staleness.st_fresh
            \/ openTextDocument renamedHost
                 (pathResolve renamedHost rootPath
                    (Repair.resolveFile renamedHost "rev1" "rev2" before))
               = Throw)
         (steps (walkthrough tourRenamed)) verdicts.
Proof.
  assert (Hrun : exists r, Repair.repairWalkthrough renamedHost tourRenamed = Ok r)
    by (eexists; vm_compute; reflexivity).
  destruct Hrun as [r Hrun].
  destruct (repaired_steps_check_fresh renamedHost tourRenamed r "rev1" "rev2")
    as (rootPath & folders & verdicts & Hws & Hcheck & Hall);
    [reflexivity | reflexivity | discriminate | discriminate | discriminate
     | exact Hrun |].
  exists rootPath, folders, verdicts, r. now repeat split.
Defined.

(** ** The hunk cache of the staleness loop *)

Section StaleCache.
Variable h : Host.
Variable rootPath : string.
Variable revs : option (string * string).

Lemma stale_push_cache verdict st :
  staleCacheInvariant st -> staleCacheInvariant (Staleness.push verdict st).
Proof. intros Hinv. exact Hinv. Qed.

Lemma stale_cachedMappings_calls fromSha toSha path st :
  staleCacheInvariant st ->
  staleCacheInvariant (snd (Staleness.cachedMappings h fromSha toSha path path st))
  /\ (Staleness.diffCalls (snd (Staleness.cachedMappings h fromSha toSha path path st))
      = Staleness.diffCalls st
      \/ Staleness.diffCalls (snd (Staleness.cachedMappings h fromSha toSha path path st))
         = Staleness.diffCalls st ++ [path]).
Proof.
  intros [Hnodup Hdom]. unfold Staleness.cachedMappings.
  destruct (Staleness.mappingsCache st !! path) as [m|] eqn:Hget; simpl.
  - split; [split; assumption|now left].
  - split; [|now right]. split; simpl.
    + apply NoDup_app. split; [assumption|]. split; [|apply NoDup_singleton].
      intros p Hp Hin. apply list_elem_of_singleton in Hin. subst p.
      destruct (Hdom path Hp) as [m Hm]. congruence.
    + intros p Hp. apply elem_of_app in Hp as [Hp|Hp].
      * destruct (decide (path = p)) as [->|Hne].
        -- rewrite lookup_insert_eq. eauto.
        -- rewrite lookup_insert_ne by assumption. now apply Hdom.
      * apply list_elem_of_singleton in Hp. subst p. rewrite lookup_insert_eq. eauto.
Qed.

Lemma symbolTier_calls doc i step st :
  Staleness.diffCalls (Staleness.symbolTier h doc i step st) = Staleness.diffCalls st
  /\ Staleness.mappingsCache (Staleness.symbolTier h doc i step st)
     = Staleness.mappingsCache st.
Proof. rewrite symbolTier_push. now split. Qed.

Lemma gitTier_calls r doc i step st :
  staleCacheInvariant st ->
  staleCacheInvariant (Staleness.gitTier h r doc i step st)
  /\ (Staleness.diffCalls (Staleness.gitTier h r doc i step st) = Staleness.diffCalls st
      \/ Staleness.diffCalls (Staleness.gitTier h r doc i step st)
         = Staleness.diffCalls st ++ [file step]).
Proof.
  intros Hinv. unfold Staleness.gitTier.
  destruct (stale_cachedMappings_calls (fst r) (snd r) (file step) st Hinv)
    as [Hinv1 Hcalls].
  destruct (Staleness.cachedMappings h (fst r) (snd r) (file step) (file step) st)
    as [m st1].
  simpl in Hinv1, Hcalls. destruct m as [|hunk hunks].
  - rewrite symbolTier_push. split; [exact Hinv1|exact Hcalls].
  - cbv zeta. destruct (lineAt doc _) as [text|].
    + destruct (Staleness.sameHash _ _); (split; [exact Hinv1|exact Hcalls]).
    + split; [exact Hinv1|exact Hcalls].
Qed.

(** One iteration makes at most one diff call, for the path of its step,
    and only past a stored hash that did not match, with the git tier on. *)
Lemma staleStep_calls i step st :
  staleCacheInvariant st ->
  staleCacheInvariant (Staleness.staleStep h rootPath revs i step st)
  /\ (Staleness.diffCalls (Staleness.staleStep h rootPath revs i step st)
      = Staleness.diffCalls st
      \/ (revs <> None
          /\ truthy (contentHash step) = true
          /\ Staleness.diffCalls (Staleness.staleStep h rootPath revs i step st)
             = Staleness.diffCalls st ++ [file step])).
Proof.
  intros Hinv. unfold Staleness.staleStep. cbv zeta.
  destruct (openTextDocument h _) as [doc|]; [|split; [exact Hinv|now left]].
  destruct (truthy (contentHash step)) eqn:Htruthy; simpl;
    [|split; [exact Hinv|now left]].
  destruct (Staleness.checkContentHash h doc step) as [[|]|];
    try (split; [exact Hinv|now left]).
  destruct revs as [r|].
  - destruct (gitTier_calls r doc i step st Hinv) as [Hinv1 [Hcalls|Hcalls]].
    + split; [exact Hinv1|now left].
    + split; [exact Hinv1|]. right. now repeat split.
  - rewrite symbolTier_push. split; [exact Hinv|now left].
Qed.

Lemma staleLoop_calls steps : forall i st,
  staleCacheInvariant st ->
  staleCacheInvariant (Staleness.staleLoop h rootPath revs i steps st)
  /\ forall path, path ∈ Staleness.diffCalls (Staleness.staleLoop h rootPath revs i steps st) ->
       path ∈ Staleness.diffCalls st
       \/ (revs <> None
           /\ exists step, step ∈ steps /\ file step = path
                           /\ truthy (contentHash step) = true).
Proof.
  induction steps as [|step rest IH]; intros i st Hinv; simpl.
  - split; [assumption|]. intros path Hpath. now left.
  - destruct (staleStep_calls i step st Hinv) as [Hinv1 Hcalls].
    destruct (IH (S i) _ Hinv1) as [Hinv' Hfrom].
    split; [assumption|].
    intros path Hpath. destruct (Hfrom path Hpath) as [Hin|(Hrevs & s & Hs & Hfile & Hhash)].
    + destruct Hcalls as [Heq|(Hrevs & Hhash & Heq)]; rewrite Heq in Hin.
      * now left.
      * apply elem_of_app in Hin as [Hin|Hin]; [now left|].
        apply list_elem_of_singleton in Hin. subst path.
        right. split; [assumption|]. exists step. split; [left|now split].
    + right. split; [assumption|]. exists s. split; [now right|now split].
Qed.

End StaleCache.

(** In one [checkStaleness] run, [computeLineMappings] is called at most
    once for a path, only for the path of a step with a stored hash, and
    not at all when the baseline is absent, the head is unknown or the two
    are the same. *)
Theorem checkStaleness_diff_calls h steps commitSha st :
  Staleness.checkStalenessRun h steps commitSha = Ok st ->
  NoDup (Staleness.diffCalls st)
  /\ (forall path, path ∈ Staleness.diffCalls st ->
        exists step, step ∈ steps /\ file step = path
                     /\ truthy (contentHash step) = true)
  /\ (Staleness.gitRevisions commitSha (getHeadSha h) = None ->
      Staleness.diffCalls st = []).
Proof.
  unfold Staleness.checkStalenessRun.
  destruct (workspaceFolders h) as [[|rootPath folders]|]; [discriminate| |].
  - cbv zeta. intros [= <-].
    assert (Hinit : staleCacheInvariant (Staleness.mkLoopState [] ∅ [])).
    { split; simpl; [constructor|]. intros path Hpath. inversion Hpath. }
    destruct (staleLoop_calls h rootPath
                (Staleness.gitRevisions commitSha (getHeadSha h)) steps 0 _ Hinit)
      as [[Hnodup _] Hfrom].
    split; [assumption|]. split.
    + intros path Hpath. destruct (Hfrom path Hpath) as [Hin|[_ Hstep]];
        [inversion Hin|exact Hstep].
    + intros Hoff.
      destruct (Staleness.diffCalls _) as [|path calls] eqn:Hcalls; [reflexivity|].
      destruct (Hfrom path) as [Hin|[Hrevs _]];
        [first [rewrite Hcalls; left | left] | inversion Hin | contradiction].
  - intros [= <-]. simpl. split; [constructor|]. split; [|reflexivity].
    intros path Hpath. inversion Hpath.
Qed.

Lemma checkStaleness_diff_calls_witness :
  exists st,
    Staleness.checkStalenessRun shiftedHost [stepLate; stepLate; stepNoHash] (Some "rev1")
    = Ok st
    /\ NoDup (Staleness.diffCalls st)
    /\ (forall path, path ∈ Staleness.diffCalls st ->
          exists step, step ∈ [stepLate; stepLate; stepNoHash] /\ file step = path
                       /\ truthy (contentHash step) = true)
    /\ (Staleness.gitRevisions (Some "rev1") (getHeadSha shiftedHost) = None ->
        Staleness.diffCalls st = []).
Proof.
  eexists. split; [vm_compute; reflexivity|].
  apply (checkStaleness_diff_calls shiftedHost [stepLate; stepLate; stepNoHash]
           (Some "rev1")).
  vm_compute. reflexivity.
Defined.

(** ** The playback engine *)

Section Engine.
Import Player.

Lemma stepAt_in_range w index :
  0 <= index < stepCount w -> exists step, stepAt w index = Some step.
Proof.
  intros [Hlo Hhi]. unfold stepAt.
  destruct (Z.ltb_spec index 0); [lia|].
  destruct (steps w !! Z.to_nat index) as [step|] eqn:Hget; [now exists step|].
  apply lookup_ge_None in Hget. unfold stepCount in Hhi. lia.
Qed.

Lemma scheduled_pendingHeld e : scheduled e -> pendingHeld e.
Proof.
  unfold scheduled, pendingHeld.
  destruct (state e); try (intros ->; now left).
  intros (w & step & handle & _ & _ & Hhandle & Hpending).
  right. eexists. split; [exact Hpending|exact Hhandle].
Qed.

(** Clearing the timeout empties the queue and touches nothing else. *)
Lemma clearAutoAdvance_clears e :
  pendingHeld e ->
  pendingTimers (clearAutoAdvance e) = []
  /\ walkthrough (clearAutoAdvance e) = walkthrough e
  /\ currentIndex (clearAutoAdvance e) = currentIndex e
  /\ state (clearAutoAdvance e) = state e
  /\ speed (clearAutoAdvance e) = speed e.
Proof.
  unfold clearAutoAdvance.
  intros [Hnone|(t & Hone & Hhandle)].
  - destruct (autoAdvanceTimer e); simpl; rewrite ?Hnone; now repeat split.
  - rewrite Hhandle. simpl. rewrite Hone. simpl. rewrite Nat.eqb_refl. simpl.
    now repeat split.
Qed.

Lemma positioned_fields e e' :
  walkthrough e' = walkthrough e ->
  currentIndex e' = currentIndex e ->
  state e' = state e ->
  positioned e -> positioned e'.
Proof.
  unfold positioned. intros -> -> ->. trivial.
Qed.

(** Scheduling while playing at a step replaces whatever was pending by
    one timeout for that step. *)
Lemma scheduleAutoAdvance_playing e w step :
  pendingHeld e ->
  walkthrough e = Some w ->
  state e = playing ->
  stepAt w (currentIndex e) = Some step ->
  exists e',
    scheduleAutoAdvance e = Ok e'
    /\ walkthrough e' = Some w
    /\ currentIndex e' = currentIndex e
    /\ state e' = playing
    /\ speed e' = speed e
    /\ exists handle,
         autoAdvanceTimer e' = Some handle
         /\ pendingTimers e' = [mkTimer handle (stepSeconds step) (speed e)].
Proof.
  intros Hheld Hwalk Hstate Hstep.
  destruct (clearAutoAdvance_clears e Hheld) as (Hp & Hw & Hi & Hs & Hv).
  unfold scheduleAutoAdvance. cbv zeta.
  remember (clearAutoAdvance e) as e1 eqn:He1. clear He1.
  rewrite Hw, Hwalk, Hs, Hstate, Hi, Hstep. cbn [isPlaying negb].
  eexists. split; [reflexivity|]. cbn [walkthrough currentIndex state speed].
  repeat split; try assumption.
  exists (nextTimer e1). cbn [autoAdvanceTimer pendingTimers].
  rewrite Hp, Hv. split; reflexivity.
Qed.

(** After a change of position or speed: no throw, the same position,
    state and speed, and the timeout brought in line with them. *)
Lemma moved_wellFormed e :
  positioned e ->
  pendingHeld e ->
  (state e <> playing -> pendingTimers e = []) ->
  exists e',
    moved e = Ok e'
    /\ wellFormed e'
    /\ walkthrough e' = walkthrough e
    /\ currentIndex e' = currentIndex e
    /\ state e' = state e
    /\ speed e' = speed e.
Proof.
  intros Hpos Hheld Hquiet. unfold moved. cbv zeta.
  change (state (emit e)) with (state e).
  destruct (state e) eqn:Hstate; cbn [isPlaying].
  - eexists. split; [reflexivity|]. split; [split|now repeat split].
    + eapply positioned_fields; [| | |exact Hpos]; reflexivity.
    + unfold scheduled. simpl. rewrite Hstate. apply Hquiet. discriminate.
  - assert (Hpos' := Hpos). unfold positioned in Hpos'. rewrite Hstate in Hpos'.
    destruct (walkthrough e) as [w|] eqn:Hwalk; [|now destruct Hpos' as [_ Hx]].
    destruct Hpos' as (Hlo & Hrange & Hidle).
    assert (Hin : currentIndex e < stepCount w).
    { destruct Hrange as [Hlt|(_ & _ & Hnot)]; [assumption|now destruct Hnot]. }
    destruct (stepAt_in_range w (currentIndex e)) as [step Hstep]; [lia|].
    destruct (scheduleAutoAdvance_playing (emit e) w step)
      as (e' & Hrun & Hw & Hi & Hs & Hv & handle & Hhandle & Hpending);
      try assumption.
    exists e'. split; [exact Hrun|]. simpl in Hi, Hv, Hpending.
    split; [split|now repeat split].
    + unfold positioned. rewrite Hw, Hi, Hs.
      repeat split; [assumption|now left|discriminate].
    + unfold scheduled. rewrite Hs. exists w, step, handle.
      rewrite Hi, Hv. now repeat split.
  - eexists. split; [reflexivity|]. split; [split|now repeat split].
    + eapply positioned_fields; [| | |exact Hpos]; reflexivity.
    + unfold scheduled. simpl. rewrite Hstate. apply Hquiet. discriminate.
Qed.

Lemma scheduled_quiet e : scheduled e -> state e <> playing -> pendingTimers e = [].
Proof.
  unfold scheduled. destruct (state e); [trivial|now intros _ []|trivial].
Qed.

Lemma pause_wellFormed e :
  positioned e -> pendingHeld e ->
  wellFormed (pause e)
  /\ state (pause e) = paused
  /\ currentIndex (pause e) = currentIndex e
  /\ walkthrough (pause e) = walkthrough e
  /\ speed (pause e) = speed e.
Proof.
  intros Hpos Hheld. unfold pause.
  assert (Hheld' : pendingHeld (setState paused e)) by exact Hheld.
  destruct (clearAutoAdvance_clears _ Hheld') as (Hp & Hw & Hi & Hs & Hv).
  simpl in Hw, Hi, Hs, Hv.
  repeat split; simpl; try assumption.
  - unfold positioned in *. simpl. rewrite Hw, Hi, Hs.
    destruct (walkthrough e) as [w|].
    + destruct Hpos as (Hlo & Hrange & Hidle). repeat split; [assumption| |discriminate].
      destruct Hrange as [Hlt|(Hz & Hempty & _)]; [now left|right].
      repeat split; [assumption|assumption|discriminate].
    + destruct Hpos as [Hz _]. split; [assumption|discriminate].
  - unfold scheduled. simpl. rewrite Hs. exact Hp.
Qed.

Lemma stop_wellFormed e :
  pendingHeld e ->
  wellFormed (stop e) /\ state (stop e) = idle /\ walkthrough (stop e) = None.
Proof.
  intros Hheld. unfold stop. cbv zeta.
  destruct (clearAutoAdvance_clears _ Hheld) as (Hp & _).
  repeat split; simpl; try discriminate. unfold scheduled. simpl. exact Hp.
Qed.

Lemma load_wellFormed w e :
  pendingHeld e ->
  wellFormed (load w e)
  /\ state (load w e) = paused
  /\ walkthrough (load w e) = Some w
  /\ currentIndex (load w e) = 0.
Proof.
  intros Hheld. unfold load. cbv zeta.
  destruct (stop_wellFormed e Hheld) as ([_ Hsched] & Hstate & _).
  unfold scheduled in Hsched. rewrite Hstate in Hsched.
  repeat split; simpl; try discriminate; try lia.
  - destruct (steps w) as [|step rest] eqn:Hsteps.
    + right. now repeat split.
    + left. unfold stepCount. rewrite Hsteps. simpl. lia.
  - unfold scheduled. simpl. exact Hsched.
Qed.

Lemma play_wellFormed e :
  wellFormed e -> exists e', play e = Ok e' /\ wellFormed e'.
Proof.
  intros [Hpos Hsched]. unfold play.
  destruct (walkthrough e) as [w|] eqn:Hwalk; [|exists e; now repeat split].
  destruct (Nat.eqb_spec (length (steps w)) 0) as [Hempty|Hsome];
    [exists e; now repeat split|].
  assert (Hpos' := Hpos). unfold positioned in Hpos'. rewrite Hwalk in Hpos'.
  destruct Hpos' as (Hlo & Hrange & _).
  assert (Hin : currentIndex e < stepCount w).
  { destruct Hrange as [Hlt|(_ & Hnil & _)]; [assumption|].
    rewrite Hnil in Hsome. now destruct Hsome. }
  destruct (stepAt_in_range w (currentIndex e)) as [step Hstep]; [lia|].
  destruct (scheduleAutoAdvance_playing (emit (setState playing e)) w step)
    as (e' & Hrun & Hw & Hi & Hs & Hv & handle & Hhandle & Hpending);
    try assumption; try reflexivity.
  { exact (scheduled_pendingHeld e Hsched). }
  exists e'. split; [exact Hrun|]. simpl in Hi, Hv, Hpending. split.
  - unfold positioned. rewrite Hw, Hi, Hs.
    repeat split; [assumption|now left|discriminate].
  - unfold scheduled. rewrite Hs. exists w, step, handle.
    rewrite Hi, Hv. now repeat split.
Qed.

Lemma next_from e :
  positioned e ->
  pendingHeld e ->
  (state e <> playing -> pendingTimers e = []) ->
  exists moved' e',
    next e = Ok (moved', e')
    /\ wellFormed e'
    /\ walkthrough e' = walkthrough e
    /\ speed e' = speed e
    /\ match walkthrough e with
       | None => e' = e
       | Some w =>
           if currentIndex e >=? stepCount w - 1
           then moved' = false /\ state e' = paused
                /\ currentIndex e' = currentIndex e
           else moved' = true /\ state e' = state e
                /\ currentIndex e' = currentIndex e + 1
       end.
Proof.
  intros Hpos Hheld Hquiet. unfold next.
  destruct (walkthrough e) as [w|] eqn:Hwalk.
  - destruct (Z.geb_spec (currentIndex e) (stepCount w - 1)) as [Hend|Hmore].
    + destruct (pause_wellFormed e Hpos Hheld) as (Hwf & Hs & Hi & Hw & Hv).
      exists false, (pause e). rewrite Hwalk in Hw.
      split; [reflexivity|]. split; [exact Hwf|]. now repeat split.
    + destruct (moved_wellFormed (setIndex (currentIndex e + 1) e))
        as (e' & Hrun & Hwf & Hw & Hi & Hs & Hv); try assumption.
      { unfold positioned in *. simpl. rewrite Hwalk in *.
        destruct Hpos as (Hlo & _ & Hidle).
        repeat split; [lia|left; lia|assumption]. }
      rewrite Hrun. simpl in Hw, Hi, Hs, Hv. rewrite Hwalk in Hw.
      exists true, e'. split; [reflexivity|]. split; [exact Hwf|]. now repeat split.
  - exists false, e. split; [reflexivity|]. split; [|now repeat split].
    split; [exact Hpos|]. unfold scheduled.
    unfold positioned in Hpos. rewrite Hwalk in Hpos.
    destruct (state e) eqn:Hstate; try (apply Hquiet; discriminate).
    now destruct Hpos as [_ Hnot].
Qed.

Lemma wellFormed_parts e :
  wellFormed e ->
  positioned e /\ pendingHeld e /\ (state e <> playing -> pendingTimers e = []).
Proof.
  intros [Hpos Hsched]. split; [exact Hpos|]. split.
  - exact (scheduled_pendingHeld e Hsched).
  - exact (scheduled_quiet e Hsched).
Qed.

Lemma prev_wellFormed e :
  wellFormed e -> exists moved' e', prev e = Ok (moved', e') /\ wellFormed e'.
Proof.
  intros Hwf. destruct (wellFormed_parts e Hwf) as (Hpos & Hheld & Hquiet).
  unfold prev. destruct (walkthrough e) as [w|] eqn:Hwalk; [|exists false, e; split; [reflexivity|exact Hwf]].
  destruct (Z.leb_spec (currentIndex e) 0) as [Hfirst|Hlater]; [exists false, e; split; [reflexivity|exact Hwf]|].
  destruct (moved_wellFormed (setIndex (currentIndex e - 1) e))
    as (e' & Hrun & Hwf' & _); try assumption.
  { unfold positioned in *. simpl. rewrite Hwalk in *.
    destruct Hpos as (Hlo & Hrange & Hidle).
    repeat split; [lia|left; lia|assumption]. }
  rewrite Hrun. exists true, e'. split; [reflexivity|exact Hwf'].
Qed.

Lemma goTo_wellFormed index e :
  wellFormed e -> exists e', goTo index e = Ok e' /\ wellFormed e'.
Proof.
  intros Hwf. destruct (wellFormed_parts e Hwf) as (Hpos & Hheld & Hquiet).
  unfold goTo. destruct (walkthrough e) as [w|] eqn:Hwalk; [|exists e; split; [reflexivity|exact Hwf]].
  destruct (Z.ltb_spec index 0) as [Hneg|Hlo]; [exists e; split; [reflexivity|exact Hwf]|].
  destruct (Z.geb_spec index (stepCount w)) as [Hout|Hin]; [exists e; split; [reflexivity|exact Hwf]|].
  cbn [orb].
  destruct (moved_wellFormed (setIndex index e))
    as (e' & Hrun & Hwf' & _); try assumption.
  { unfold positioned in *. simpl. rewrite Hwalk in *.
    destruct Hpos as (_ & _ & Hidle).
    repeat split; [lia|left; lia|assumption]. }
  exists e'. split; [exact Hrun|exact Hwf'].
Qed.

Lemma setSpeed_wellFormed s e :
  wellFormed e ->
  exists e',
    setSpeed s e = Ok e'
    /\ wellFormed e'
    /\ walkthrough e' = walkthrough e
    /\ currentIndex e' = currentIndex e
    /\ state e' = state e
    /\ speed e' = s.
Proof.
  intros Hwf. destruct (wellFormed_parts e Hwf) as (Hpos & Hheld & Hquiet).
  unfold setSpeed.
  destruct (moved_wellFormed (setSpeedField s e))
    as (e' & Hrun & Hwf' & Hw & Hi & Hs & Hv); try assumption.
  exists e'. split; [exact Hrun|]. split; [exact Hwf'|]. now repeat split.
Qed.

Lemma cycleSpeed_setSpeed e : cycleSpeed e = setSpeed (speedAfter (speed e)) e.
Proof.
  unfold cycleSpeed. now destruct (speed e).
Qed.

Lemma timerFires_wellFormed e :
  wellFormed e ->
  exists e',
    timerFires e = Ok e'
    /\ wellFormed e'
    /\ walkthrough e' = walkthrough e
    /\ speed e' = speed e
    /\ match state e, walkthrough e with
       | playing, Some w =>
           if currentIndex e >=? stepCount w - 1
           then state e' = paused /\ currentIndex e' = currentIndex e
           else state e' = playing /\ currentIndex e' = currentIndex e + 1
       | _, _ => e' = e
       end.
Proof.
  intros Hwf. assert (Hwf' := Hwf). destruct Hwf' as [Hpos Hsched].
  unfold timerFires. unfold scheduled in Hsched.
  destruct (state e) eqn:Hstate.
  - rewrite Hsched. exists e. split; [reflexivity|]. split; [exact Hwf|]. now repeat split.
  - destruct Hsched as (w & step & handle & Hwalk & Hstep & Hhandle & Hpending).
    rewrite Hpending, Hwalk.
    destruct (next_from (mkEngine (walkthrough e) (currentIndex e) (state e)
                (autoAdvanceTimer e) (speed e) [] (nextTimer e) (emitted e)))
      as (b & e' & Hrun & Hwf' & Hw & Hv & Hcase).
    + unfold positioned in *. simpl. exact Hpos.
    + now left.
    + reflexivity.
    + rewrite Hwalk, Hstate in Hrun. rewrite Hrun. exists e'.
      simpl in Hw, Hv, Hcase. rewrite Hwalk in Hw, Hcase.
      split; [reflexivity|]. split; [assumption|]. split; [assumption|].
      split; [assumption|].
      destruct (currentIndex e >=? stepCount w - 1).
      * now destruct Hcase as (_ & Hs & Hi).
      * destruct Hcase as (_ & Hs & Hi). rewrite Hstate in Hs. now split.
  - rewrite Hsched. exists e. split; [reflexivity|]. split; [assumption|].
    now destruct (walkthrough e).
Qed.

Lemma newEngine_wellFormed : wellFormed newEngine.
Proof.
  split; [split; [reflexivity|discriminate]|reflexivity].
Qed.

Lemma perform_wellFormed c e :
  wellFormed e -> exists e', perform c e = Ok e' /\ wellFormed e'.
Proof.
  intros Hwf. destruct (wellFormed_parts e Hwf) as (Hpos & Hheld & Hquiet).
  destruct c; simpl.
  - eexists. split; [reflexivity|]. now apply load_wellFormed.
  - now apply play_wellFormed.
  - eexists. split; [reflexivity|]. now apply pause_wellFormed.
  - unfold togglePlayback. destruct (state e).
    + exists e. split; [reflexivity|exact Hwf].
    + eexists. split; [reflexivity|]. now apply pause_wellFormed.
    + now apply play_wellFormed.
  - destruct (next_from e Hpos Hheld Hquiet) as (b & e' & Hrun & Hwf' & _).
    rewrite Hrun. exists e'. split; [reflexivity|exact Hwf'].
  - destruct (prev_wellFormed e Hwf) as (b & e' & Hrun & Hwf').
    rewrite Hrun. exists e'. split; [reflexivity|exact Hwf'].
  - now apply goTo_wellFormed.
  - destruct (setSpeed_wellFormed s e Hwf) as (e' & Hrun & Hwf' & _).
    exists e'. split; [exact Hrun|exact Hwf'].
  - rewrite cycleSpeed_setSpeed.
    destruct (setSpeed_wellFormed (speedAfter (speed e)) e Hwf) as (e' & Hrun & Hwf' & _).
    exists e'. split; [exact Hrun|exact Hwf'].
  - eexists. split; [reflexivity|]. now apply stop_wellFormed.
  - destruct (timerFires_wellFormed e Hwf) as (e' & Hrun & Hwf' & _).
    exists e'. split; [exact Hrun|exact Hwf'].
Qed.

Lemma performAll_wellFormed commands e :
  wellFormed e -> exists e', performAll commands e = Ok e' /\ wellFormed e'.
Proof.
  revert e. induction commands as [|c rest IH]; intros e Hwf; simpl.
  - exists e. split; [reflexivity|exact Hwf].
  - destruct (perform_wellFormed c e Hwf) as (e1 & Hrun & Hwf1).
    rewrite Hrun. now apply IH.
Qed.

Lemma autoplay_runs (k : nat) e w :
  wellFormed e ->
  walkthrough e = Some w ->
  state e = playing ->
  Z.of_nat k = stepCount w - currentIndex e ->
  exists e',
    performAll (repeatCommand k TimerFires) e = Ok e'
    /\ wellFormed e'
    /\ walkthrough e' = Some w
    /\ state e' = paused
    /\ currentIndex e' = stepCount w - 1
    /\ speed e' = speed e.
Proof.
  revert e. induction k as [|k IH]; intros e Hwf Hwalk Hstate Hleft.
  - destruct Hwf as [Hpos _]. unfold positioned in Hpos. rewrite Hwalk in Hpos.
    destruct Hpos as (_ & [Hlt|(_ & _ & Hnot)] & _); [lia|now destruct Hnot].
  - cbn [repeatCommand performAll perform].
    destruct (timerFires_wellFormed e Hwf) as (e1 & Hrun & Hwf1 & Hw & Hv & Hcase).
    rewrite Hrun. rewrite Hstate, Hwalk in Hcase. rewrite Hwalk in Hw.
    destruct (Z.geb_spec (currentIndex e) (stepCount w - 1)) as [Hend|Hmore].
    + destruct Hcase as [Hs Hi].
      assert (Hin : currentIndex e < stepCount w).
      { destruct Hwf as [Hpos _]. unfold positioned in Hpos. rewrite Hwalk in Hpos.
        destruct Hpos as (_ & [Hlt|(_ & _ & Hnot)] & _); [lia|now destruct Hnot]. }
      assert (k = O) by lia. subst k. simpl.
      exists e1. split; [reflexivity|]. split; [exact Hwf1|].
      repeat split; try assumption. lia.
    + destruct Hcase as [Hs Hi].
      destruct (IH e1) as (e' & Hrest & Hwf' & Hw' & Hs' & Hi' & Hv');
        try assumption; [lia|].
      exists e'. split; [exact Hrest|]. split; [exact Hwf'|].
      repeat split; try assumption. congruence.
Qed.

(** X13. Whatever the user and the clock do to a new engine, in any order,
    no call throws, and afterwards: a timeout is pending exactly when the
    engine is playing, and then it is the only one, set for the current
    step at the current speed; the position is a step of the loaded
    walkthrough (0 when it has none); an idle engine has no walkthrough. *)
Theorem engine_stays_wellFormed (commands : list Player.Command) :
  exists e,
    Player.performAll commands Player.newEngine = Ok e
    /\ Player.wellFormed e
    /\ (Player.state e = Player.playing <-> Player.pendingTimers e <> [])
    /\ (Player.state e = Player.idle -> Player.walkthrough e = None)
    /\ (forall w, Player.walkthrough e = Some w -> steps w <> [] ->
          exists step, Player.currentStep (Player.getStatus e) = Some step).
Proof.
  destruct (performAll_wellFormed commands newEngine newEngine_wellFormed)
    as (e & Hrun & Hwf).
  exists e. split; [exact Hrun|]. split; [exact Hwf|].
  destruct Hwf as [Hpos Hsched]. unfold positioned in Hpos. unfold scheduled in Hsched.
  split; [|split].
  - destruct (state e) eqn:Hstate.
    + rewrite Hsched. split; [discriminate|now intros []].
    + destruct Hsched as (w & step & handle & _ & _ & _ & ->).
      split; [discriminate|reflexivity].
    + rewrite Hsched. split; [discriminate|now intros []].
  - intros Hidle. destruct (walkthrough e) as [w|]; [|reflexivity].
    now destruct Hpos as (_ & _ & Hnot).
  - intros w Hwalk Hsome. unfold getStatus. simpl. rewrite Hwalk in *.
    destruct Hpos as (Hlo & [Hlt|(_ & Hnil & _)] & _); [|contradiction].
    apply stepAt_in_range. lia.
Qed.

Lemma reachable_wellFormed commands e :
  performAll commands newEngine = Ok e -> wellFormed e.
Proof.
  intros Hrun.
  destruct (performAll_wellFormed commands newEngine newEngine_wellFormed)
    as (e' & Hrun' & Hwf).
  congruence.
Qed.

(** X14. Autoplay ends: when an engine reached by commands is playing at
    step i of n, the timeout firing n - i times, each time the one the
    last firing set, brings it to the last step and pauses it there with
    no timeout left, at the speed it had. *)
Theorem autoplay_pauses_on_last_step
    (commands : list Player.Command) (e : Player.PlaybackEngine) (w : Walkthrough)
    (Hreached : Player.performAll commands Player.newEngine = Ok e)
    (Hloaded : Player.walkthrough e = Some w)
    (Hplaying : Player.state e = Player.playing) :
  exists e',
    Player.performAll
      (Player.repeatCommand (Z.to_nat (Player.stepCount w - Player.currentIndex e))
                            Player.TimerFires) e = Ok e'
    /\ Player.walkthrough e' = Some w
    /\ Player.state e' = Player.paused
    /\ Player.currentIndex e' = Player.stepCount w - 1
    /\ Player.pendingTimers e' = []
    /\ Player.speed e' = Player.speed e.
Proof.
  assert (Hwf := reachable_wellFormed commands e Hreached).
  assert (Hin : currentIndex e < stepCount w).
  { destruct Hwf as [Hpos _]. unfold positioned in Hpos. rewrite Hloaded in Hpos.
    destruct Hpos as (_ & [Hlt|(_ & _ & Hnot)] & _); [lia|now destruct Hnot]. }
  destruct (autoplay_runs (Z.to_nat (stepCount w - currentIndex e)) e w)
    as (e' & Hrun & Hwf' & Hw & Hs & Hi & Hv); try assumption; [lia|].
  exists e'. repeat split; try assumption.
  destruct Hwf' as [_ Hsched]. unfold scheduled in Hsched.
  now rewrite Hs in Hsched.
Qed.

Lemma autoplay_pauses_on_last_step_witness :
  exists e',
    Player.performAll
      (Player.repeatCommand 2 Player.TimerFires)
      (match Player.performAll [Player.Load (Types.walkthrough tourRenamed); Player.Play] Player.newEngine with
       | Ok e => e
       | Throw => Player.newEngine
       end) = Ok e'
    /\ Player.walkthrough e' = Some (Types.walkthrough tourRenamed)
    /\ Player.state e' = Player.paused
    /\ Player.currentIndex e' = 1
    /\ Player.pendingTimers e' = []
    /\ Player.speed e' = Player.speed1.
Proof.
  exact (autoplay_pauses_on_last_step
           [Player.Load (Types.walkthrough tourRenamed); Player.Play] _ (Types.walkthrough tourRenamed)
           eq_refl eq_refl eq_refl).
Defined.

(** X15. On an engine reached by commands, cycleSpeed never reads past the
    speed options: it moves to the next of 0.5, 1, 2, 3 (0.5 after 3),
    keeps walkthrough, position and state, and a playing engine's timeout
    is set again for the current step at the new speed. *)
Theorem cycleSpeed_next_option
    (commands : list Player.Command) (e : Player.PlaybackEngine)
    (Hreached : Player.performAll commands Player.newEngine = Ok e) :
  exists e',
    Player.cycleSpeed e = Ok e'
    /\ Player.speed e' = Player.speedAfter (Player.speed e)
    /\ Player.walkthrough e' = Player.walkthrough e
    /\ Player.currentIndex e' = Player.currentIndex e
    /\ Player.state e' = Player.state e
    /\ (Player.state e = Player.playing ->
        exists step handle,
          Player.currentStep (Player.getStatus e) = Some step
          /\ Player.pendingTimers e'
             = [Player.mkTimer handle (Player.stepSeconds step)
                               (Player.speedAfter (Player.speed e))]).
Proof.
  assert (Hwf := reachable_wellFormed commands e Hreached).
  rewrite cycleSpeed_setSpeed.
  destruct (setSpeed_wellFormed (speedAfter (speed e)) e Hwf)
    as (e' & Hrun & Hwf' & Hw & Hi & Hs & Hv).
  exists e'. repeat split; try assumption.
  intros Hplaying. destruct Hwf' as [_ Hsched]. unfold scheduled in Hsched.
  rewrite Hs, Hplaying in Hsched.
  destruct Hsched as (w & step & handle & Hwalk & Hstep & _ & Hpending).
  exists step, handle. unfold getStatus. simpl.
  rewrite <- Hw, Hwalk, <- Hi, <- Hv. split; assumption.
Qed.

Lemma cycleSpeed_next_option_witness :
  exists e',
    Player.cycleSpeed
      (match Player.performAll [Player.Load (Types.walkthrough tourRenamed); Player.Play] Player.newEngine with
       | Ok e => e
       | Throw => Player.newEngine
       end) = Ok e'
    /\ Player.speed e' = Player.speed2
    /\ Player.state e' = Player.playing.
Proof.
  destruct (cycleSpeed_next_option [Player.Load (Types.walkthrough tourRenamed); Player.Play] _ eq_refl)
    as (e' & Hrun & Hv & _ & _ & Hs & _).
  exists e'. split; [exact Hrun|]. split; [exact Hv|exact Hs].
Defined.

End Engine.

(** ** Reading a step's lines for an export *)

Lemma pushLines_take doc i count acc :
  0 <= i ->
  i + Z.of_nat count <= lineCount doc ->
  Exporter.pushLines doc i count acc
  = Ok (acc ++ take count (drop (Z.to_nat i) (docLines doc))).
Proof.
  revert i acc. induction count as [|count IH]; intros i acc Hlo Hhi.
  - simpl. now rewrite app_nil_r.
  - cbn [Exporter.pushLines]. unfold lineAt, lineCount in *.
    destruct (Z.ltb_spec i 0); [lia|].
    destruct (Z.leb_spec (Z.of_nat (length (docLines doc))) i); [lia|].
    cbn [orb].
    destruct (docLines doc !! Z.to_nat i) as [text|] eqn:Hget.
    + rewrite IH by lia.
      rewrite (drop_S _ _ _ Hget).
      replace (Z.to_nat (i + 1)) with (S (Z.to_nat i)) by lia.
      cbn [take]. now rewrite <- app_assoc.
    + apply lookup_ge_None in Hget. lia.
Qed.

(** X16. Once the step's file opens, [readLines] never gives up: it
    answers the lines of the step's range that the document has, joined by
    line feeds. A range that starts before line 1 or ends after the last
    line is cut to the document, and a range wholly outside it, or one
    that ends before it starts, gives the empty text. *)
Theorem readLines_cut_to_document
    (h : Host) (rootPath : string) (step : WalkthroughStep) (doc : TextDocument)
    (Hopen : openTextDocument h (pathResolve h rootPath (file step)) = Ok doc) :
  Exporter.readLines h rootPath step
  = Some (Exporter.join
            (drop (Z.to_nat (fst (lines step) - 1))
                  (take (Z.to_nat (snd (lines step))) (docLines doc)))).
Proof.
  unfold Exporter.readLines. cbv zeta. rewrite Hopen.
  set (startLine := Z.max 0 (fst (lines step) - 1)).
  set (endLine := Z.min (lineCount doc - 1) (snd (lines step) - 1)).
  destruct (Z.le_gt_cases (endLine - startLine + 1) 0) as [Hnone|Hsome].
  - replace (Z.to_nat (endLine - startLine + 1)) with O by lia.
    cbn [Exporter.pushLines]. rewrite drop_ge; [reflexivity|].
    rewrite length_take. unfold lineCount in *. lia.
  - rewrite pushLines_take; [|lia|lia].
    rewrite app_nil_l, take_drop_commute.
    replace (Z.to_nat startLine) with (Z.to_nat (fst (lines step) - 1)) by lia.
    do 3 f_equal.
    unfold lineCount in *.
    destruct (Z.le_gt_cases (snd (lines step)) (Z.of_nat (length (docLines doc))))
      as [Hin|Hout].
    + f_equal. lia.
    + rewrite !take_ge by lia. reflexivity.
Qed.

Lemma readLines_cut_to_document_witness :
  Exporter.readLines shiftedHost "/w" stepLate = Some EmptyString.
Proof.
  exact (readLines_cut_to_document shiftedHost "/w" stepLate docA eq_refl).
Defined.

(** ** Showing a step in the editor *)

Lemma lineAt_outside doc line :
  line < 0 \/ lineCount doc <= line -> lineAt doc line = Throw.
Proof.
  intros Hout. unfold lineAt.
  destruct (Z.ltb_spec line 0); [reflexivity|].
  destruct (Z.leb_spec (lineCount doc) line); [reflexivity|lia].
Qed.

Lemma lineAt_inside doc line :
  0 <= line < lineCount doc -> exists text, lineAt doc line = Ok text.
Proof.
  intros [Hlo Hhi]. unfold lineAt.
  destruct (Z.ltb_spec line 0); [lia|].
  destruct (Z.leb_spec (lineCount doc) line); [lia|]. cbn [orb].
  destruct (docLines doc !! Z.to_nat line) as [text|] eqn:Hget; [now exists text|].
  apply lookup_ge_None in Hget. unfold lineCount in Hhi. lia.
Qed.

Lemma navigateToStep_opened h canShow step rootPath others doc :
  workspaceFolders h = Some (rootPath :: others) ->
  openTextDocument h (pathResolve h rootPath (file step)) = Ok doc ->
  canShow doc = true ->
  Highlight.navigateToStep h canShow step
  = let startLine := Z.max 0 (fst (lines step) - 1) in
    let endLine := Z.max startLine (snd (lines step) - 1) in
    match lineAt doc endLine with
    | Throw =>
        (None,
         [Highlight.ShowTextDocument (docUri doc);
          Highlight.ShowWarningMessage ("Could not open file: " ++ file step)%string])
    | Ok text =>
        let range := mkRange startLine 0 endLine (Z.of_nat (String.length text)) in
        (Some doc,
         [Highlight.ShowTextDocument (docUri doc); Highlight.RevealRange range;
          Highlight.SetDecorations range])
    end.
Proof.
  intros Hfolders Hopen Hshow. unfold Highlight.navigateToStep.
  rewrite Hfolders. cbv zeta. rewrite Hopen, Hshow. reflexivity.
Qed.

(** X17. With a folder open, the step's file opening and the editor
    showing it, [navigateToStep] highlights the step exactly when the range
    ends inside the document, and the highlight then lies inside it, start
    before end. When the range ends after the last line nothing is cut to
    the document: the file is on screen, no line is highlighted, the
    answer is [null] and the warning says the file could not be opened. *)
Theorem navigateToStep_end_in_document
    (h : Host) (canShow : TextDocument -> bool) (step : WalkthroughStep)
    (rootPath : string) (others : list string) (doc : TextDocument)
    (Hfolders : workspaceFolders h = Some (rootPath :: others))
    (Hopen : openTextDocument h (pathResolve h rootPath (file step)) = Ok doc)
    (Hshow : canShow doc = true) :
  let startLine := Z.max 0 (fst (lines step) - 1) in
  let endLine := Z.max startLine (snd (lines step) - 1) in
  (0 <= startLine <= endLine /\ endLine < lineCount doc
   /\ exists text,
        lineAt doc endLine = Ok text
        /\ Highlight.navigateToStep h canShow step
           = let range := mkRange startLine 0 endLine (Z.of_nat (String.length text)) in
             (Some doc,
              [Highlight.ShowTextDocument (docUri doc); Highlight.RevealRange range;
               Highlight.SetDecorations range]))
  \/ (lineCount doc <= endLine
      /\ Highlight.navigateToStep h canShow step
         = (None,
            [Highlight.ShowTextDocument (docUri doc);
             Highlight.ShowWarningMessage ("Could not open file: " ++ file step)%string])).
Proof.
  intros startLine endLine.
  rewrite (navigateToStep_opened h canShow step rootPath others doc Hfolders Hopen Hshow).
  cbv zeta. fold startLine. fold endLine.
  destruct (Z.lt_ge_cases endLine (lineCount doc)) as [Hin|Hout].
  - left. split; [lia|]. split; [exact Hin|].
    destruct (lineAt_inside doc endLine) as [text Htext]; [lia|].
    rewrite Htext. exists text. split; reflexivity.
  - right. split; [lia|]. rewrite lineAt_outside by lia. reflexivity.
Qed.

Lemma navigateToStep_end_in_document_witness :
  Highlight.navigateToStep shiftedHost (fun _ => true) stepLate
  = (None,
     [Highlight.ShowTextDocument "file:///w/a.ts";
      Highlight.ShowWarningMessage "Could not open file: a.ts"]).
Proof.
  destruct (navigateToStep_end_in_document shiftedHost (fun _ => true) stepLate
              "/w" [] docA eq_refl eq_refl eq_refl) as [(_ & Hin & _)|[_ Hrun]].
  - exact (match Z.lt_irrefl _ (Z.lt_trans _ _ _ Hin (eq_refl : 10 < 17)) with end).
  - exact Hrun.
Defined.

(** ** Recording a step *)

Lemma lineAt_Ok_inside doc line text :
  lineAt doc line = Ok text -> 0 <= line < lineCount doc.
Proof.
  unfold lineAt.
  destruct (Z.ltb_spec line 0); [discriminate|].
  destruct (Z.leb_spec (lineCount doc) line); [discriminate|]. lia.
Qed.

(** What a capture that answers [true] did. *)
Lemma captureStep_true h d r r' doc selection :
  Recorder.captureStep h d r = Ok (true, r') ->
  Recorder.activeTextEditor d = Some (doc, selection) ->
  exists rootPath others text subtitle,
    workspaceFolders h = Some (rootPath :: others)
    /\ lineAt doc (Recorder.endLine selection) = Ok text
    /\ Recorder.showInputBox d = Some subtitle
    /\ Recorder.steps r'
       = Recorder.steps r
         ++ [Recorder.mkRecordedStep
               (Recorder.pathRelative d rootPath (docUri doc))
               (Recorder.startLine selection + 1,
                Z.max (Recorder.startLine selection + 1) (Recorder.endLine selection + 1))
               (Recorder.findNearestSymbol d doc (Recorder.startLine selection))
               (substring 0 12
                  (sha256hex h
                     (getText h doc
                        (mkRange (Recorder.startLine selection) 0
                                 (Recorder.endLine selection)
                                 (Z.of_nat (String.length text))))))
               subtitle].
Proof.
  unfold Recorder.captureStep. intros Hrun Heditor.
  destruct (Recorder.recording r); [|discriminate]. cbn [negb] in Hrun.
  rewrite Heditor in Hrun. cbv zeta in Hrun.
  destruct (workspaceFolders h) as [[|rootPath others]|]; try discriminate.
  destruct (lineAt doc (Recorder.endLine selection)) as [text|]; [|discriminate].
  destruct (Recorder.showInputBox d) as [subtitle|]; [|discriminate].
  exists rootPath, others, text, subtitle. injection Hrun as <-. now repeat split.
Qed.

(** X18. A step just recorded round-trips. When [captureStep] answers
    [true] for a selection from line s to line e (0-indexed, s <= e), the
    step it pushed carries lines (s+1, e+1), which is a 1-indexed ordered
    range; the step [save] writes for it passes [checkContentHash] against
    the same document; and, when its path resolves back to that document,
    [navigateToStep] highlights lines s to e again. *)
Theorem recorded_step_round_trip
    (h : Host) (d : Recorder.Desk) (r r' : Recorder.Recorder)
    (doc : TextDocument) (selection : Recorder.Selection)
    (Hcapture : Recorder.captureStep h d r = Ok (true, r'))
    (Heditor : Recorder.activeTextEditor d = Some (doc, selection))
    (Hselection : 0 <= Recorder.startLine selection <= Recorder.endLine selection) :
  exists s text,
    Recorder.steps r' = Recorder.steps r ++ [s]
    /\ Recorder.lines s
       = (Recorder.startLine selection + 1, Recorder.endLine selection + 1)
    /\ Loader.lineRangeInvariant (Recorder.lines s)
    /\ Staleness.checkContentHash h doc (Recorder.savedStep s) = Ok true
    /\ lineAt doc (Recorder.endLine selection) = Ok text
    /\ forall canShow rootPath others,
         workspaceFolders h = Some (rootPath :: others) ->
         openTextDocument h (pathResolve h rootPath (Recorder.file s)) = Ok doc ->
         canShow doc = true ->
         Highlight.navigateToStep h canShow (Recorder.savedStep s)
         = let range := mkRange (Recorder.startLine selection) 0
                                (Recorder.endLine selection)
                                (Z.of_nat (String.length text)) in
           (Some doc,
            [Highlight.ShowTextDocument (docUri doc); Highlight.RevealRange range;
             Highlight.SetDecorations range]).
Proof.
  destruct (captureStep_true h d r r' doc selection Hcapture Heditor)
    as (root & rest & text & sub & Hfolders & Htext & Hbox & Hsteps).
  destruct (lineAt_Ok_inside _ _ _ Htext) as [_ Hin].
  eexists. exists text. split; [exact Hsteps|].
  cbn [Recorder.lines Recorder.file].
  replace (Z.max (Recorder.startLine selection + 1) (Recorder.endLine selection + 1))
    with (Recorder.endLine selection + 1) by lia.
  split; [reflexivity|]. split; [unfold Loader.lineRangeInvariant; simpl; lia|].
  split; [|split; [exact Htext|]].
  - unfold Staleness.checkContentHash, Recorder.savedStep. cbv zeta.
    cbn [lines contentHash Recorder.lines Recorder.contentHash fst snd].
    replace (Z.min (lineCount doc - 1) (Recorder.endLine selection + 1 - 1))
      with (Recorder.endLine selection) by lia.
    replace (Z.max 0 (Recorder.startLine selection + 1 - 1))
      with (Recorder.startLine selection) by lia.
    rewrite Htext. unfold Staleness.hash12. now rewrite sameHash_self.
  - intros canShow rootPath others Hfolders' Hopen Hshow.
    match goal with
    | |- Highlight.navigateToStep _ _ ?saved = _ =>
        rewrite (navigateToStep_opened h canShow saved rootPath others doc
                   Hfolders' Hopen Hshow)
    end.
    cbv zeta. unfold Recorder.savedStep.
    cbn [lines Recorder.lines fst snd].
    replace (Z.max 0 (Recorder.startLine selection + 1 - 1))
      with (Recorder.startLine selection) by lia.
    replace (Z.max (Recorder.startLine selection) (Recorder.endLine selection + 1 - 1))
      with (Recorder.endLine selection) by lia.
    now rewrite Htext.
Qed.

Lemma recorded_step_round_trip_witness :
  exists s text,
    Recorder.steps
      (match Recorder.captureStep shiftedHost
               (Recorder.mkDesk (Some (docA, Recorder.mkSelection 2 4))
                                (fun _ _ => "a.ts") (fun _ _ => "") (Some "three lines"))
               (Recorder.mkRecorder true [] "Tour" "") with
       | Ok (_, r') => r'
       | Throw => Recorder.mkRecorder false [] "" ""
       end) = [s]
    /\ Recorder.lines s = (3, 5)
    /\ Staleness.checkContentHash shiftedHost docA (Recorder.savedStep s) = Ok true
    /\ lineAt docA 4 = Ok text
    /\ Highlight.navigateToStep shiftedHost (fun _ => true) (Recorder.savedStep s)
       = (Some docA,
          [Highlight.ShowTextDocument "file:///w/a.ts";
           Highlight.RevealRange (mkRange 2 0 4 (Z.of_nat (String.length text)));
           Highlight.SetDecorations (mkRange 2 0 4 (Z.of_nat (String.length text)))]).
Proof.
  assert (Hselection : 0 <= 2 <= 4) by lia.
  destruct (recorded_step_round_trip shiftedHost
              (Recorder.mkDesk (Some (docA, Recorder.mkSelection 2 4))
                               (fun _ _ => "a.ts") (fun _ _ => "") (Some "three lines"))
              (Recorder.mkRecorder true [] "Tour" "") _ docA (Recorder.mkSelection 2 4)
              eq_refl eq_refl Hselection)
    as (s & text & Hsteps & Hlines & _ & Hfresh & Htext & Hshown).
  exists s, text. split; [exact Hsteps|]. split; [exact Hlines|].
  split; [exact Hfresh|]. split; [exact Htext|].
  apply (Hshown (fun _ => true) "/w" []); try reflexivity.
  cbv in Hsteps. injection Hsteps as <-. reflexivity.
Defined.

(** ** Escaping text for a page *)

Lemma replaceAll_app c replacement a b :
  Html.replaceAll c replacement (a ++ b)%string
  = (Html.replaceAll c replacement a ++ Html.replaceAll c replacement b)%string.
Proof.
  induction a as [|x a IH]; [reflexivity|].
  change (String x a ++ b)%string with (String x (a ++ b))%string.
  cbn [Html.replaceAll]. rewrite IH.
  destruct (Ascii.eqb x c); [|reflexivity].
  now rewrite string_append_assoc.
Qed.

Lemma escapeHtml_step x rest :
  Html.escapeHtml (String x rest) = (Html.entity x ++ Html.escapeHtml rest)%string.
Proof.
  unfold Html.escapeHtml, Html.entity. cbn [Html.replaceAll].
  destruct (Ascii.eqb x Html.ampersand).
  { rewrite !replaceAll_app. reflexivity. }
  cbn [Html.replaceAll]. destruct (Ascii.eqb x Html.lessThan).
  { rewrite !replaceAll_app. reflexivity. }
  cbn [Html.replaceAll]. destruct (Ascii.eqb x Html.greaterThan).
  { rewrite !replaceAll_app. reflexivity. }
  cbn [Html.replaceAll]. destruct (Ascii.eqb x Html.doubleQuote); reflexivity.
Qed.

(** The four passes together replace each character of the text once:
    what an earlier pass wrote is not escaped again by a later one. *)
Lemma escapeHtml_entities text : Html.escapeHtml text = Html.entities text.
Proof.
  induction text as [|x rest IH]; [reflexivity|].
  rewrite escapeHtml_step, IH. reflexivity.
Qed.

Lemma occurs_app c a b :
  Html.occurs c (a ++ b)%string = Html.occurs c a || Html.occurs c b.
Proof.
  induction a as [|x a IH]; [reflexivity|].
  change (String x a ++ b)%string with (String x (a ++ b))%string.
  cbn [Html.occurs]. rewrite IH. now rewrite orb_assoc.
Qed.

Lemma entity_markup x c :
  c = Html.lessThan \/ c = Html.greaterThan \/ c = Html.doubleQuote ->
  Html.occurs c (Html.entity x) = false.
Proof.
  unfold Html.entity.
  destruct (Ascii.eqb_spec x Html.ampersand) as [->|Hamp];
    [intros [->|[->| ->]]; reflexivity|].
  destruct (Ascii.eqb_spec x Html.lessThan) as [->|Hlt];
    [intros [->|[->| ->]]; reflexivity|].
  destruct (Ascii.eqb_spec x Html.greaterThan) as [->|Hgt];
    [intros [->|[->| ->]]; reflexivity|].
  destruct (Ascii.eqb_spec x Html.doubleQuote) as [->|Hquote];
    [intros [->|[->| ->]]; reflexivity|].
  intros Hc. cbn [Html.occurs]. rewrite orb_false_r.
  apply Ascii.eqb_neq. destruct Hc as [->|[->| ->]]; assumption.
Qed.

Lemma entities_markup text c :
  c = Html.lessThan \/ c = Html.greaterThan \/ c = Html.doubleQuote ->
  Html.occurs c (Html.entities text) = false.
Proof.
  intros Hc. induction text as [|x rest IH]; [reflexivity|].
  cbn [Html.entities]. rewrite occurs_app, IH, (entity_markup x c Hc). reflexivity.
Qed.

(** X19. [escapeHtml] leaves no [<], no [>] and no double quote in the
    text, whatever the text; and its four passes do not escape one
    another's output: the result is the text with each character replaced
    once. *)
Theorem escapeHtml_leaves_no_markup (text : string) :
  Html.occurs Html.lessThan (Html.escapeHtml text) = false
  /\ Html.occurs Html.greaterThan (Html.escapeHtml text) = false
  /\ Html.occurs Html.doubleQuote (Html.escapeHtml text) = false
  /\ Html.escapeHtml text = Html.entities text.
Proof.
  rewrite escapeHtml_entities.
  repeat split; apply entities_markup; auto.
Qed.

Lemma entities_injective a b : Html.entities a = Html.entities b -> a = b.
Proof.
  revert b. induction a as [|x a IH]; intros [|y b] H.
  - reflexivity.
  - exfalso. cbn [Html.entities] in H. unfold Html.entity in H.
    repeat match type of H with
           | context [Ascii.eqb ?c ?k] => destruct (Ascii.eqb c k)
           end; discriminate H.
  - exfalso. cbn [Html.entities] in H. unfold Html.entity in H.
    repeat match type of H with
           | context [Ascii.eqb ?c ?k] => destruct (Ascii.eqb c k)
           end; discriminate H.
  - cbn [Html.entities] in H. unfold Html.entity in H.
    repeat match type of H with
           | context [Ascii.eqb ?c ?k] =>
               destruct (Ascii.eqb_spec c k) as [?|?]; [subst c|]
           end;
      cbv beta iota delta [String.append] in H;
      try discriminate H;
      inversion H; subst;
      first [ f_equal; apply IH; assumption
            | exfalso;
              match goal with
              | n : _ <> _ |- _ => apply n; reflexivity
              end ].
Qed.

(** X20. [escapeHtml] loses nothing: two texts with the same escaped form
    are the same text. *)
Theorem escapeHtml_injective (a b : string)
    (Hsame : Html.escapeHtml a = Html.escapeHtml b) :
  a = b.
Proof.
  rewrite !escapeHtml_entities in Hsame. now apply entities_injective.
Qed.

Lemma escapeHtml_injective_witness :
  Html.escapeHtml "a<b" = "a&lt;b" /\ "a<b" = "a<b".
Proof.
  split; [reflexivity|].
  exact (escapeHtml_injective "a<b" "a<b" eq_refl).
Defined.


(** ** The file name of a saved recording *)

Section Slug.
Import Recorder.

Lemma inside_not_dash c : outsideSlug c = false -> Ascii.eqb c dash = false.
Proof.
  intros Hin. destruct (Ascii.eqb_spec c dash) as [->|]; [|reflexivity].
  discriminate Hin.
Qed.

Lemma dashRuns_slugText inRun text : slugText (dashRuns inRun text) = true.
Proof.
  revert inRun. induction text as [|c rest IH]; intros inRun; [reflexivity|].
  cbn [dashRuns]. destruct (outsideSlug c) eqn:Hc.
  - destruct inRun; [apply IH|]. cbn [slugText]. rewrite IH.
    rewrite Ascii.eqb_refl. now rewrite orb_true_r.
  - cbn [slugText]. now rewrite Hc, IH.
Qed.

Lemma dashRuns_run_start text : startsWithDash (dashRuns true text) = false.
Proof.
  induction text as [|c rest IH]; [reflexivity|].
  cbn [dashRuns]. destruct (outsideSlug c) eqn:Hc; [exact IH|].
  cbn [startsWithDash]. now apply inside_not_dash.
Qed.

Lemma dashRuns_doubleDash inRun text : doubleDash (dashRuns inRun text) = false.
Proof.
  revert inRun. induction text as [|c rest IH]; intros inRun; [reflexivity|].
  cbn [dashRuns]. destruct (outsideSlug c) eqn:Hc.
  - destruct inRun; [apply IH|]. cbn [doubleDash].
    now rewrite dashRuns_run_start, IH, andb_false_r.
  - cbn [doubleDash]. now rewrite (inside_not_dash c Hc), IH.
Qed.

Lemma dropLeadingDash_slugText text :
  slugText text = true -> slugText (dropLeadingDash text) = true.
Proof.
  destruct text as [|c rest]; [trivial|]. cbn [dropLeadingDash].
  intros H. destruct (Ascii.eqb c dash); [|exact H].
  cbn [slugText] in H. now apply andb_prop in H as [_ Hrest].
Qed.

Lemma dropLeadingDash_doubleDash text :
  doubleDash text = false ->
  doubleDash (dropLeadingDash text) = false
  /\ startsWithDash (dropLeadingDash text) = false.
Proof.
  destruct text as [|c rest]; [now split|]. cbn [dropLeadingDash doubleDash].
  intros H. apply orb_false_elim in H as [Hfirst Hrest].
  destruct (Ascii.eqb c dash) eqn:Hc.
  - split; [exact Hrest|exact Hfirst].
  - split; [cbn [doubleDash]; now rewrite Hc, Hrest|exact Hc].
Qed.

Lemma dropTrailingDash_slugText text :
  slugText text = true -> slugText (dropTrailingDash text) = true.
Proof.
  induction text as [|c rest IH]; [trivial|].
  cbn [dropTrailingDash slugText]. intros H. apply andb_prop in H as [Hc Hrest].
  destruct rest as [|c' rest'].
  - destruct (Ascii.eqb c dash) eqn:Hd; [reflexivity|]. cbn [slugText].
    rewrite Hd. now rewrite Hc.
  - cbn [slugText]. rewrite Hc. now apply IH.
Qed.

Lemma dropTrailingDash_start text :
  startsWithDash text = false -> startsWithDash (dropTrailingDash text) = false.
Proof.
  destruct text as [|c rest]; [trivial|]. cbn [dropTrailingDash startsWithDash].
  intros Hc. destruct rest; [now rewrite Hc|exact Hc].
Qed.

Lemma dropTrailingDash_doubleDash text :
  doubleDash text = false ->
  doubleDash (dropTrailingDash text) = false
  /\ endsWithDash (dropTrailingDash text) = false.
Proof.
  induction text as [|c rest IH]; [now split|].
  cbn [doubleDash]. intros H. apply orb_false_elim in H as [Hfirst Hrest].
  destruct (IH Hrest) as [IHdouble IHend].
  destruct rest as [|c' rest'].
  - cbn [dropTrailingDash]. destruct (Ascii.eqb c dash) eqn:Hc; [now split|].
    split; [cbn [doubleDash startsWithDash]; now rewrite andb_false_r|exact Hc].
  - change (dropTrailingDash (String c (String c' rest')))
      with (String c (dropTrailingDash (String c' rest'))).
    split.
    + cbn [doubleDash]. rewrite IHdouble, orb_false_r.
      destruct (Ascii.eqb c dash); [|reflexivity]. cbn [andb] in *.
      now apply dropTrailingDash_start.
    + cbn [endsWithDash].
      destruct (dropTrailingDash (String c' rest')) as [|c'' rest''] eqn:Hdrop;
        [|exact IHend].
      destruct (Ascii.eqb c dash); [|reflexivity]. cbn [andb] in Hfirst.
      cbn [startsWithDash] in Hfirst. cbn [dropTrailingDash] in Hdrop.
      destruct rest'; [|discriminate Hdrop].
      now rewrite Hfirst in Hdrop.
Qed.

Lemma dashRuns_run_onlyOutside text :
  onlyOutside text = true -> dashRuns true text = EmptyString.
Proof.
  induction text as [|c rest IH]; [reflexivity|].
  cbn [onlyOutside dashRuns]. intros H. apply andb_prop in H as [Hc Hrest].
  rewrite Hc. now apply IH.
Qed.

(** X21. The stem [save] makes of a title is a plain file name: only
    lower-case ASCII letters, digits and single dashes, with no dash at
    either end, so it holds no path separator and no dot. A title without
    any lower-case letter or digit after [toLowerCase] gives the empty
    stem. *)
Theorem slug_is_plain (toLowerCase : string -> string) (title : string) :
  Recorder.slugText (Recorder.slug toLowerCase title) = true
  /\ Recorder.startsWithDash (Recorder.slug toLowerCase title) = false
  /\ Recorder.endsWithDash (Recorder.slug toLowerCase title) = false
  /\ Recorder.doubleDash (Recorder.slug toLowerCase title) = false
  /\ (Recorder.onlyOutside (toLowerCase title) = true ->
      Recorder.slug toLowerCase title = EmptyString).
Proof.
  unfold slug.
  pose proof (dashRuns_slugText false (toLowerCase title)) as Htext.
  pose proof (dashRuns_doubleDash false (toLowerCase title)) as Hdouble.
  destruct (dropLeadingDash_doubleDash _ Hdouble) as [Hdouble' Hstart].
  destruct (dropTrailingDash_doubleDash _ Hdouble') as [Hdouble'' Hend].
  split; [now apply dropTrailingDash_slugText, dropLeadingDash_slugText|].
  split; [now apply dropTrailingDash_start|].
  split; [exact Hend|]. split; [exact Hdouble''|].
  intros Honly. destruct (toLowerCase title) as [|c rest]; [reflexivity|].
  cbn [onlyOutside] in Honly. apply andb_prop in Honly as [Hc Hrest].
  cbn [dashRuns]. rewrite Hc, (dashRuns_run_onlyOutside rest Hrest). reflexivity.
Qed.

End Slug.

(** ** The repair loop, step by step *)

Section RepairAccount.
Variable h : Host.
Variables rootPath oldSha newSha : string.










End RepairAccount.







(** ** Steps without a stored content hash *)




(** ** Renamed paths in the repair *)




